(** * libsass: AST containers, selector specificity, naive trim and source maps

    A shallow embedding of the parts of [src/ast.hpp], [src/node.cpp] and
    [src/source_map.cpp] that the specification talks about, followed by the
    theorems that relate the specification to the code and by further
    properties of the code.

    Conventions.
    - A C++ pointer that may be null is an [option]; a pointer the code
      dereferences unconditionally is the pointee itself.  An object is
      written where the pointer to it stands, which is how the code reads it;
      where an object is changed after a pointer to it was stored, the
      compound selectors under the head of a complex selector, the objects
      are kept in a store.
    - [size_t] and [unsigned long] are 64 bits wide and [int] is 32 bits wide
      (LP64).  Their values are integers of [Z]; every place where the code
      converts or may wrap is written out with [to_size_t], [to_ulong] and
      [to_int].
    - A member [x_] declared with [ADD_PROPERTY(type, x)] is a record field;
      its getter [x()] is the projection. *)

From Stdlib Require Import ZArith String Ascii List Lia Bool.
From stdpp Require Import base option list gmap strings.

Local Open Scope string_scope.
Local Open Scope list_scope.
Local Open Scope Z_scope.

#[local] Set Warnings "-register-all".

(** ** Machine integers *)

Module Machine.

Definition size_t_bits : Z := 64.
Definition int_bits : Z := 32.

(** Conversion to an unsigned type of [w] bits: reduction modulo [2^w]. *)
Definition wrap_unsigned (w z : Z) : Z := z mod 2 ^ w.

(** Conversion to a signed type of [w] bits (two's complement, as every
    mainstream compiler implements the implementation-defined narrowing). *)
Definition wrap_signed (w z : Z) : Z :=
  (z + 2 ^ (w - 1)) mod 2 ^ w - 2 ^ (w - 1).

Definition to_size_t (z : Z) : Z := wrap_unsigned size_t_bits z.
Definition to_ulong (z : Z) : Z := wrap_unsigned size_t_bits z.
Definition to_int (z : Z) : Z := wrap_signed int_bits z.

(** The values a [size_t] (or [unsigned long]) can hold. *)
Definition is_size_t (z : Z) : Prop := 0 <= z < 2 ^ size_t_bits.

(** The non-negative values an [int] can hold. *)
Definition is_nonneg_int (z : Z) : Prop := 0 <= z < 2 ^ (int_bits - 1).

End Machine.
Export Machine.

(** ** Positions ([position.hpp], as used by the sources) *)

Record Position : Type := mkPosition {
  file : Z;
  line : Z;
  column : Z
}.

Record Offset : Type := mkOffset {
  off_line : Z;
  off_column : Z
}.

(** [ParserState] is a [Position] that also carries the path, the source text
    and the extent of the token. *)
Record ParserState : Type := mkParserState {
  path : string;
  src : string;
  position : Position;
  offset : Offset
}.

(** ** Expressions ([ast.hpp], class [Expression]) *)

Inductive Concrete_Type : Type :=
| NONE | BOOLEAN | NUMBER | COLOR | STRING | LIST | MAP | SELECTOR
| NULL_VAL | C_WARNING | C_ERROR | NUM_TYPES.

Record Expression : Type := mkExpression {
  pstate_ : ParserState;
  is_delayed_ : bool;
  is_expanded_ : bool;
  is_interpolant_ : bool;
  concrete_type_ : Concrete_Type
}.

(** [Expression(pstate, d, e, i, ct)]: the member initialisers are
    [is_delayed_(d), is_expanded_(d), is_interpolant_(i), concrete_type_(ct)]. *)
Definition Expression_ctor (pstate : ParserState) (d e i : bool)
    (ct : Concrete_Type) : Expression :=
  {| pstate_ := pstate;
     is_delayed_ := d;
     is_expanded_ := d;
     is_interpolant_ := i;
     concrete_type_ := ct |}.

(** The getters and setters generated by [ADD_PROPERTY]. *)
Definition is_delayed (x : Expression) : bool := is_delayed_ x.
Definition is_expanded (x : Expression) : bool := is_expanded_ x.
Definition is_interpolant (x : Expression) : bool := is_interpolant_ x.
Definition concrete_type (x : Expression) : Concrete_Type := concrete_type_ x.

Definition set_is_expanded (b : bool) (x : Expression) : Expression :=
  {| pstate_ := pstate_ x;
     is_delayed_ := is_delayed_ x;
     is_expanded_ := b;
     is_interpolant_ := is_interpolant_ x;
     concrete_type_ := concrete_type_ x |}.

Definition set_concrete_type (ct : Concrete_Type) (x : Expression) : Expression :=
  {| pstate_ := pstate_ x;
     is_delayed_ := is_delayed_ x;
     is_expanded_ := is_expanded_ x;
     is_interpolant_ := is_interpolant_ x;
     concrete_type_ := ct |}.

(** [Value(pstate, d, e, i, ct) : Expression(pstate, d, e, i, ct)]. *)
Definition Value_ctor (pstate : ParserState) (d e i : bool)
    (ct : Concrete_Type) : Expression :=
  Expression_ctor pstate d e i ct.

(** [virtual size_t hash() { return 0; }]: the hash of an expression whose
    class does not override it. *)
Definition Expression_hash (x : Expression) : Z := 0.

(** ** The [Vectorized] mixin *)

Record Vectorized (T : Type) : Type := mkVectorized {
  elements_ : list T;
  hash_ : Z
}.
Arguments mkVectorized {T} _ _.
Arguments elements_ {T} _.
Arguments hash_ {T} _.

(** [Vectorized(size_t s = 0)] reserves room and leaves [hash_]
    uninitialised; [h0] stands for whatever value the member holds. *)
Definition Vectorized_ctor {T : Type} (h0 : Z) : Vectorized T :=
  {| elements_ := []; hash_ := h0 |}.

Definition reset_hash {T : Type} (v : Vectorized T) : Vectorized T :=
  {| elements_ := elements_ v; hash_ := 0 |}.

Definition push_back {T : Type} (element : T) (v : Vectorized T) : Vectorized T :=
  {| elements_ := elements_ v ++ [element]; hash_ := hash_ v |}.

Definition length_ {T : Type} (v : Vectorized T) : Z :=
  Z.of_nat (length (elements_ v)).

(** A class [Self] that derives from [Vectorized<T*>]: how to reach the
    mixin's members inside the object, and the virtual hook
    [adjust_after_pushing], which runs on the whole object. *)
Class VectorizedClass (T Self : Type) : Type := {
  vec : Self -> Vectorized T;
  set_vec : Vectorized T -> Self -> Self;
  adjust_after_pushing : T -> Self -> Self
}.

(** [Vectorized& operator<<(T element)].  [element] is a pointer: [None] is
    the null pointer. *)
Definition Vectorized_shl {T Self : Type} `{VectorizedClass T Self}
    (self : Self) (element : option T) : Self :=
  match element with
  | None => self
  | Some e =>
      let self1 := set_vec (reset_hash (vec self)) self in
      let self2 := set_vec (push_back e (vec self1)) self1 in
      adjust_after_pushing e self2
  end.

(** The mixin on its own: the hook of the base class does nothing. *)
#[export] Instance Vectorized_base (T : Type) : VectorizedClass T (Vectorized T) := {
  vec := fun v => v;
  set_vec := fun v _ => v;
  adjust_after_pushing := fun _ v => v
}.

(** ** The [Hashed] mixin *)

(** The one operation the table needs from a key: its virtual [hash()].
    [std::hash<Expression*>] returns [s->hash()], and
    [std::equal_to<Expression*>] compares [lhs->hash() == rhs->hash()]. *)
Class HashMethod (E : Type) : Type := hash : E -> Z.

#[export] Instance Expression_HashMethod : HashMethod Expression := Expression_hash.

Module Hashed.
Section Defs.
Context {E : Type} `{HashMethod E}.

(** [unordered_map<Expression*, Expression*>] under the two specialisations
    above: keys are equal exactly when their hashes are, so the table has one
    slot per hash value, holding the key that created the slot and the value
    last stored in it. *)
Record Hashed : Type := mkHashed {
  elements_ : gmap Z (E * E);
  list_ : list E;
  hash_ : Z;
  duplicate_key_ : option E
}.

Definition reset_hash (h : Hashed) : Hashed :=
  {| elements_ := elements_ h; list_ := list_ h; hash_ := 0;
     duplicate_key_ := duplicate_key_ h |}.

Definition reset_duplicate_key (h : Hashed) : Hashed :=
  {| elements_ := elements_ h; list_ := list_ h; hash_ := hash_ h;
     duplicate_key_ := None |}.

(** [Hashed(size_t s = 0)]; [hash_] is not initialised ([h0]). *)
Definition Hashed_ctor (h0 : Z) : Hashed :=
  reset_duplicate_key
    {| elements_ := ∅; list_ := []; hash_ := h0; duplicate_key_ := None |}.

(** [elements_.count(k)] *)
Definition count (h : Hashed) (k : E) : Z :=
  match elements_ h !! hash k with
  | Some _ => 1
  | None => 0
  end.

Definition has (h : Hashed) (k : E) : bool := count h k =? 1.

Definition length (h : Hashed) : Z := Z.of_nat (List.length (list_ h)).
Definition empty (h : Hashed) : bool :=
  match list_ h with [] => true | _ => false end.
Definition keys (h : Hashed) : list E := list_ h.
Definition pairs (h : Hashed) : gmap Z (E * E) := elements_ h.

Definition has_duplicate_key (h : Hashed) : bool :=
  match duplicate_key_ h with Some _ => true | None => false end.
Definition get_duplicate_key (h : Hashed) : option E := duplicate_key_ h.

(** [elements_[k] = v]: an existing slot keeps its key and takes the new
    value; otherwise a slot is created. *)
Definition subscript_assign (m : gmap Z (E * E)) (k v : E) : gmap Z (E * E) :=
  match m !! hash k with
  | Some (k0, _) => <[hash k := (k0, v)]> m
  | None => <[hash k := (k, v)]> m
  end.

(** [Hashed& operator<<(pair<Expression*, Expression*> p)], with the hook of
    the base class (which does nothing). *)
Definition shl (h : Hashed) (p : E * E) : Hashed :=
  let h1 := reset_hash h in
  let h2 :=
    if negb (has h1 p.1) then
      {| elements_ := elements_ h1; list_ := list_ h1 ++ [p.1];
         hash_ := hash_ h1; duplicate_key_ := duplicate_key_ h1 |}
    else if negb (has_duplicate_key h1) then
      {| elements_ := elements_ h1; list_ := list_ h1;
         hash_ := hash_ h1; duplicate_key_ := Some p.1 |}
    else h1 in
  {| elements_ := subscript_assign (elements_ h2) p.1 p.2; list_ := list_ h2;
     hash_ := hash_ h2; duplicate_key_ := duplicate_key_ h2 |}.

(** Modelled from the spec: [Hashed::at] is declared in [ast.hpp] but defined
    in a file that is not among the sources.  By the data model (a map from
    keys to values) it returns the value stored for the key; [None] stands for
    what it does on a key that is absent. *)
Definition at_ (h : Hashed) (k : E) : option E :=
  snd <$> (elements_ h !! hash k).

End Defs.
Arguments Hashed E : clear implicits.
End Hashed.

(** [class Map : public Value, public Hashed]; its hook clears
    [is_expanded]. *)
Record Map : Type := mkMap {
  Map_value : Expression;
  Map_hashed : Hashed.Hashed Expression
}.

Definition Map_ctor (pstate : ParserState) (h0 : Z) : Map :=
  {| Map_value := set_concrete_type MAP (Value_ctor pstate false false false NONE);
     Map_hashed := Hashed.Hashed_ctor h0 |}.

Definition Map_shl (m : Map) (p : Expression * Expression) : Map :=
  {| Map_value := set_is_expanded false (Map_value m);
     Map_hashed := Hashed.shl (Map_hashed m) p |}.

(** ** Selectors *)

(** The members of [class Selector : public Expression].  [media_block_] is a
    non-owning pointer; the pointee is named by its arena handle. *)
Record Selector_members : Type := mkSelector_members {
  sel_expression : Expression;
  has_reference_ : bool;
  has_placeholder_ : bool;
  has_line_feed_ : bool;
  has_line_break_ : bool;
  is_optional_ : bool;
  media_block_ : option Z
}.

(** [Selector(ParserState pstate, bool r = false, bool h = false)] *)
Definition Selector_ctor (pstate : ParserState) (r h : bool) : Selector_members :=
  {| sel_expression :=
       set_concrete_type SELECTOR (Expression_ctor pstate false false false NONE);
     has_reference_ := r;
     has_placeholder_ := h;
     has_line_feed_ := false;
     has_line_break_ := false;
     is_optional_ := false;
     media_block_ := None |}.

Definition set_has_reference (b : bool) (m : Selector_members) : Selector_members :=
  {| sel_expression := sel_expression m;
     has_reference_ := b;
     has_placeholder_ := has_placeholder_ m;
     has_line_feed_ := has_line_feed_ m;
     has_line_break_ := has_line_break_ m;
     is_optional_ := is_optional_ m;
     media_block_ := media_block_ m |}.

Definition set_has_placeholder (b : bool) (m : Selector_members) : Selector_members :=
  {| sel_expression := sel_expression m;
     has_reference_ := has_reference_ m;
     has_placeholder_ := b;
     has_line_feed_ := has_line_feed_ m;
     has_line_break_ := has_line_break_ m;
     is_optional_ := is_optional_ m;
     media_block_ := media_block_ m |}.

(** The members [class Simple_Selector] adds. *)
Record Simple_members : Type := mkSimple_members {
  simple_selector : Selector_members;
  ns_ : string;
  name_ : string;
  has_ns_ : bool
}.

(** [n.find('|')] *)
Fixpoint find_char (c : ascii) (s : string) : option nat :=
  match s with
  | EmptyString => None
  | String a s' =>
      if Ascii.eqb a c then Some 0%nat else S <$> find_char c s'
  end.

(** [n.substr(pos)]: the rest of the string from [pos]. *)
Definition substr_from (pos : nat) (s : string) : string :=
  substring pos (String.length s - pos) s.

(** [Simple_Selector(ParserState pstate, string n = "")]: a name of the form
    [ns|name] is split at the first bar. *)
Definition Simple_Selector_ctor (pstate : ParserState) (n : string) : Simple_members :=
  match find_char "|"%char n with
  | Some pos =>
      {| simple_selector := Selector_ctor pstate false false;
         ns_ := substring 0 pos n;
         name_ := substr_from (S pos) n;
         has_ns_ := true |}
  | None =>
      {| simple_selector := Selector_ctor pstate false false;
         ns_ := "";
         name_ := n;
         has_ns_ := false |}
  end.

Definition map_simple_selector (f : Selector_members -> Selector_members)
    (m : Simple_members) : Simple_members :=
  {| simple_selector := f (simple_selector m);
     ns_ := ns_ m; name_ := name_ m; has_ns_ := has_ns_ m |}.

Inductive Combinator : Type :=
| ANCESTOR_OF | PARENT_OF | PRECEDES | ADJACENT_TO | REFERENCE.

(** The selector classes.  A [String*] member is the text it stands for.
    [Selector] lists what a [Selector*] may point to; [Compound_Selector] and
    [Selector_List] carry the members of their [Vectorized] base, and
    [sources_] holds the elements of the [SourcesSet]. *)
Inductive Simple_Selector : Type :=
| Parent_Selector (m : Simple_members)
| Selector_Placeholder (m : Simple_members)
| Type_Selector (m : Simple_members)
| Selector_Qualifier (m : Simple_members)
| Attribute_Selector (m : Simple_members) (matcher_ : string) (value_ : option string)
| Pseudo_Selector (m : Simple_members) (expression_ : option string)
| Wrapped_Selector (m : Simple_members) (selector_ : option Selector)
with Selector : Type :=
| Sel_Schema (m : Selector_members) (contents_ : option string) (at_root_ : bool)
| Sel_Simple (s : Simple_Selector)
| Sel_Compound (c : Compound_Selector)
| Sel_Complex (c : Complex_Selector)
| Sel_List (l : Selector_List)
with Compound_Selector : Type :=
| mkCompound_Selector (m : Selector_members) (v : Vectorized Simple_Selector)
    (sources_ : list Complex_Selector) (has_parent_reference_ : bool)
with Complex_Selector : Type :=
| mkComplex_Selector (m : Selector_members) (combinator_ : Combinator)
    (head_ : option Compound_Selector) (tail_ : option Complex_Selector)
    (reference_ : option string)
with Selector_List : Type :=
| mkSelector_List (m : Selector_members) (v : Vectorized Complex_Selector)
    (wspace_ : list string).

Definition Simple_members_of (s : Simple_Selector) : Simple_members :=
  match s with
  | Parent_Selector m | Selector_Placeholder m | Type_Selector m
  | Selector_Qualifier m | Attribute_Selector m _ _ | Pseudo_Selector m _
  | Wrapped_Selector m _ => m
  end.

Definition name (s : Simple_Selector) : string := name_ (Simple_members_of s).

Definition Simple_has_reference (s : Simple_Selector) : bool :=
  has_reference_ (simple_selector (Simple_members_of s)).
Definition Simple_has_placeholder (s : Simple_Selector) : bool :=
  has_placeholder_ (simple_selector (Simple_members_of s)).

Definition Compound_members (c : Compound_Selector) : Selector_members :=
  match c with mkCompound_Selector m _ _ _ => m end.
Definition Compound_vec (c : Compound_Selector) : Vectorized Simple_Selector :=
  match c with mkCompound_Selector _ v _ _ => v end.
Definition Compound_sources (c : Compound_Selector) : list Complex_Selector :=
  match c with mkCompound_Selector _ _ s _ => s end.
Definition Compound_has_placeholder (c : Compound_Selector) : bool :=
  has_placeholder_ (Compound_members c).
Definition Compound_has_reference (c : Compound_Selector) : bool :=
  has_reference_ (Compound_members c).

Definition Complex_members (c : Complex_Selector) : Selector_members :=
  match c with mkComplex_Selector m _ _ _ _ => m end.
Definition combinator (c : Complex_Selector) : Combinator :=
  match c with mkComplex_Selector _ k _ _ _ => k end.
Definition head (c : Complex_Selector) : option Compound_Selector :=
  match c with mkComplex_Selector _ _ h _ _ => h end.
Definition tail (c : Complex_Selector) : option Complex_Selector :=
  match c with mkComplex_Selector _ _ _ t _ => t end.
Definition Complex_has_placeholder (c : Complex_Selector) : bool :=
  has_placeholder_ (Complex_members c).
Definition Complex_has_reference (c : Complex_Selector) : bool :=
  has_reference_ (Complex_members c).

Definition Selector_List_members (l : Selector_List) : Selector_members :=
  match l with mkSelector_List m _ _ => m end.
Definition Selector_List_vec (l : Selector_List) : Vectorized Complex_Selector :=
  match l with mkSelector_List _ v _ => v end.

(** *** Constructors of the simple selectors *)

Definition Parent_Selector_ctor (pstate : ParserState) : Simple_Selector :=
  Parent_Selector
    (map_simple_selector (set_has_reference true) (Simple_Selector_ctor pstate "&")).

Definition Selector_Placeholder_ctor (pstate : ParserState) (n : string) : Simple_Selector :=
  Selector_Placeholder
    (map_simple_selector (set_has_placeholder true) (Simple_Selector_ctor pstate n)).

Definition Type_Selector_ctor (pstate : ParserState) (n : string) : Simple_Selector :=
  Type_Selector (Simple_Selector_ctor pstate n).

Definition Selector_Qualifier_ctor (pstate : ParserState) (n : string) : Simple_Selector :=
  Selector_Qualifier (Simple_Selector_ctor pstate n).

Definition Attribute_Selector_ctor (pstate : ParserState) (n m : string)
    (v : option string) : Simple_Selector :=
  Attribute_Selector (Simple_Selector_ctor pstate n) m v.

Definition Pseudo_Selector_ctor (pstate : ParserState) (n : string)
    (expr : option string) : Simple_Selector :=
  Pseudo_Selector (Simple_Selector_ctor pstate n) expr.

Definition Wrapped_Selector_ctor (pstate : ParserState) (n : string)
    (sel : option Selector) : Simple_Selector :=
  Wrapped_Selector (Simple_Selector_ctor pstate n) sel.

(** *** Compound selectors *)

(** [Compound_Selector(ParserState pstate, size_t s = 0)] *)
Definition Compound_Selector_ctor (pstate : ParserState) (h0 : Z) : Compound_Selector :=
  mkCompound_Selector (Selector_ctor pstate false false) (Vectorized_ctor h0) [] false.

Definition Compound_map_members (f : Selector_members -> Selector_members)
    (c : Compound_Selector) : Compound_Selector :=
  match c with
  | mkCompound_Selector m v s p => mkCompound_Selector (f m) v s p
  end.

(** [Compound_Selector::adjust_after_pushing(Simple_Selector* s)] *)
Definition Compound_adjust_after_pushing (s : Simple_Selector)
    (c : Compound_Selector) : Compound_Selector :=
  let c1 := if Simple_has_reference s
            then Compound_map_members (set_has_reference true) c else c in
  if Simple_has_placeholder s
  then Compound_map_members (set_has_placeholder true) c1 else c1.

#[export] Instance Compound_Selector_Vectorized :
    VectorizedClass Simple_Selector Compound_Selector := {
  vec := Compound_vec;
  set_vec := fun v c =>
    match c with mkCompound_Selector m _ s p => mkCompound_Selector m v s p end;
  adjust_after_pushing := Compound_adjust_after_pushing
}.

(** [Compound_Selector::contains_placeholder()] *)
Definition Compound_contains_placeholder (c : Compound_Selector) : bool :=
  existsb Simple_has_placeholder (elements_ (Compound_vec c)).

(** *** Complex selectors *)

Definition opt_flag {A : Type} (f : A -> bool) (p : option A) : bool :=
  match p with Some x => f x | None => false end.

(** [Complex_Selector(pstate, c = ANCESTOR_OF, h = 0, t = 0)] *)
Definition Complex_Selector_ctor (pstate : ParserState) (c : Combinator)
    (h : option Compound_Selector) (t : option Complex_Selector) : Complex_Selector :=
  let m0 := Selector_ctor pstate false false in
  let m1 := if opt_flag Compound_has_reference h || opt_flag Complex_has_reference t
            then set_has_reference true m0 else m0 in
  let m2 := if opt_flag Compound_has_placeholder h || opt_flag Complex_has_placeholder t
            then set_has_placeholder true m1 else m1 in
  mkComplex_Selector m2 c h t None.

(** [Complex_Selector::contains_placeholder()] *)
Fixpoint Complex_contains_placeholder (c : Complex_Selector) : bool :=
  match c with
  | mkComplex_Selector _ _ h t _ =>
      if opt_flag Compound_contains_placeholder h then true
      else match t with
           | Some t' => Complex_contains_placeholder t'
           | None => false
           end
  end.

(** [Selector_List] derives from [Vectorized<Complex_Selector*>].  Its
    [adjust_after_pushing] is declared in [ast.hpp] and defined outside the
    sources; it is the parameter [hook]. *)
Definition Selector_List_Vectorized
    (hook : Complex_Selector -> Selector_List -> Selector_List) :
    VectorizedClass Complex_Selector Selector_List :=
  {| vec := Selector_List_vec;
     set_vec := fun v l =>
       match l with mkSelector_List m _ w => mkSelector_List m v w end;
     adjust_after_pushing := hook |}.

(** [Selector_List(ParserState pstate, size_t s = 0)] *)
Definition Selector_List_ctor (pstate : ParserState) (h0 : Z) : Selector_List :=
  mkSelector_List (Selector_ctor pstate false false) (Vectorized_ctor h0) [].

(** *** Specificity *)

(** The weights of [namespace Constants].  [constants.hpp] is not among the
    sources: the functions below take the weights as a parameter. *)
Record Constants : Type := mkConstants {
  Specificity_Universal : Z;
  Specificity_Type : Z;
  Specificity_Class : Z;
  Specificity_Attr : Z;
  Specificity_Pseudo : Z;
  Specificity_ID : Z
}.

(** The weights are [unsigned long] values. *)
Definition ulong_Constants (K : Constants) : Prop :=
  is_size_t (Specificity_Universal K) /\ is_size_t (Specificity_Type K) /\
  is_size_t (Specificity_Class K) /\ is_size_t (Specificity_Attr K) /\
  is_size_t (Specificity_Pseudo K) /\ is_size_t (Specificity_ID K).

(** [s[i]] on a [std::string]: the character, or NUL at the end. *)
Definition char_at (s : string) (i : nat) : ascii :=
  match String.get i s with
  | Some c => c
  | None => "000"%char
  end.

Definition is_pseudo_class_element (name : string) : bool :=
  String.eqb name ":before" || String.eqb name ":after" ||
  String.eqb name ":first-line" || String.eqb name ":first-letter".

(** [Pseudo_Selector::is_pseudo_class()] *)
Definition is_pseudo_class (name_ : string) : bool :=
  (Ascii.eqb (char_at name_ 0) ":" && negb (Ascii.eqb (char_at name_ 1) ":"))
  && negb (is_pseudo_class_element name_).

(** [Pseudo_Selector::is_pseudo_element()] *)
Definition is_pseudo_element (name_ : string) : bool :=
  (Ascii.eqb (char_at name_ 0) ":" && Ascii.eqb (char_at name_ 1) ":")
  || is_pseudo_class_element name_.

(** [Selector::specificity()], the implementation a class inherits when it
    does not override it. *)
Definition Selector_specificity (K : Constants) : Z := Specificity_Universal K.

(** [sum += x] for [int sum] and [unsigned long x]: the sum is formed in
    [unsigned long] and converted back to [int]. *)
Definition int_add_ulong (sum x : Z) : Z := to_int (to_ulong (to_ulong sum + x)).

(** [specificity()] of every selector class.  [specificity_Selector] is the
    virtual call through a [Selector*].  [Complex_Selector] declares
    [specificity() const], which does not override the non-const virtual of
    [Selector]: through a [Selector*] a complex selector answers with the
    inherited implementation, while a call on a [Complex_Selector*] (as in
    [Selector_List::specificity] and in the recursion on [tail()]) reaches
    [specificity_Complex]. *)
Fixpoint specificity_Simple (K : Constants) (s : Simple_Selector) : Z :=
  match s with
  | Parent_Selector _ => 0
  | Selector_Placeholder _ => Selector_specificity K
  | Type_Selector m =>
      if String.eqb (name_ m) "*" then Specificity_Universal K
      else Specificity_Type K
  | Selector_Qualifier m =>
      if Ascii.eqb (char_at (name_ m) 0) "#" then Specificity_ID K
      else if Ascii.eqb (char_at (name_ m) 0) "." then Specificity_Class K
      else Specificity_Type K
  | Attribute_Selector _ _ _ => Specificity_Attr K
  | Pseudo_Selector m _ =>
      if is_pseudo_element (name_ m) then Specificity_Type K
      else Specificity_Pseudo K
  | Wrapped_Selector _ sel =>
      match sel with
      | Some sel' => specificity_Selector K sel'
      | None => 0
      end
  end
with specificity_Selector (K : Constants) (sel : Selector) : Z :=
  match sel with
  | Sel_Schema _ _ _ => Selector_specificity K
  | Sel_Simple s => specificity_Simple K s
  | Sel_Compound c => specificity_Compound K c
  | Sel_Complex _ => Selector_specificity K
  | Sel_List l => specificity_List K l
  end
with specificity_Compound (K : Constants) (c : Compound_Selector) : Z :=
  match c with
  | mkCompound_Selector _ v _ _ =>
      to_ulong
        (fold_left (fun sum s => int_add_ulong sum (specificity_Simple K s))
           (elements_ v) 0)
  end
with specificity_Complex (K : Constants) (c : Complex_Selector) : Z :=
  match c with
  | mkComplex_Selector _ _ h t _ =>
      let sum0 := 0 in
      let sum1 := match h with
                  | Some h' => int_add_ulong sum0 (specificity_Compound K h')
                  | None => sum0
                  end in
      let sum2 := match t with
                  | Some t' => int_add_ulong sum1 (specificity_Complex K t')
                  | None => sum1
                  end in
      to_ulong sum2
  end
with specificity_List (K : Constants) (l : Selector_List) : Z :=
  match l with
  | mkSelector_List _ v _ =>
      fold_left
        (fun sum c =>
           let specificity := specificity_Complex K c in
           if sum <? specificity then specificity else sum)
        (elements_ v) 0
  end.

(** ** Statements and blocks *)

Inductive Statement_Type : Type :=
| ST_NONE | RULESET | MEDIA | DIRECTIVE | SUPPORTS | ATROOT | BUBBLE | KEYFRAMERULE.

(** The members of [class Statement]. *)
Record Statement_members : Type := mkStatement_members {
  st_pstate : ParserState;
  statement_type_ : Statement_Type;
  tabs_ : Z;
  group_end_ : bool
}.

(** [Statement(ParserState pstate, Statement_Type st = NONE, size_t t = 0)] *)
Definition Statement_ctor (pstate : ParserState) (st : Statement_Type) (t : Z) :
    Statement_members :=
  {| st_pstate := pstate; statement_type_ := st; tabs_ := t; group_end_ := false |}.

Definition set_statement_type (st : Statement_Type) (m : Statement_members) :
    Statement_members :=
  {| st_pstate := st_pstate m; statement_type_ := st; tabs_ := tabs_ m;
     group_end_ := group_end_ m |}.

(** The statement classes that override [is_hoistable()], and one constructor
    for every class that inherits [Statement::is_hoistable()] (declarations,
    comments, assignments, ...).  A class derived from [Has_Block] carries
    its [block_]. *)
Inductive Statement : Type :=
| Ruleset (m : Statement_members) (block_ : option Block)
    (selector_ : option Selector) (at_root_ : bool)
| Media_Block (m : Statement_members) (block_ : option Block)
| Supports_Block (m : Statement_members) (block_ : option Block)
| At_Root_Block (m : Statement_members) (block_ : option Block)
| Plain_Statement (m : Statement_members)
with Block : Type :=
| mkBlock (m : Statement_members) (v : Vectorized Statement)
    (is_root_ is_at_root_ has_hoistable_ has_non_hoistable_ : bool).

(** [Ruleset(ParserState pstate, Selector* s = 0, Block* b = 0)] *)
Definition Ruleset_ctor (pstate : ParserState) (s : option Selector)
    (b : option Block) : Statement :=
  Ruleset (set_statement_type RULESET (Statement_ctor pstate ST_NONE 0)) b s false.

(** [virtual bool is_hoistable()] *)
Definition is_hoistable (s : Statement) : bool :=
  match s with
  | Ruleset _ _ _ _ | Media_Block _ _ | Supports_Block _ _ | At_Root_Block _ _ => true
  | Plain_Statement _ => false
  end.

Definition Block_vec (b : Block) : Vectorized Statement :=
  match b with mkBlock _ v _ _ _ _ => v end.
Definition has_hoistable (b : Block) : bool :=
  match b with mkBlock _ _ _ _ h _ => h end.
Definition has_non_hoistable (b : Block) : bool :=
  match b with mkBlock _ _ _ _ _ n => n end.

(** [Block(ParserState pstate, size_t s = 0, bool r = false)] *)
Definition Block_ctor (pstate : ParserState) (h0 : Z) (r : bool) : Block :=
  mkBlock (Statement_ctor pstate ST_NONE 0) (Vectorized_ctor h0) r false false false.

(** [Block::adjust_after_pushing(Statement* s)] *)
Definition Block_adjust_after_pushing (s : Statement) (b : Block) : Block :=
  match b with
  | mkBlock m v r a h n =>
      if is_hoistable s then mkBlock m v r a true n
      else mkBlock m v r a h true
  end.

#[export] Instance Block_Vectorized : VectorizedClass Statement Block := {
  vec := Block_vec;
  set_vec := fun v b =>
    match b with mkBlock m _ r a h n => mkBlock m v r a h n end;
  adjust_after_pushing := Block_adjust_after_pushing
}.

(** [class List : public Value, public Vectorized<Expression*>]; its hook
    clears [is_expanded]. *)
Inductive Sass_Separator : Type := SASS_COMMA | SASS_SPACE.

Record List_ : Type := mkList {
  List_value : Expression;
  List_vec : Vectorized Expression;
  separator_ : Sass_Separator;
  is_arglist_ : bool
}.

Definition List_ctor (pstate : ParserState) (h0 : Z) (sep : Sass_Separator)
    (argl : bool) : List_ :=
  {| List_value := set_concrete_type LIST (Value_ctor pstate false false false NONE);
     List_vec := Vectorized_ctor h0;
     separator_ := sep;
     is_arglist_ := argl |}.

#[export] Instance List_Vectorized : VectorizedClass Expression List_ := {
  vec := List_vec;
  set_vec := fun v l =>
    {| List_value := List_value l; List_vec := v;
       separator_ := separator_ l; is_arglist_ := is_arglist_ l |};
  adjust_after_pushing := fun _ l =>
    {| List_value := set_is_expanded false (List_value l); List_vec := List_vec l;
       separator_ := separator_ l; is_arglist_ := is_arglist_ l |}
}.

(** [Ruleset::is_invisible()].  The loop
    [for (i = 0; i < L && is_invisible; ++i) is_invisible &= e_i->has_placeholder();]
    runs over the elements [e_i] of the list. *)
Fixpoint is_invisible_loop (els : list Complex_Selector) (is_invisible : bool) : bool :=
  match els with
  | [] => is_invisible
  | c :: rest =>
      if is_invisible
      then is_invisible_loop rest (is_invisible && Complex_has_placeholder c)
      else is_invisible
  end.

(** The selector is [static_cast] to [Selector_List*] and dereferenced; the
    result is [None] when it is null or points to another class, where the
    behaviour is undefined. *)
Definition Ruleset_is_invisible (r : Statement) : option bool :=
  match r with
  | Ruleset _ _ (Some (Sel_List sl)) _ =>
      Some (is_invisible_loop (elements_ (Selector_List_vec sl)) true)
  | _ => None
  end.

(** Following the spec: a selector "made entirely of placeholder simples". *)
Definition is_Placeholder (s : Simple_Selector) : bool :=
  match s with Selector_Placeholder _ => true | _ => false end.



(** A compound selector that has a placeholder among its simple selectors. *)
Definition Compound_any_placeholder (c : Compound_Selector) : bool :=
  existsb is_Placeholder (elements_ (Compound_vec c)).

(** Simple and compound selectors as the constructors and [operator<<] build
    them. *)
Inductive Simple_built : Simple_Selector -> Prop :=
| built_Parent pstate : Simple_built (Parent_Selector_ctor pstate)
| built_Placeholder pstate n : Simple_built (Selector_Placeholder_ctor pstate n)
| built_Type pstate n : Simple_built (Type_Selector_ctor pstate n)
| built_Qualifier pstate n : Simple_built (Selector_Qualifier_ctor pstate n)
| built_Attribute pstate n m v : Simple_built (Attribute_Selector_ctor pstate n m v)
| built_Pseudo pstate n e : Simple_built (Pseudo_Selector_ctor pstate n e)
| built_Wrapped pstate n sel : Simple_built (Wrapped_Selector_ctor pstate n sel).

Inductive Compound_built : Compound_Selector -> Prop :=
| built_Compound_ctor pstate h0 :
    Compound_built (Compound_Selector_ctor pstate h0)
| built_Compound_shl c s :
    Compound_built c -> Simple_built s ->
    Compound_built (Vectorized_shl c (Some s)).

(** ** Sets of complex selectors ([SourcesSet]) *)

(** [SourcesSet] is [set<Complex_Selector*, Complex_Selector_Pointer_Compare>].
    The comparison is defined in a file that is not among the sources, so the
    set operations take it as the parameter [lt].  Two selectors are the same
    element of a set when neither is less than the other. *)
Definition SourcesSet : Type := list Complex_Selector.

Definition equivalent (lt : Complex_Selector -> Complex_Selector -> bool)
    (a b : Complex_Selector) : bool :=
  negb (lt a b) && negb (lt b a).

(** What [std::set] demands of its comparison. *)
Record StrictWeakOrder (lt : Complex_Selector -> Complex_Selector -> bool) : Prop := {
  lt_irrefl : forall a, lt a a = false;
  lt_trans : forall a b c, lt a b = true -> lt b c = true -> lt a c = true;
  equivalent_trans : forall a b c,
    equivalent lt a b = true -> equivalent lt b c = true -> equivalent lt a c = true
}.

(** [s.find(x)]: the element equivalent to [x], or [None] for [s.end()]. *)
Definition SourcesSet_find (lt : Complex_Selector -> Complex_Selector -> bool)
    (x : Complex_Selector) (s : SourcesSet) : option Complex_Selector :=
  List.find (fun e => equivalent lt e x) s.

(** [s.insert(x)]: no effect when an equivalent element is present;
    otherwise [x] goes before the first element greater than it. *)
Fixpoint insert_ordered (lt : Complex_Selector -> Complex_Selector -> bool)
    (x : Complex_Selector) (s : SourcesSet) : SourcesSet :=
  match s with
  | [] => [x]
  | e :: s' => if lt x e then x :: e :: s' else e :: insert_ordered lt x s'
  end.

Definition SourcesSet_insert (lt : Complex_Selector -> Complex_Selector -> bool)
    (x : Complex_Selector) (s : SourcesSet) : SourcesSet :=
  match SourcesSet_find lt x s with
  | Some _ => s
  | None => insert_ordered lt x s
  end.

(** [s.insert(first, last)] *)
Definition SourcesSet_insert_range (lt : Complex_Selector -> Complex_Selector -> bool)
    (xs : list Complex_Selector) (s : SourcesSet) : SourcesSet :=
  fold_left (fun s x => SourcesSet_insert lt x s) xs s.

(** [Complex_Selector::sources()]: the sources of the head and of the tail. *)
Fixpoint Complex_sources (lt : Complex_Selector -> Complex_Selector -> bool)
    (c : Complex_Selector) : SourcesSet :=
  match c with
  | mkComplex_Selector _ _ pHead pTail _ =>
      let srcs := [] in
      let srcs := match pHead with
                  | Some h => SourcesSet_insert_range lt (Compound_sources h) srcs
                  | None => srcs
                  end in
      match pTail with
      | Some t => SourcesSet_insert_range lt (Complex_sources lt t) srcs
      | None => srcs
      end
  end.

(** Following the spec: the source set of [a] is subsumed by that of [b]. *)
Definition sources_subsumed (lt : Complex_Selector -> Complex_Selector -> bool)
    (a b : Complex_Selector) : bool :=
  forallb (fun x => existsb (equivalent lt x) (Complex_sources lt b))
    (Complex_sources lt a).

(** Modelled from the spec: [Complex_Selector::operator<], which
    [Complex_Selector_Pointer_Compare] applies, is defined outside the
    sources.  [ast.hpp] documents it at [selectors_equal] ("operator< ... is
    implemented using string comparision") and the spec calls it the
    lexicographic comparison used for sorting: the selectors are compared by
    their text.  The text below writes each simple selector as its
    [ns_name()] and each combinator as its CSS sign. *)
Definition ns_name (s : Simple_Selector) : string :=
  let m := Simple_members_of s in
  (if has_ns_ m then ns_ m +:+ "|" else "") +:+ name_ m.

Definition Compound_text (c : Compound_Selector) : string :=
  String.concat "" (map ns_name (elements_ (Compound_vec c))).

Definition Combinator_text (k : Combinator) : string :=
  match k with
  | ANCESTOR_OF => " "
  | PARENT_OF => " > "
  | PRECEDES => " ~ "
  | ADJACENT_TO => " + "
  | REFERENCE => " / "
  end.

Fixpoint Complex_text (c : Complex_Selector) : string :=
  match c with
  | mkComplex_Selector _ k h t _ =>
      (match h with Some h' => Compound_text h' | None => "" end)
      +:+ match t with
          | Some t' => Combinator_text k +:+ Complex_text t'
          | None => ""
          end
  end.

Definition Complex_lt_text (a b : Complex_Selector) : bool :=
  String.ltb (Complex_text a) (Complex_text b).

(** ** Nodes ([node.cpp]) *)

(** A [Node] as the four factory functions build it: [createCombinator],
    [createSelector], [createCollection] and [createNil].  [got_line_feed] is
    the public flag; a collection owns a deque of nodes. *)
Inductive Node : Type :=
| Node_Combinator (got_line_feed : bool) (mCombinator : Combinator)
| Node_Selector (got_line_feed : bool) (mpSelector : Complex_Selector)
| Node_Collection (got_line_feed : bool) (mpCollection : list Node)
| Node_Nil (got_line_feed : bool).

Definition createCombinator (k : Combinator) : Node := Node_Combinator false k.
Definition createCollection : Node := Node_Collection false [].
Definition createCollection_of (values : list Node) : Node := Node_Collection false values.
Definition createNil : Node := Node_Nil false.

Definition isSelector (n : Node) : bool :=
  match n with Node_Selector _ _ => true | _ => false end.
Definition isCollection (n : Node) : bool :=
  match n with Node_Collection _ _ => true | _ => false end.
Definition collection (n : Node) : option (list Node) :=
  match n with Node_Collection _ l => Some l | _ => None end.

(** The body of the first loop of [Node::naiveTrim]: [sel_set] holds the
    selectors seen, [res] the nodes kept so far. *)
Definition naiveTrim_visit (lt : Complex_Selector -> Complex_Selector -> bool)
    (st : SourcesSet * list Node) (seqs1 : Node) : SourcesSet * list Node :=
  let '(sel_set, res) := st in
  match seqs1 with
  | Node_Selector _ sel =>
      match SourcesSet_find lt sel sel_set with
      | None => (SourcesSet_insert lt sel sel_set, res ++ [seqs1])
      | Some _ => (sel_set, res)
      end
  | _ => (sel_set, res ++ [seqs1])
  end.

(** [Node::naiveTrim(Node& seqses, Context& ctx)].  The first loop walks the
    deque from [end() - 1] down to [begin()]; the second pushes
    [res[size - 1]], ..., [res[0]] onto a new collection.  [None] stands for
    the null collection pointer of a node that is not a collection. *)
Definition naiveTrim (lt : Complex_Selector -> Complex_Selector -> bool)
    (seqses : Node) : option Node :=
  match collection seqses with
  | None => None
  | Some deque =>
      let '(_, res) := fold_left (naiveTrim_visit lt) (rev deque) ([], []) in
      Some (fold_left (fun result n =>
                         match result with
                         | Node_Collection lf l => Node_Collection lf (l ++ [n])
                         | other => other
                         end)
              (rev res) createCollection)
  end.

(** ** Base64 VLQ *)

(** Modelled from the spec: [Base64VLQ::encode] is defined in a file that is
    not among the sources.  The spec (External interfaces, Base64-VLQ): signed
    integers are encoded as groups of 5 data bits, least-significant group
    first; the continuation bit is the 6th bit; the sign is placed in the
    least-significant bit of the first group (the magnitude shifted left by
    one bit, or-ed with the sign); the alphabet is the standard Base64 one. *)
Module Base64VLQ.

Definition CHARACTERS : string :=
  "ABCDEFGHIJKLMNOPQRSTUVWXYZabcdefghijklmnopqrstuvwxyz0123456789+/".

Definition VLQ_BASE_SHIFT : Z := 5.
Definition VLQ_BASE_MASK : Z := 31.
Definition VLQ_CONTINUATION_BIT : Z := 32.

Definition base64_encode (digit : Z) : ascii :=
  char_at CHARACTERS (Z.to_nat digit).

Fixpoint index_of (c : ascii) (s : string) : option Z :=
  match s with
  | EmptyString => None
  | String a s' => if Ascii.eqb a c then Some 0 else Z.succ <$> index_of c s'
  end.

Definition base64_decode (c : ascii) : option Z := index_of c CHARACTERS.

Definition to_vlq_signed (number : Z) : Z :=
  if number <? 0 then Z.lor (Z.shiftl (- number) 1) 1 else Z.shiftl number 1.

Definition from_vlq_signed (vlq : Z) : Z :=
  if Z.testbit vlq 0 then - Z.shiftr vlq 1 else Z.shiftr vlq 1.

(** The groups of [vlq], least significant first; [fuel] bounds their number. *)
Fixpoint encode_groups (fuel : nat) (vlq : Z) : string :=
  match fuel with
  | O => ""
  | S fuel' =>
      let digit := Z.land vlq VLQ_BASE_MASK in
      let vlq' := Z.shiftr vlq VLQ_BASE_SHIFT in
      if 0 <? vlq'
      then String (base64_encode (Z.lor digit VLQ_CONTINUATION_BIT))
             (encode_groups fuel' vlq')
      else String (base64_encode digit) ""
  end.

(** A value below [2^(n+1)] has at most [n + 1] groups. *)
Definition encode (number : Z) : string :=
  let vlq := to_vlq_signed number in
  encode_groups (S (Z.to_nat (Z.log2 vlq))) vlq.

End Base64VLQ.

(** ** Source maps ([source_map.cpp]) *)

Record Mapping : Type := mkMapping {
  original_position : Position;
  generated_position : Position
}.

Record SourceMap : Type := mkSourceMap {
  source_index : list Z;
  mappings : list Mapping;
  current_position : Position;
  smap_file : string
}.

Record OutputBuffer : Type := mkOutputBuffer {
  buffer : string;
  smap : SourceMap
}.

(** [SourceMap::SourceMap()] *)
Definition SourceMap_ctor : SourceMap :=
  {| source_index := []; mappings := [];
     current_position := mkPosition 0 0 0; smap_file := "stdin" |}.

(** [SourceMap::add_open_mapping(AST_Node* node)]; the node is given by its
    [pstate()]. *)
Definition add_open_mapping (pstate : ParserState) (self : SourceMap) : SourceMap :=
  {| source_index := source_index self;
     mappings := mappings self ++ [mkMapping (position pstate) (current_position self)];
     current_position := current_position self;
     smap_file := smap_file self |}.

(** *** [SourceMap::serialize_mappings] *)

Record serialize_state : Type := mkSerialize_state {
  result : string;
  previous_generated_line : Z;
  previous_generated_column : Z;
  previous_original_line : Z;
  previous_original_column : Z;
  previous_original_file : Z
}.

(** [std::string(n, c)] *)
Fixpoint string_of_char (n : nat) (c : ascii) : string :=
  match n with
  | O => ""
  | S n' => String c (string_of_char n' c)
  end.

(** [static_cast<int>(a) - static_cast<int>(b)] for [size_t] operands.  The
    difference of two [int]s that does not fit an [int] is undefined; it is
    given the two's complement value here. *)
Definition int_difference (a b : Z) : Z := to_int (to_int a - to_int b).

(** The body of the loop, for the mapping at index [i]. *)
Definition serialize_mapping (i : nat) (m : Mapping) (st : serialize_state) :
    serialize_state :=
  let generated_line := line (generated_position m) in
  let generated_column := column (generated_position m) in
  let original_line := line (original_position m) in
  let original_column := column (original_position m) in
  let original_file := file (original_position m) in
  let st1 :=
    if negb (generated_line =? previous_generated_line st) then
      if previous_generated_line st <? generated_line then
        {| result := result st +:+
             string_of_char (Z.to_nat (generated_line - previous_generated_line st)) ";";
           previous_generated_line := generated_line;
           previous_generated_column := 0;
           previous_original_line := previous_original_line st;
           previous_original_column := previous_original_column st;
           previous_original_file := previous_original_file st |}
      else
        {| result := result st;
           previous_generated_line := previous_generated_line st;
           previous_generated_column := 0;
           previous_original_line := previous_original_line st;
           previous_original_column := previous_original_column st;
           previous_original_file := previous_original_file st |}
    else if (0 <? i)%nat then
      {| result := result st +:+ ",";
         previous_generated_line := previous_generated_line st;
         previous_generated_column := previous_generated_column st;
         previous_original_line := previous_original_line st;
         previous_original_column := previous_original_column st;
         previous_original_file := previous_original_file st |}
    else st in
  {| result :=
       result st1
       +:+ Base64VLQ.encode (int_difference generated_column (previous_generated_column st1))
       +:+ Base64VLQ.encode (int_difference original_file (previous_original_file st1))
       +:+ Base64VLQ.encode (int_difference original_line (previous_original_line st1))
       +:+ Base64VLQ.encode (int_difference original_column (previous_original_column st1));
     previous_generated_line := previous_generated_line st1;
     previous_generated_column := generated_column;
     previous_original_line := original_line;
     previous_original_column := original_column;
     previous_original_file := original_file |}.

Fixpoint serialize_loop (i : nat) (ms : list Mapping) (st : serialize_state) :
    serialize_state :=
  match ms with
  | [] => st
  | m :: ms' => serialize_loop (S i) ms' (serialize_mapping i m st)
  end.

Definition serialize_init : serialize_state :=
  {| result := "";
     previous_generated_line := 0;
     previous_generated_column := 0;
     previous_original_line := 0;
     previous_original_column := 0;
     previous_original_file := 0 |}.

Definition serialize_mappings (self : SourceMap) : string :=
  result (serialize_loop 0 (mappings self) serialize_init).

(** *** Reading a mappings string back

    Following the spec: the stream groups entries per generated line separated
    by [;] and within a line by [,]; an entry is four Base64-VLQ signed deltas
    (generated column, source index, original line, original column); the
    previous generated column restarts at 0 on every new line and the other
    previous counters persist.  The reader below accepts exactly that format
    and yields, for every entry, the generated (line, column), the source
    index and the original (line, column). *)

Definition decoded_mapping : Type := (Z * Z) * Z * (Z * Z).

Definition decoded_of_Mapping (m : Mapping) : decoded_mapping :=
  ((line (generated_position m), column (generated_position m)),
   file (original_position m),
   (line (original_position m), column (original_position m))).

Inductive decode_mode : Type :=
| LineStart   (* nothing read on this line yet *)
| InEntry     (* an entry has begun, or must begin after a comma *)
| EntryDone.  (* the four fields of an entry have been read *)

Record decode_state : Type := mkDecode_state {
  d_mode : decode_mode;
  d_value : Z;
  d_shift : Z;
  d_fields : list Z;
  d_generated_line : Z;
  d_generated_column : Z;
  d_source_index : Z;
  d_original_line : Z;
  d_original_column : Z;
  d_entries : list decoded_mapping
}.

Definition decode_init : decode_state :=
  {| d_mode := LineStart; d_value := 0; d_shift := 0; d_fields := [];
     d_generated_line := 0; d_generated_column := 0; d_source_index := 0;
     d_original_line := 0; d_original_column := 0; d_entries := [] |}.

(** A complete VLQ value [v] ends a field; the fourth field ends the entry. *)
Definition decode_field (v : Z) (st : decode_state) : decode_state :=
  match d_fields st ++ [v] with
  | [dc; df; dl; doc] =>
      let gc := d_generated_column st + dc in
      let sf := d_source_index st + df in
      let ol := d_original_line st + dl in
      let oc := d_original_column st + doc in
      {| d_mode := EntryDone; d_value := 0; d_shift := 0; d_fields := [];
         d_generated_line := d_generated_line st;
         d_generated_column := gc; d_source_index := sf;
         d_original_line := ol; d_original_column := oc;
         d_entries := d_entries st ++ [((d_generated_line st, gc), sf, (ol, oc))] |}
  | fields =>
      {| d_mode := InEntry; d_value := 0; d_shift := 0; d_fields := fields;
         d_generated_line := d_generated_line st;
         d_generated_column := d_generated_column st;
         d_source_index := d_source_index st;
         d_original_line := d_original_line st;
         d_original_column := d_original_column st;
         d_entries := d_entries st |}
  end.

Definition decode_digit (digit : Z) (st : decode_state) : decode_state :=
  let value :=
    d_value st + Z.shiftl (Z.land digit Base64VLQ.VLQ_BASE_MASK) (d_shift st) in
  if Z.testbit digit Base64VLQ.VLQ_BASE_SHIFT then
    {| d_mode := InEntry; d_value := value;
       d_shift := d_shift st + Base64VLQ.VLQ_BASE_SHIFT;
       d_fields := d_fields st;
       d_generated_line := d_generated_line st;
       d_generated_column := d_generated_column st;
       d_source_index := d_source_index st;
       d_original_line := d_original_line st;
       d_original_column := d_original_column st;
       d_entries := d_entries st |}
  else decode_field (Base64VLQ.from_vlq_signed value) st.

Definition decode_char (c : ascii) (st : decode_state) : option decode_state :=
  if Ascii.eqb c ";" then
    match d_mode st with
    | InEntry => None
    | _ =>
        Some {| d_mode := LineStart; d_value := 0; d_shift := 0; d_fields := [];
                d_generated_line := d_generated_line st + 1;
                d_generated_column := 0;
                d_source_index := d_source_index st;
                d_original_line := d_original_line st;
                d_original_column := d_original_column st;
                d_entries := d_entries st |}
    end
  else if Ascii.eqb c "," then
    match d_mode st with
    | EntryDone =>
        Some {| d_mode := InEntry; d_value := 0; d_shift := 0; d_fields := [];
                d_generated_line := d_generated_line st;
                d_generated_column := d_generated_column st;
                d_source_index := d_source_index st;
                d_original_line := d_original_line st;
                d_original_column := d_original_column st;
                d_entries := d_entries st |}
    | _ => None
    end
  else
    match Base64VLQ.base64_decode c, d_mode st with
    | Some digit, (LineStart | InEntry) => Some (decode_digit digit st)
    | _, _ => None
    end.

Fixpoint decode_chars (s : string) (st : decode_state) : option decode_state :=
  match s with
  | EmptyString => Some st
  | String c s' =>
      match decode_char c st with
      | Some st' => decode_chars s' st'
      | None => None
      end
  end.

Definition decode_mappings (s : string) : option (list decoded_mapping) :=
  match decode_chars s decode_init with
  | Some st =>
      match d_mode st with
      | InEntry => None
      | _ => Some (d_entries st)
      end
  | None => None
  end.

(** *** [SourceMap::prepend] *)

Inductive outcome : Type :=
| Returned
| Thrown (what : string).

(** [Offset(const Position&)] *)
Definition Offset_of_Position (p : Position) : Offset :=
  mkOffset (line p) (column p).

(** Modelled from the spec: [Offset(const string&)] is defined in a file that
    is not among the sources.  The offset "computed from an emitted buffer"
    counts the line feeds of the text and the characters after the last of
    them. *)
Fixpoint Offset_inc (text : string) (o : Offset) : Offset :=
  match text with
  | EmptyString => o
  | String c text' =>
      if Ascii.eqb c "010"
      then Offset_inc text' (mkOffset (to_size_t (off_line o + 1)) 0)
      else Offset_inc text' (mkOffset (off_line o) (to_size_t (off_column o + 1)))
  end.

Definition Offset_of_string (text : string) : Offset :=
  Offset_inc text (mkOffset 0 0).

(** Modelled from the spec: the macro [VECTOR_UNSHIFT] is defined in a header
    that is not among the sources; it "unshifts" the second vector, that is,
    inserts its elements at the front of the first. *)
Definition VECTOR_UNSHIFT {A : Type} (vec ins : list A) : list A := ins ++ vec.

(** The first loop of [prepend(const OutputBuffer&)]: the message of the first
    exception thrown, if any. *)
Fixpoint prepend_check (size : Offset) (ms : list Mapping) : option string :=
  match ms with
  | [] => None
  | mapping :: ms' =>
      if off_line size <? line (generated_position mapping)
      then Some "prepend sourcemap has illegal line"
      else if (line (generated_position mapping) =? off_line size)
              && (off_column size <? column (generated_position mapping))
      then Some "prepend sourcemap has illegal column"
      else prepend_check size ms'
  end.

(** The body of the loop of [prepend(const Offset&)]. *)
Definition prepend_shift (offset : Offset) (mapping : Mapping) : Mapping :=
  let g := generated_position mapping in
  let column1 :=
    if line g =? 0 then to_size_t (column g + off_column offset) else column g in
  {| original_position := original_position mapping;
     generated_position := mkPosition (file g) (to_size_t (line g + off_line offset)) column1 |}.

(** [SourceMap::prepend(const Offset& offset)] *)
Definition prepend_Offset (offset : Offset) (self : SourceMap) : SourceMap :=
  let mappings1 :=
    if negb (off_line offset =? 0) || negb (off_column offset =? 0)
    then map (prepend_shift offset) (mappings self)
    else mappings self in
  let p := current_position self in
  let column1 :=
    if line p =? 0 then to_size_t (column p + off_column offset) else column p in
  {| source_index := source_index self;
     mappings := mappings1;
     current_position := mkPosition (file p) (to_size_t (line p + off_line offset)) column1;
     smap_file := smap_file self |}.

(** [SourceMap::prepend(const OutputBuffer& out)]: the outcome and the state
    of the source map afterwards.  [Offset_of] is [Offset(const string&)]. *)
Definition prepend_OutputBuffer (Offset_of : string -> Offset) (out : OutputBuffer)
    (self : SourceMap) : outcome * SourceMap :=
  let size := Offset_of_Position (current_position (smap out)) in
  match prepend_check size (mappings (smap out)) with
  | Some what => (Thrown what, self)
  | None =>
      let self1 := prepend_Offset (Offset_of (buffer out)) self in
      (Returned,
       {| source_index := source_index self1;
          mappings := VECTOR_UNSHIFT (mappings self1) (mappings (smap out));
          current_position := current_position self1;
          smap_file := smap_file self1 |})
  end.

(** ** More of [ast.hpp] *)

(** *** [Vectorized::operator+=] and blocks *)

(** [Vectorized& operator+=(Vectorized* v)]: the elements of [v], from the
    first to the last, go through [operator<<].  The vector [v] holds the
    elements that [operator<<] has stored, none of them null. *)
Definition Vectorized_add_assign {T Self : Type} `{VectorizedClass T Self}
    (self : Self) (v : Vectorized T) : Self :=
  fold_left (fun self element => Vectorized_shl self (Some element))
    (elements_ v) self.

(** Blocks as the constructor, [operator<<] and [operator+=] build them. *)
Inductive Block_built : Block -> Prop :=
| built_Block_ctor pstate h0 r : Block_built (Block_ctor pstate h0 r)
| built_Block_shl b s : Block_built b -> Block_built (Vectorized_shl b s)
| built_Block_add_assign b v :
    Block_built b -> Block_built (Vectorized_add_assign b v).

(** *** [is_invisible()] of the statements *)

(** The virtual [is_invisible()] of a statement: [Ruleset] and [Media_Block]
    override [Statement::is_invisible()], which returns false.  The loop of
    [Media_Block::is_invisible()],
    [for (i = 0; i < L && is_invisible; i++) is_invisible &= e_i->is_invisible();],
    runs over the statements [e_i] of [block()]; [None] where the behaviour
    is undefined (a null [block()], or a ruleset whose selector is not a
    selector list). *)
Fixpoint Statement_is_invisible (s : Statement) : option bool :=
  match s with
  | Ruleset _ _ _ _ => Ruleset_is_invisible s
  | Media_Block _ (Some (mkBlock _ v _ _ _ _)) =>
      (fix loop (els : list Statement) (is_invisible : bool) {struct els} :
           option bool :=
         match els with
         | [] => Some is_invisible
         | e :: rest =>
             if is_invisible then
               match Statement_is_invisible e with
               | Some b => loop rest (is_invisible && b)
               | None => None
               end
             else Some is_invisible
         end) (elements_ v) true
  | Media_Block _ None => None
  | Supports_Block _ _ | At_Root_Block _ _ | Plain_Statement _ => Some false
  end.

(** *** Hashing *)

(** [hash_combine(seed, val)]:
    [seed ^= std::hash<T>()(val) + 0x9e3779b9 + (seed<<6) + (seed>>2);] in
    [size_t] arithmetic.  [hashed] is [std::hash<T>()(val)]. *)
Definition hash_combine (seed hashed : Z) : Z :=
  Z.lxor seed
    (to_size_t (hashed + 2654435769 + to_size_t (Z.shiftl seed 6) + Z.shiftr seed 2)).

(** [class String_Schema : public String, public Vectorized<Expression*>].
    The class declares a [hash_] of its own, beside the [hash_] of its
    [Vectorized] base.  [E] is what the elements point to, with their virtual
    [hash()]. *)
Record String_Schema (E : Type) : Type := mkString_Schema {
  Schema_value : Expression;
  Schema_vec : Vectorized E;
  has_interpolants_ : bool;
  Schema_hash_ : Z
}.
Arguments mkString_Schema {E} _ _ _ _.
Arguments Schema_value {E} _.
Arguments Schema_vec {E} _.
Arguments has_interpolants_ {E} _.
Arguments Schema_hash_ {E} _.

(** [String_Schema(ParserState pstate, size_t size = 0, bool has_interpolants
    = false)]: [String(pstate)] sets the concrete type, and the member
    initialiser [hash_(0)] the hash of the class. *)
Definition String_Schema_ctor {E : Type} (pstate : ParserState) (h0 : Z)
    (has_interpolants : bool) : String_Schema E :=
  {| Schema_value :=
       set_concrete_type STRING (Value_ctor pstate false false false NONE);
     Schema_vec := Vectorized_ctor h0;
     has_interpolants_ := has_interpolants;
     Schema_hash_ := 0 |}.

(** The class has no [adjust_after_pushing] of its own. *)
#[export] Instance String_Schema_Vectorized (E : Type) :
    VectorizedClass E (String_Schema E) := {
  vec := Schema_vec;
  set_vec := fun v s =>
    {| Schema_value := Schema_value s; Schema_vec := v;
       has_interpolants_ := has_interpolants_ s; Schema_hash_ := Schema_hash_ s |};
  adjust_after_pushing := fun _ s => s
}.

(** [String_Schema::hash()]: the value returned and the object afterwards.
    [std_hash] is [std::hash<size_t>], which the standard library defines;
    [hash string] is what the virtual [hash()] of an element returns. *)
Definition String_Schema_hash {E : Type} `{HashMethod E} (std_hash : Z -> Z)
    (self : String_Schema E) : Z * String_Schema E :=
  if Schema_hash_ self =? 0 then
    let hash_1 :=
      fold_left (fun hash_0 string => hash_combine hash_0 (std_hash (hash string)))
        (elements_ (Schema_vec self)) (Schema_hash_ self) in
    (hash_1,
     {| Schema_value := Schema_value self; Schema_vec := Schema_vec self;
        has_interpolants_ := has_interpolants_ self; Schema_hash_ := hash_1 |})
  else (Schema_hash_ self, self).

(** *** Parameters *)

(** [class Parameter : public AST_Node]; the name [Parameter] is taken. *)
Record Parameter_ : Type := mkParameter {
  Parameter_pstate : ParserState;
  Parameter_name : string;
  default_value_ : option Expression;
  is_rest_parameter_ : bool
}.

(** Modelled from the spec: [error(msg, pstate)] is defined outside the
    sources.  The spec counts its uses in these classes among the errors
    raised while arguments and parameters are constructed ("default rest
    parameter, required-after-optional"): the call throws and does not
    return.  It is the outcome [Thrown msg]. *)
Definition error {A : Type} (msg : string) (state : A) : outcome * A :=
  (Thrown msg, state).

(** [Parameter(ParserState pstate, string n, Expression* def = 0, bool rest =
    false)] *)
Definition Parameter_ctor (pstate : ParserState) (n : string)
    (def : option Expression) (rest : bool) : outcome * Parameter_ :=
  let self := {| Parameter_pstate := pstate; Parameter_name := n;
                 default_value_ := def; is_rest_parameter_ := rest |} in
  match def with
  | Some _ =>
      if rest
      then error "variable-length parameter may not have a default value" self
      else (Returned, self)
  | None => (Returned, self)
  end.

(** [class Parameters : public AST_Node, public Vectorized<Parameter*>] *)
Record Parameters : Type := mkParameters {
  Parameters_pstate : ParserState;
  Parameters_vec : Vectorized Parameter_;
  has_optional_parameters_ : bool;
  has_rest_parameter_ : bool
}.

(** [Parameters(ParserState pstate)] *)
Definition Parameters_ctor (pstate : ParserState) (h0 : Z) : Parameters :=
  {| Parameters_pstate := pstate; Parameters_vec := Vectorized_ctor h0;
     has_optional_parameters_ := false; has_rest_parameter_ := false |}.

Definition set_has_optional_parameters (b : bool) (self : Parameters) : Parameters :=
  {| Parameters_pstate := Parameters_pstate self;
     Parameters_vec := Parameters_vec self;
     has_optional_parameters_ := b;
     has_rest_parameter_ := has_rest_parameter_ self |}.

Definition set_has_rest_parameter (b : bool) (self : Parameters) : Parameters :=
  {| Parameters_pstate := Parameters_pstate self;
     Parameters_vec := Parameters_vec self;
     has_optional_parameters_ := has_optional_parameters_ self;
     has_rest_parameter_ := b |}.

(** [Parameters::adjust_after_pushing(Parameter* p)]: the outcome and the
    object at that point. *)
Definition Parameters_adjust_after_pushing (p : Parameter_) (self : Parameters) :
    outcome * Parameters :=
  match default_value_ p with
  | Some _ =>
      if has_rest_parameter_ self
      then error "optional parameters may not be combined with variable-length parameters" self
      else (Returned, set_has_optional_parameters true self)
  | None =>
      if is_rest_parameter_ p then
        if has_rest_parameter_ self
        then error "functions and mixins cannot have more than one variable-length parameter" self
        else (Returned, set_has_rest_parameter true self)
      else
        if has_rest_parameter_ self
        then error "required parameters must precede variable-length parameters" self
        else if has_optional_parameters_ self
        then error "required parameters must precede optional parameters" self
        else (Returned, self)
  end.

(** [operator<<] of the [Vectorized] base, with the hook of [Parameters]. *)
Definition Parameters_shl (self : Parameters) (element : option Parameter_) :
    outcome * Parameters :=
  match element with
  | None => (Returned, self)
  | Some p =>
      let with_vec v :=
        {| Parameters_pstate := Parameters_pstate self;
           Parameters_vec := v;
           has_optional_parameters_ := has_optional_parameters_ self;
           has_rest_parameter_ := has_rest_parameter_ self |} in
      Parameters_adjust_after_pushing p
        (with_vec (push_back p (reset_hash (Parameters_vec self))))
  end.

(** [params << p1 << p2 << ...]: an exception ends the chain. *)
Fixpoint Parameters_shl_all (self : Parameters) (elements : list (option Parameter_)) :
    outcome * Parameters :=
  match elements with
  | [] => (Returned, self)
  | element :: rest =>
      match Parameters_shl self element with
      | (Returned, self') => Parameters_shl_all self' rest
      | thrown => thrown
      end
  end.

(** *** Compound selectors reached through pointers *)

(** [Complex_Selector] holds its head as a pointer, [Compound_Selector*
    head_], and its constructor stores the pointer it is given: the code that
    made the compound selector still reaches it, and what it pushes onto it
    afterwards is seen through the complex selector.  Where this matters the
    compound selectors are kept in a store, the list of the compound
    selectors allocated so far, and a pointer to one is its position in the
    list. *)

(** [new (mem) Compound_Selector(pstate, s)]: the pointer and the store
    afterwards. *)
Definition Compound_Selector_new (pstate : ParserState) (h0 : Z)
    (st : list Compound_Selector) : nat * list Compound_Selector :=
  (length st, st ++ [Compound_Selector_ctor pstate h0]).

(** [*p << s]: [operator<<] on the compound selector that [p] points to;
    [None] where [p] points to no compound selector. *)
Definition Compound_store_shl (p : nat) (s : option Simple_Selector)
    (st : list Compound_Selector) : option (list Compound_Selector) :=
  match st !! p with
  | Some c => Some (<[p := Vectorized_shl c s]> st)
  | None => None
  end.

(** The members of a complex selector, with [head_] the pointer it is.  The
    class does not derive from [Vectorized], and no constructor changes a
    member of a complex selector that exists: the tail, another complex
    selector, is written in place. *)
Inductive Complex_Selector_object : Type :=
| mkComplex_Selector_object (m : Selector_members) (combinator_ : Combinator)
    (head_ : option nat) (tail_ : option Complex_Selector_object)
    (reference_ : option string).

Definition object_members (o : Complex_Selector_object) : Selector_members :=
  match o with mkComplex_Selector_object m _ _ _ _ => m end.
Definition object_has_placeholder (o : Complex_Selector_object) : bool :=
  has_placeholder_ (object_members o).
Definition object_has_reference (o : Complex_Selector_object) : bool :=
  has_reference_ (object_members o).

(** What a pointer to a compound selector points to: [Some None] for the
    null pointer, [None] for a pointer to no compound selector. *)
Definition Compound_at (st : list Compound_Selector) (h : option nat) :
    option (option Compound_Selector) :=
  match h with
  | Some p =>
      match st !! p with
      | Some c => Some (Some c)
      | None => None
      end
  | None => Some None
  end.

(** [new (mem) Complex_Selector(pstate, c, h, t)] with the compound selectors
    of [st]: the constructor reads the flags that [*h] and [*t] have at this
    moment and keeps the pointers. *)
Definition Complex_Selector_new (pstate : ParserState) (c : Combinator)
    (h : option nat) (t : option Complex_Selector_object)
    (st : list Compound_Selector) : option Complex_Selector_object :=
  match Compound_at st h with
  | Some hc =>
      let m0 := Selector_ctor pstate false false in
      let m1 := if opt_flag Compound_has_reference hc
                   || opt_flag object_has_reference t
                then set_has_reference true m0 else m0 in
      let m2 := if opt_flag Compound_has_placeholder hc
                   || opt_flag object_has_placeholder t
                then set_has_placeholder true m1 else m1 in
      Some (mkComplex_Selector_object m2 c h t None)
  | None => None
  end.

(** The complex selector as the code finds it when it follows the pointers,
    the compound selectors being those of [st]. *)
Fixpoint Complex_Selector_in (st : list Compound_Selector)
    (o : Complex_Selector_object) : option Complex_Selector :=
  match o with
  | mkComplex_Selector_object m k h t r =>
      match Compound_at st h with
      | Some hc =>
          match t with
          | Some t' =>
              match Complex_Selector_in st t' with
              | Some tc => Some (mkComplex_Selector m k hc (Some tc) r)
              | None => None
              end
          | None => Some (mkComplex_Selector m k hc None r)
          end
      | None => None
      end
  end.

(** What the constructors and [operator<<] do to the store, one call at a
    time, with simple selectors that the constructors have made. *)
Inductive Compound_store_step :
    list Compound_Selector -> list Compound_Selector -> Prop :=
| step_Compound_Selector_new pstate h0 st :
    Compound_store_step st (Compound_Selector_new pstate h0 st).2
| step_Compound_store_shl p s st st' :
    (forall s', s = Some s' -> Simple_built s') ->
    Compound_store_shl p s st = Some st' ->
    Compound_store_step st st'.

Inductive Compound_store_made : list Compound_Selector -> Prop :=
| made_empty : Compound_store_made []
| made_step st st' :
    Compound_store_made st -> Compound_store_step st st' ->
    Compound_store_made st'.

(** The complex selectors that [new Complex_Selector] makes over such a
    store, from a head in the store and a tail made the same way, with the
    store as further calls leave it. *)
Inductive Complex_Selector_made :
    list Compound_Selector -> Complex_Selector_object -> Prop :=
| made_Complex_Selector_new st pstate k h t o :
    Compound_store_made st ->
    (forall t', t = Some t' -> Complex_Selector_made st t') ->
    Complex_Selector_new pstate k h t st = Some o ->
    Complex_Selector_made st o
| made_Complex_Selector_later st st' o :
    Complex_Selector_made st o -> Compound_store_step st st' ->
    Complex_Selector_made st' o.

(** *** Clearing the sources of a selector *)

(** [Compound_Selector::clearSources()] *)
Definition Compound_clearSources (c : Compound_Selector) : Compound_Selector :=
  match c with
  | mkCompound_Selector m v _ p => mkCompound_Selector m v [] p
  end.

(** [Complex_Selector::clearSources()]: the loop follows [tail()] and clears
    the sources of every head it meets. *)
Fixpoint Complex_clearSources (c : Complex_Selector) : Complex_Selector :=
  match c with
  | mkComplex_Selector m k pHead pTail r =>
      mkComplex_Selector m k
        (match pHead with
         | Some h => Some (Compound_clearSources h)
         | None => None
         end)
        (match pTail with
         | Some t => Some (Complex_clearSources t)
         | None => None
         end)
        r
  end.

(** ** More of [node.cpp] *)

(** [selectors_equal<Complex_Selector>] ([ast.hpp]).  [operator<] and
    [operator==] of [Complex_Selector] are defined outside the sources; they
    are the parameters [lt] and [eq]. *)
Definition selectors_equal (lt eq : Complex_Selector -> Complex_Selector -> bool)
    (one two : Complex_Selector) (simpleSelectorOrderDependent : bool) : bool :=
  if simpleSelectorOrderDependent
  then negb (lt one two) && negb (lt two one)
  else eq one two.

(** [==] on the enumeration [Complex_Selector::Combinator]. *)
Definition Combinator_eqb (a b : Combinator) : bool :=
  match a, b with
  | ANCESTOR_OF, ANCESTOR_OF | PARENT_OF, PARENT_OF | PRECEDES, PRECEDES
  | ADJACENT_TO, ADJACENT_TO | REFERENCE, REFERENCE => true
  | _, _ => false
  end.

(** [bool nodesEqual(const Node& lhs, const Node& rhs, bool
    simpleSelectorOrderDependent)].  The type of a node is its constructor;
    the final [throw] is out of reach, a node having one of the four types. *)
Fixpoint nodesEqual (lt eq : Complex_Selector -> Complex_Selector -> bool)
    (lhs rhs : Node) (simpleSelectorOrderDependent : bool) {struct lhs} : bool :=
  match lhs, rhs with
  | Node_Combinator _ k1, Node_Combinator _ k2 => Combinator_eqb k1 k2
  | Node_Nil _, Node_Nil _ => true
  | Node_Selector _ s1, Node_Selector _ s2 =>
      selectors_equal lt eq s1 s2 simpleSelectorOrderDependent
  | Node_Collection _ l1, Node_Collection _ l2 =>
      if negb (length l1 =? length l2)%nat then false
      else
        (fix loop (lhsIter rhsIter : list Node) {struct lhsIter} : bool :=
           match lhsIter, rhsIter with
           | n1 :: lhsIter', n2 :: rhsIter' =>
               if negb (nodesEqual lt eq n1 n2 simpleSelectorOrderDependent)
               then false
               else loop lhsIter' rhsIter'
           | _, _ => true
           end) l1 l2
  | _, _ => false
  end.


(** The loop of [Node::contains]. *)
Fixpoint contains_loop (lt eq : Complex_Selector -> Complex_Selector -> bool)
    (deque : list Node) (potentialChild : Node)
    (simpleSelectorOrderDependent : bool) : bool :=
  match deque with
  | [] => false
  | toTest :: rest =>
      if nodesEqual lt eq toTest potentialChild simpleSelectorOrderDependent
      then true
      else contains_loop lt eq rest potentialChild simpleSelectorOrderDependent
  end.

(** [bool Node::contains(const Node& potentialChild, bool
    simpleSelectorOrderDependent) const]; [None] when the node is not a
    collection, whose null [mpCollection] the loop dereferences. *)
Definition contains (lt eq : Complex_Selector -> Complex_Selector -> bool)
    (self potentialChild : Node) (simpleSelectorOrderDependent : bool) : option bool :=
  match collection self with
  | None => None
  | Some deque =>
      Some (contains_loop lt eq deque potentialChild simpleSelectorOrderDependent)
  end.

(** [void Node::plus(Node& rhs)]: the outcome and the node afterwards.  [rhs]
    is another deque than the node's own. *)
Definition plus (self rhs : Node) : outcome * Node :=
  if negb (isCollection self) || negb (isCollection rhs)
  then (Thrown "Both the current node and rhs must be collections.", self)
  else
    match self, rhs with
    | Node_Collection lf l, Node_Collection _ r => (Returned, Node_Collection lf (l ++ r))
    | _, _ => (Returned, self)
    end.

(** ** More of [source_map.cpp] *)

(** The test of the loop of [remap]: the generated position of the mapping is
    the position of [pstate] (a [ParserState] is a [Position]). *)
Definition remap_matches (pstate : ParserState) (mapping : Mapping) : bool :=
  (file (generated_position mapping) =? file (position pstate))
  && (line (generated_position mapping) =? line (position pstate))
  && (column (generated_position mapping) =? column (position pstate)).

(** [Position(-1, -1, -1)]: the three arguments are converted to [size_t]. *)
Definition Position_minus_one : Position :=
  mkPosition (to_size_t (-1)) (to_size_t (-1)) (to_size_t (-1)).

(** The loop of [remap] over [mappings[i]], [i = 0, 1, ...], and the [return]
    after it. *)
Fixpoint remap_loop (ms : list Mapping) (pstate : ParserState) : ParserState :=
  match ms with
  | [] =>
      mkParserState (path pstate) (src pstate) Position_minus_one (mkOffset 0 0)
  | mapping :: ms' =>
      if remap_matches pstate mapping
      then mkParserState (path pstate) (src pstate) (original_position mapping)
             (offset pstate)
      else remap_loop ms' pstate
  end.

(** [ParserState SourceMap::remap(const ParserState& pstate)] *)
Definition remap (self : SourceMap) (pstate : ParserState) : ParserState :=
  remap_loop (mappings self) pstate.

(** ** Definitions of the specification, and objects to evaluate the code on *)

(** *** Expressions and maps *)

Definition no_pstate : ParserState :=
  mkParserState "" "" (mkPosition 0 0 0) (mkOffset 0 0).

(** Two expressions of classes that inherit [Expression::hash()]: they differ
    (one is delayed) and hash alike. *)
Definition key_plain : Expression := Expression_ctor no_pstate false false false NONE.
Definition key_delayed : Expression := Expression_ctor no_pstate true false false NONE.
Definition value_one : Expression := Expression_ctor no_pstate false false false NUMBER.
Definition value_two : Expression := Expression_ctor no_pstate false false false STRING.

Definition map_with_one_key : Hashed.Hashed Expression :=
  Hashed.shl (Hashed.Hashed_ctor 0) (key_plain, value_one).

(** *** Specificity *)

(** Following the spec (Selectors, "Specificity rules"): the table of the
    simple selectors.  [placeholder] and [universal] are the entries for a
    placeholder and for the universal type selector; the spec gives them as
    the class weight and 0.  A name "starts with" a character when the
    one-character string is a prefix of it.  A wrapped selector inherits the
    maximum over its inner list; the spec is silent on a wrapped selector
    without an inner list, for which the table repeats the code. *)
Definition starts_with (c : ascii) (s : string) : bool :=
  String.prefix (String c EmptyString) s.

Definition max_list (l : list Z) : Z := fold_right Z.max 0 l.
Definition sum_list (l : list Z) : Z := fold_right Z.add 0 l.

Definition table_specificity (K : Constants) (placeholder universal : Z)
    (s : Simple_Selector) : Z :=
  match s with
  | Parent_Selector _ => 0
  | Selector_Placeholder _ => placeholder
  | Type_Selector _ =>
      if String.eqb (name s) "*" then universal else Specificity_Type K
  | Selector_Qualifier _ =>
      if starts_with "#" (name s) then Specificity_ID K
      else if starts_with "." (name s) then Specificity_Class K
      else Specificity_Type K
  | Attribute_Selector _ _ _ => Specificity_Attr K
  | Pseudo_Selector _ _ =>
      if is_pseudo_element (name s) then Specificity_Type K
      else Specificity_Pseudo K
  | Wrapped_Selector _ (Some (Sel_List l)) =>
      max_list (map (specificity_Complex K) (elements_ (Selector_List_vec l)))
  | Wrapped_Selector _ (Some other) => specificity_Selector K other
  | Wrapped_Selector _ None => 0
  end.

(** The weights are not in the sources.  For the evaluations below they are
    taken one byte apart, the universal weight being 0 as the spec has it;
    the general theorems hold for every choice of weights. *)
Definition byte_weights : Constants :=
  {| Specificity_Universal := 0;
     Specificity_Type := 2 ^ 8;
     Specificity_Class := 2 ^ 16;
     Specificity_Attr := 2 ^ 16;
     Specificity_Pseudo := 2 ^ 16;
     Specificity_ID := 2 ^ 24 |}.

(** The placeholder [%x], the class [.a], the id [#a]. *)
Definition placeholder_x : Simple_Selector := Selector_Placeholder_ctor no_pstate "%x".
Definition class_a : Simple_Selector := Selector_Qualifier_ctor no_pstate ".a".
Definition id_a : Simple_Selector := Selector_Qualifier_ctor no_pstate "#a".

(** The compound selector made by appending the simple selectors of [l]. *)
Definition Compound_of (l : list Simple_Selector) : Compound_Selector :=
  fold_left (fun c s => Vectorized_shl c (Some s)) l
    (Compound_Selector_ctor no_pstate 0).

(** [#a#a...#a], 128 times. *)
Definition many_ids : Compound_Selector := Compound_of (repeat id_a 128).

(** [.a%x] as a complex selector, and the ruleset [.a%x { }]. *)
Definition class_and_placeholder : Complex_Selector :=
  Complex_Selector_ctor no_pstate ANCESTOR_OF
    (Some (Compound_of [class_a; placeholder_x])) None.

Definition Selector_List_of (l : list Complex_Selector) : Selector_List :=
  mkSelector_List (Selector_ctor no_pstate false false) (mkVectorized l 0) [].

Definition ruleset_class_and_placeholder : Statement :=
  Ruleset_ctor no_pstate (Some (Sel_List (Selector_List_of [class_and_placeholder])))
    None.

(** The specificity of what a pointer refers to, 0 for the null pointer. *)
Definition opt_specificity {A : Type} (f : A -> Z) (p : option A) : Z :=
  match p with Some x => f x | None => 0 end.

(** *** Prepending to a source map *)

(** Following the spec: a mapping "exceeds the current size" when its
    generated position lies beyond [size], on a later line or further right
    on the same line. *)
Definition exceeds (size : Offset) (m : Mapping) : bool :=
  (off_line size <? line (generated_position m))
  || ((line (generated_position m) =? off_line size)
      && (off_column size <? column (generated_position m))).

(** The generated line and column of a mapping are [size_t] values. *)
Definition size_t_Mapping (m : Mapping) : Prop :=
  is_size_t (line (generated_position m)) /\
  is_size_t (column (generated_position m)).

(** A source map with a mapping on its first line and one on its second, and
    two buffers to put in front of it: one whose only mapping lies within its
    text, one whose mapping lies beyond it. *)
Definition sample_map : SourceMap :=
  {| source_index := [0];
     mappings := [mkMapping (mkPosition 0 0 0) (mkPosition 0 0 3);
                  mkMapping (mkPosition 0 1 0) (mkPosition 0 1 2)];
     current_position := mkPosition 0 1 5;
     smap_file := "stdin" |}.

Definition sample_buffer : OutputBuffer :=
  {| buffer := String "a" (String "b" (String "010" (String "c" EmptyString)));
     smap := {| source_index := [0];
                mappings := [mkMapping (mkPosition 0 4 2) (mkPosition 0 0 1)];
                current_position := mkPosition 0 1 1;
                smap_file := "stdin" |} |}.

Definition overlong_buffer : OutputBuffer :=
  {| buffer := "ab";
     smap := {| source_index := [0];
                mappings := [mkMapping (mkPosition 0 4 2) (mkPosition 0 0 7)];
                current_position := mkPosition 0 0 2;
                smap_file := "stdin" |} |}.

(** *** Naive trim *)

(** Following the spec, with "subsumed" read as the code has it: walking the
    alternatives back to front, a selector is skipped when a selector kept
    before it (further back in the list) is equivalent to it; every other
    entry is kept.  [keep_last_kept] tests against the entries kept so far,
    [keep_last] against every later entry. *)
Definition has_equivalent (lt : Complex_Selector -> Complex_Selector -> bool)
    (s : Complex_Selector) (l : list Node) : bool :=
  existsb (fun n => match n with
                    | Node_Selector _ e => equivalent lt e s
                    | _ => false
                    end) l.

Fixpoint keep_last_kept (lt : Complex_Selector -> Complex_Selector -> bool)
    (l : list Node) : list Node :=
  match l with
  | [] => []
  | n :: rest =>
      let kept := keep_last_kept lt rest in
      match n with
      | Node_Selector _ s => if has_equivalent lt s kept then kept else n :: kept
      | _ => n :: kept
      end
  end.

Fixpoint keep_last (lt : Complex_Selector -> Complex_Selector -> bool)
    (l : list Node) : list Node :=
  match l with
  | [] => []
  | n :: rest =>
      match n with
      | Node_Selector _ s =>
          if has_equivalent lt s rest then keep_last lt rest
          else n :: keep_last lt rest
      | _ => n :: keep_last lt rest
      end
  end.

(** No selector of [l] has an equivalent selector after it. *)
Fixpoint distinct_selectors (lt : Complex_Selector -> Complex_Selector -> bool)
    (l : list Node) : Prop :=
  match l with
  | [] => True
  | n :: rest =>
      match n with
      | Node_Selector _ s => has_equivalent lt s rest = false
      | _ => True
      end /\ distinct_selectors lt rest
  end.

(** The alternatives [.a] and [.b], neither with any source, and nodes made
    of them. *)
Definition complex_a : Complex_Selector :=
  Complex_Selector_ctor no_pstate ANCESTOR_OF (Some (Compound_of [class_a])) None.
Definition complex_b : Complex_Selector :=
  Complex_Selector_ctor no_pstate ANCESTOR_OF
    (Some (Compound_of [Selector_Qualifier_ctor no_pstate ".b"])) None.

(** [.a] again, this time with [.b] among the sources of its compound. *)
Definition complex_a_from_b : Complex_Selector :=
  Complex_Selector_ctor no_pstate ANCESTOR_OF
    (Some (match Compound_of [class_a] with
           | mkCompound_Selector m v _ p => mkCompound_Selector m v [complex_b] p
           end))
    None.

Definition node_a : Node := Node_Selector false complex_a.
Definition node_a_lf : Node := Node_Selector true complex_a.
Definition node_b : Node := Node_Selector false complex_b.
Definition node_child : Node := createCombinator PARENT_OF.

(** *** Serialising the mappings *)

(** The four values of a mapping that [serialize_mappings] converts to [int]
    (the generated column, the file, the original line and the original
    column) fit a non-negative [int].  The generated line stays a [size_t]. *)
Definition int_Mapping (m : Mapping) : Prop :=
  is_nonneg_int (column (generated_position m)) /\
  is_nonneg_int (file (original_position m)) /\
  is_nonneg_int (line (original_position m)) /\
  is_nonneg_int (column (original_position m)).

(** The generated lines never go back, starting from [previous]: the order in
    which a source map receives its mappings, [current_position] only moving
    forward. *)
Fixpoint generated_lines_ascend (previous : Z) (ms : list Mapping) : Prop :=
  match ms with
  | [] => True
  | m :: ms' =>
      previous <= line (generated_position m) /\
      generated_lines_ascend (line (generated_position m)) ms'
  end.

Definition SourceMap_of (ms : list Mapping) : SourceMap :=
  {| source_index := [0]; mappings := ms;
     current_position := mkPosition 0 0 0; smap_file := "stdin" |}.

(** [a{color:red}]: the rule at generated column 0 and the value at generated
    column 8, from columns 0 and 11 of line 0 of the source; then a rule two
    lines further down. *)
Definition three_mappings : list Mapping :=
  [mkMapping (mkPosition 0 0 0) (mkPosition 0 0 0);
   mkMapping (mkPosition 0 0 11) (mkPosition 0 0 8);
   mkMapping (mkPosition 1 3 2) (mkPosition 0 2 4)].

(** Two mappings whose generated lines go back, and one whose generated
    column is [2^32]. *)
Definition mappings_out_of_order : list Mapping :=
  [mkMapping (mkPosition 0 0 0) (mkPosition 0 1 0);
   mkMapping (mkPosition 0 0 0) (mkPosition 0 0 0)].

Definition mapping_beyond_int : list Mapping :=
  [mkMapping (mkPosition 0 0 0) (mkPosition 0 0 (2 ^ 32))].

(** One mapping for each of the four values that are converted to [int],
    with that value at [2^31], the first that does not fit: the generated
    column, the file, the original line, the original column. *)
Definition mappings_at_int_limit : list Mapping :=
  [mkMapping (mkPosition 0 0 0) (mkPosition 0 0 (2 ^ 31));
   mkMapping (mkPosition (2 ^ 31) 0 0) (mkPosition 0 0 0);
   mkMapping (mkPosition 0 (2 ^ 31) 0) (mkPosition 0 0 0);
   mkMapping (mkPosition 0 0 (2 ^ 31)) (mkPosition 0 0 0)].

(** A mapping on the generated line [2^31], which is not converted. *)
Definition mapping_on_a_far_line : list Mapping :=
  [mkMapping (mkPosition 0 0 0) (mkPosition 0 (2 ^ 31) 0)].

(** The state the reader is in when it has read what the writer has written
    so far: no field is pending, the reader's running values are the writer's
    "previous" values, and [entries] have been read. *)
Definition decode_state_after (mode : decode_mode) (st : serialize_state)
    (entries : list decoded_mapping) : decode_state :=
  {| d_mode := mode; d_value := 0; d_shift := 0; d_fields := [];
     d_generated_line := previous_generated_line st;
     d_generated_column := previous_generated_column st;
     d_source_index := previous_original_file st;
     d_original_line := previous_original_line st;
     d_original_column := previous_original_column st;
     d_entries := entries |}.

(** The "previous" values of the writer fit a non-negative [int]. *)
Definition int_serialize_state (st : serialize_state) : Prop :=
  is_nonneg_int (previous_generated_column st) /\
  is_nonneg_int (previous_original_file st) /\
  is_nonneg_int (previous_original_line st) /\
  is_nonneg_int (previous_original_column st).

(** *** Further definitions to state properties with, and further objects *)

(** The state [pstate] moved as [prepend(const Offset&)] moves a generated
    position. *)
Definition ParserState_shifted (offset0 : Offset) (pstate : ParserState) : ParserState :=
  mkParserState (path pstate) (src pstate)
    (generated_position
       (prepend_shift offset0 (mkMapping (position pstate) (position pstate))))
    (offset pstate).

(** The offset of a text followed by another: the lines add up, and the
    columns add up when the second text has no line feed. *)
Definition Offset_followed_by (second first : Offset) : Offset :=
  mkOffset (to_size_t (off_line second + off_line first))
    (if off_line first =? 0
     then to_size_t (off_column second + off_column first)
     else off_column first).

(** The three kinds of parameter that [adjust_after_pushing] tells apart, in
    the order of its tests. *)
Inductive Parameter_kind : Type := Required | Optional | Rest.

Definition kind_of (p : Parameter_) : Parameter_kind :=
  match default_value_ p with
  | Some _ => Optional
  | None => if is_rest_parameter_ p then Rest else Required
  end.

(** No two elements of [s] are the same element of a set. *)
Fixpoint SourcesSet_distinct (lt : Complex_Selector -> Complex_Selector -> bool)
    (s : SourcesSet) : Prop :=
  match s with
  | [] => True
  | e :: s' => existsb (equivalent lt e) s' = false /\ SourcesSet_distinct lt s'
  end.

(** The pairs of [ps] whose key has the hash [z], in the order of [ps]. *)
Definition with_hash {E : Type} `{HashMethod E} (z : Z) (ps : list (E * E)) :
    list (E * E) :=
  filter (fun p : E * E => hash p.1 = z) ps.

(** A statement of a class that inherits [Statement::is_hoistable()], and a
    block that received the ruleset [.a%x { }] through [operator<<] and that
    statement through [operator+=]. *)
Definition plain_statement : Statement :=
  Plain_Statement (Statement_ctor no_pstate ST_NONE 0).

Definition sample_block : Block :=
  Vectorized_add_assign
    (Vectorized_shl (Block_ctor no_pstate 0 true) (Some ruleset_class_and_placeholder))
    (mkVectorized [plain_statement] 0).

(** Elements that are numbers, each its own hash, with the identity for
    [std::hash<size_t>]; and the schema that [operator<<] has given the
    element 1. *)
Definition number_hash : HashMethod Z := fun z => z.

Definition schema_of_one : String_Schema Z :=
  Vectorized_shl (String_Schema_ctor no_pstate 0 false) (Some 1).

(** *** Placeholders pushed before and after a complex selector is made *)

Definition late_placeholder : Simple_Selector :=
  Selector_Placeholder_ctor no_pstate "%late".


(** The same three statements with the push before the construction. *)
Definition placeholder_pushed_early :
    option (list Compound_Selector * Complex_Selector_object) :=
  let '(h, st1) := Compound_Selector_new no_pstate 0 [] in
  match Compound_store_shl h (Some late_placeholder) st1 with
  | Some st2 =>
      match Complex_Selector_new no_pstate ANCESTOR_OF (Some h) None st2 with
      | Some w => Some (st2, w)
      | None => None
      end
  | None => None
  end.



(** The compound selectors of [st'] hold what those of [st] held. *)
Definition Compound_store_grows (st st' : list Compound_Selector) : Prop :=
  forall (p : nat) (c : Compound_Selector),
    st !! p = Some c ->
    exists c', st' !! p = Some c' /\
      (Compound_contains_placeholder c = true ->
       Compound_contains_placeholder c' = true).

(** * Theorems *)

(** ** Expressions *)

(** C9: the constructor stores its [is_delayed] argument [d] in
    [is_expanded_] as well; the stored flag equals [d], equals the stored
    [is_delayed] flag, and does not depend on the [is_expanded] argument [e]. *)
Theorem Expression_ctor_is_expanded_is_delayed_argument :
  forall (pstate : ParserState) (d e i : bool) (ct : Concrete_Type),
    is_expanded (Expression_ctor pstate d e i ct) = d /\
    is_expanded (Expression_ctor pstate d e i ct)
      = is_delayed (Expression_ctor pstate d e i ct) /\
    (forall e' : bool,
        is_expanded (Expression_ctor pstate d e' i ct)
        = is_expanded (Expression_ctor pstate d e i ct)).
Proof.
  intros pstate d e i ct. repeat split.
Qed.

(** The same holds through [Value]'s constructor, which forwards its
    arguments. *)
Lemma Value_ctor_is_expanded (pstate : ParserState) (d e i : bool) (ct : Concrete_Type) :
  is_expanded (Value_ctor pstate d e i ct) = d.
Proof. reflexivity. Qed.

(** An expression asked to be expanded but not delayed is stored as not
    expanded. *)
Example Expression_ctor_drops_expanded :
  is_expanded (Expression_ctor no_pstate false true false NONE) = false.
Proof. reflexivity. Qed.

(** ** The [Vectorized] mixin *)

(** C10: appending the null pointer to any object of a class derived from
    [Vectorized] returns the object as it was: no element is added, the cached
    hash is kept and [adjust_after_pushing] does not run. *)
Theorem Vectorized_shl_null_is_identity :
  forall (T Self : Type) (C : VectorizedClass T Self) (self : Self),
    Vectorized_shl self None = self.
Proof.
  intros T Self C self. unfold Vectorized_shl. reflexivity.
Qed.

(** The flags of a block and the members of the mixin after a null append. *)
Corollary Block_shl_null_flags (b : Block) :
  has_hoistable (Vectorized_shl b None) = has_hoistable b /\
  has_non_hoistable (Vectorized_shl b None) = has_non_hoistable b /\
  elements_ (vec (Vectorized_shl b None)) = elements_ (vec b) /\
  hash_ (vec (Vectorized_shl b None)) = hash_ (vec b).
Proof. repeat split. Qed.

(** In contrast, appending a statement resets the hash, stores the statement
    and raises one of the two flags. *)
Lemma Block_shl_statement (b : Block) (s : Statement) :
  let b' := Vectorized_shl b (Some s) in
  elements_ (vec b') = elements_ (vec b) ++ [s] /\
  hash_ (vec b') = 0 /\
  has_hoistable b' = (is_hoistable s || has_hoistable b) /\
  has_non_hoistable b' = (negb (is_hoistable s) || has_non_hoistable b).
Proof.
  destruct b as [m v r a h n]. cbn.
  unfold Block_adjust_after_pushing.
  destruct (is_hoistable s); cbn; repeat split; auto.
Qed.

Lemma Compound_shl_simple (c : Compound_Selector) (s : Simple_Selector) :
  let c' := Vectorized_shl c (Some s) in
  elements_ (Compound_vec c') = elements_ (Compound_vec c) ++ [s] /\
  Compound_has_placeholder c'
    = (Simple_has_placeholder s || Compound_has_placeholder c) /\
  Compound_has_reference c'
    = (Simple_has_reference s || Compound_has_reference c).
Proof.
  destruct c as [m v srcs p]. cbn.
  unfold Compound_adjust_after_pushing, Compound_has_placeholder,
    Compound_has_reference.
  destruct (Simple_has_reference s), (Simple_has_placeholder s); cbn;
    repeat split; auto.
Qed.

(** ** The [Hashed] mixin *)

Section HashedFacts.
Context {E : Type} {HM : HashMethod E}.
Implicit Types (h : Hashed.Hashed E) (k v : E) (p : E * E).

Lemma has_true_lookup h k :
  Hashed.has h k = true <-> is_Some (Hashed.elements_ h !! hash k).
Proof.
  unfold Hashed.has, Hashed.count.
  destruct (Hashed.elements_ h !! hash k); cbn; split; intros Hx;
    try done; by destruct Hx.
Qed.

Lemma subscript_assign_lookup (m : gmap Z (E * E)) k v :
  snd <$> Hashed.subscript_assign m k v !! hash k = Some v.
Proof.
  unfold Hashed.subscript_assign.
  destruct (m !! hash k) as [[k0 v0]|]; by rewrite lookup_insert_eq.
Qed.

Lemma shl_elements h p :
  Hashed.elements_ (Hashed.shl h p)
  = Hashed.subscript_assign (Hashed.elements_ h) p.1 p.2.
Proof.
  unfold Hashed.shl.
  destruct (negb (Hashed.has (Hashed.reset_hash h) p.1)); [done|].
  by destruct (negb (Hashed.has_duplicate_key (Hashed.reset_hash h))).
Qed.

Lemma shl_has_same_hash h k1 k2 v :
  hash k1 = hash k2 -> Hashed.has (Hashed.shl h (k1, v)) k2 = true.
Proof.
  intros Hh. apply has_true_lookup. rewrite shl_elements. cbn.
  rewrite <- Hh.
  pose proof (subscript_assign_lookup (Hashed.elements_ h) k1 v) as Hl.
  destruct (Hashed.subscript_assign (Hashed.elements_ h) k1 v !! hash k1);
    [by eexists | done].
Qed.

(** Once set, the duplicate key survives every later insertion. *)
Lemma shl_keeps_duplicate_key h p d :
  Hashed.get_duplicate_key h = Some d ->
  Hashed.get_duplicate_key (Hashed.shl h p) = Some d.
Proof.
  unfold Hashed.get_duplicate_key, Hashed.shl, Hashed.has_duplicate_key.
  intros Hd. cbn. rewrite Hd.
  by destruct (negb (Hashed.has (Hashed.reset_hash h) p.1)).
Qed.

Lemma fold_shl_keeps_duplicate_key (ps : list (E * E)) h d :
  Hashed.get_duplicate_key h = Some d ->
  Hashed.get_duplicate_key (fold_left Hashed.shl ps h) = Some d.
Proof.
  revert h. induction ps as [|p ps IH]; intros h Hd; [done|].
  cbn. apply IH. by apply shl_keeps_duplicate_key.
Qed.

(** C6: inserting [(k, v)] when a key equal to [k] is present leaves the list
    of keys as it is, makes [v] the value stored for the key, and records the
    duplicate: [has_duplicate_key()] is true, [get_duplicate_key()] is the
    key recorded earlier or else [k], and both stay so under every further
    sequence of insertions. *)
Theorem Hashed_shl_duplicate_key :
  forall h k v,
    Hashed.has h k = true ->
    let h' := Hashed.shl h (k, v) in
    Hashed.keys h' = Hashed.keys h /\
    snd <$> Hashed.pairs h' !! hash k = Some v /\
    Hashed.has_duplicate_key h' = true /\
    Hashed.get_duplicate_key h'
      = Some (default k (Hashed.get_duplicate_key h)) /\
    (forall ps : list (E * E),
        Hashed.has_duplicate_key (fold_left Hashed.shl ps h') = true /\
        Hashed.get_duplicate_key (fold_left Hashed.shl ps h')
          = Hashed.get_duplicate_key h').
Proof.
  intros h k v Hhas h'.
  assert (Hdup : Hashed.get_duplicate_key h'
                 = Some (default k (Hashed.get_duplicate_key h))).
  { subst h'. unfold Hashed.shl, Hashed.get_duplicate_key,
      Hashed.has_duplicate_key.
    replace (Hashed.has (Hashed.reset_hash h) (k, v).1) with true by done.
    cbn. destruct (Hashed.duplicate_key_ h) eqn:Hd; cbn; [by rewrite Hd | done]. }
  split; [|split; [|split; [|split]]].
  - subst h'. unfold Hashed.shl, Hashed.keys.
    replace (Hashed.has (Hashed.reset_hash h) (k, v).1) with true by done.
    cbn. by destruct (negb (Hashed.has_duplicate_key (Hashed.reset_hash h))).
  - unfold Hashed.pairs. subst h'. rewrite shl_elements.
    apply subscript_assign_lookup.
  - unfold Hashed.has_duplicate_key.
    unfold Hashed.get_duplicate_key in Hdup. by rewrite Hdup.
  - exact Hdup.
  - intros ps.
    pose proof (fold_shl_keeps_duplicate_key ps h' _ Hdup) as Hfold.
    split; [|by rewrite Hfold, Hdup].
    unfold Hashed.has_duplicate_key.
    unfold Hashed.get_duplicate_key in Hfold. by rewrite Hfold.
Qed.

(** C7: two keys with the same hash are one key of the table: after
    [(k1, v)] is inserted, [has(k2)] is true, the slot of [k2] holds [v], and
    [at(k2)] is [v]. *)
Theorem Hashed_keys_equal_by_hash :
  forall h k1 k2 v,
    hash k1 = hash k2 ->
    Hashed.has (Hashed.shl h (k1, v)) k2 = true /\
    snd <$> Hashed.pairs (Hashed.shl h (k1, v)) !! hash k2 = Some v /\
    Hashed.at_ (Hashed.shl h (k1, v)) k2 = Some v.
Proof.
  intros h k1 k2 v Hh.
  split; [by apply shl_has_same_hash|].
  unfold Hashed.at_, Hashed.pairs. rewrite shl_elements, <- Hh. cbn.
  split; apply subscript_assign_lookup.
Qed.

(** A key that is new to the table is appended to the list of keys and sets
    no duplicate. *)
Lemma Hashed_shl_new_key h k v :
  Hashed.has h k = false ->
  Hashed.keys (Hashed.shl h (k, v)) = Hashed.keys h ++ [k] /\
  Hashed.get_duplicate_key (Hashed.shl h (k, v)) = Hashed.get_duplicate_key h.
Proof.
  intros Hhas. unfold Hashed.shl, Hashed.keys, Hashed.get_duplicate_key.
  replace (Hashed.has (Hashed.reset_hash h) (k, v).1) with false by done.
  by cbn.
Qed.

End HashedFacts.

Lemma Hashed_shl_duplicate_key_witness :
  Hashed.has map_with_one_key key_delayed = true /\
  Hashed.keys (Hashed.shl map_with_one_key (key_delayed, value_two)) = [key_plain] /\
  Hashed.get_duplicate_key (Hashed.shl map_with_one_key (key_delayed, value_two))
    = Some key_delayed.
Proof.
  pose proof (Hashed_shl_duplicate_key map_with_one_key key_delayed value_two
                eq_refl) as (Hkeys & _ & _ & Hdup & _).
  split; [reflexivity|]. split; [exact Hkeys | exact Hdup].
Defined.

Lemma Hashed_keys_equal_by_hash_witness :
  hash key_plain = hash key_delayed /\
  Hashed.has map_with_one_key key_delayed = true /\
  Hashed.at_ map_with_one_key key_delayed = Some value_one.
Proof.
  pose proof (Hashed_keys_equal_by_hash (Hashed.Hashed_ctor 0) key_plain
                key_delayed value_one eq_refl) as (Hhas & _ & Hat).
  split; [reflexivity|]. split; [exact Hhas | exact Hat].
Defined.

(** ** Machine integers *)

Lemma to_ulong_small (z : Z) : is_size_t z -> to_ulong z = z.
Proof.
  unfold is_size_t, to_ulong, wrap_unsigned. intros Hz.
  by apply Z.mod_small.
Qed.

Lemma to_ulong_range (z : Z) : is_size_t (to_ulong z).
Proof.
  unfold is_size_t, to_ulong, wrap_unsigned, size_t_bits.
  apply Z.mod_pos_bound. lia.
Qed.

Lemma to_size_t_small (z : Z) : is_size_t z -> to_size_t z = z.
Proof. apply to_ulong_small. Qed.

Lemma to_int_small (z : Z) : - 2 ^ 31 <= z < 2 ^ 31 -> to_int z = z.
Proof.
  unfold to_int, wrap_signed, int_bits. intros Hz.
  change (32 - 1) with 31.
  rewrite Z.mod_small; lia.
Qed.

Lemma to_int_range (z : Z) : - 2 ^ 31 <= to_int z < 2 ^ 31.
Proof.
  unfold to_int, wrap_signed, int_bits. change (32 - 1) with 31.
  pose proof (Z.mod_pos_bound (z + 2 ^ 31) (2 ^ 32) ltac:(lia)). lia.
Qed.

(** Adding a multiple of [2^32] does not change the [int] a value converts to. *)
Lemma to_int_add_multiple (z k : Z) : to_int (z + k * 2 ^ 32) = to_int z.
Proof.
  unfold to_int, wrap_signed, int_bits. change (32 - 1) with 31.
  replace (z + k * 2 ^ 32 + 2 ^ 31) with (z + 2 ^ 31 + k * 2 ^ 32) by ring.
  by rewrite Z_mod_plus_full.
Qed.

Lemma to_int_to_ulong (z : Z) : to_int (to_ulong z) = to_int z.
Proof.
  unfold to_ulong, wrap_unsigned, size_t_bits.
  rewrite Z.mod_eq by lia.
  replace (z - 2 ^ 64 * (z / 2 ^ 64)) with (z + (- (z / 2 ^ 64) * 2 ^ 32) * 2 ^ 32) by ring.
  apply to_int_add_multiple.
Qed.

Lemma to_int_add_to_int_l (a x : Z) : to_int (to_int a + x) = to_int (a + x).
Proof.
  unfold to_int at 2. unfold wrap_signed, int_bits. change (32 - 1) with 31.
  rewrite Z.mod_eq by lia.
  replace (a + 2 ^ 31 - 2 ^ 32 * ((a + 2 ^ 31) / 2 ^ 32) - 2 ^ 31 + x)
    with (a + x + (- ((a + 2 ^ 31) / 2 ^ 32)) * 2 ^ 32) by ring.
  apply to_int_add_multiple.
Qed.

Lemma to_int_add_to_int_r (a x : Z) : to_int (a + to_int x) = to_int (a + x).
Proof. rewrite (Z.add_comm a), to_int_add_to_int_l. f_equal. lia. Qed.

Lemma to_int_idempotent (z : Z) : to_int (to_int z) = to_int z.
Proof. apply to_int_small, to_int_range. Qed.

(** What [sum += x] leaves in the [int]. *)
Lemma int_add_ulong_to_int (sum x : Z) : int_add_ulong sum x = to_int (sum + x).
Proof.
  unfold int_add_ulong. rewrite to_int_to_ulong.
  unfold to_ulong at 1. unfold wrap_unsigned, size_t_bits.
  rewrite Z.mod_eq by lia.
  replace (sum - 2 ^ 64 * (sum / 2 ^ 64) + x)
    with (sum + x + (- (sum / 2 ^ 64) * 2 ^ 32) * 2 ^ 32) by ring.
  apply to_int_add_multiple.
Qed.

Lemma fold_int_add_ulong {A : Type} (f : A -> Z) (l : list A) (a : Z) :
  fold_left (fun sum s => int_add_ulong sum (f s)) l (to_int a)
  = to_int (a + sum_list (map f l)).
Proof.
  revert a. unfold sum_list.
  induction l as [|x l IH]; intros a; cbn [fold_left map fold_right].
  - by rewrite Z.add_0_r.
  - rewrite int_add_ulong_to_int, to_int_add_to_int_l, IH. f_equal. lia.
Qed.

(** ** Specificity *)

Section SpecificityFacts.
Variable K : Constants.

Lemma max_list_nonneg (l : list Z) : 0 <= max_list l.
Proof. unfold max_list. induction l as [|x l IH]; cbn; lia. Qed.

Lemma fold_left_max {A : Type} (f : A -> Z) (l : list A) (a : Z) :
  fold_left (fun sum c => let specificity := f c in
                          if sum <? specificity then specificity else sum) l a
  = Z.max a (fold_right Z.max a (map f l)).
Proof.
  revert a. induction l as [|x l IH]; intros a; cbn [fold_left map fold_right].
  - lia.
  - rewrite IH. cbv zeta.
    assert (Hmono : forall b c, b <= c ->
              fold_right Z.max b (map f l) <= fold_right Z.max c (map f l)).
    { clear. induction l as [|y l IH]; cbn; intros b c Hbc; [lia|].
      specialize (IH b c Hbc). lia. }
    assert (Hge : forall b, b <= fold_right Z.max b (map f l)).
    { clear. induction l as [|y l IH]; cbn; intros b; [lia|].
      specialize (IH b). lia. }
    destruct (Z.ltb_spec a (f x)) as [Hlt|Hge'].
    + pose proof (Hmono a (f x) ltac:(lia)). pose proof (Hge (f x)).
      pose proof (Hge a).
      assert (fold_right Z.max (f x) (map f l)
              = Z.max (f x) (fold_right Z.max a (map f l))) as ->; [|lia].
      clear -Hlt. induction l as [|y l IH]; cbn; lia.
    + pose proof (Hge a). lia.
Qed.

(** [Selector_List::specificity()] is the maximum over the alternatives, 0 for
    the empty list. *)
Lemma specificity_List_max (l : Selector_List) :
  specificity_List K l
  = max_list (map (specificity_Complex K) (elements_ (Selector_List_vec l))).
Proof.
  destruct l as [m v w]. cbn [specificity_List Selector_List_vec].
  rewrite fold_left_max. fold (max_list (map (specificity_Complex K) (elements_ v))).
  pose proof (max_list_nonneg (map (specificity_Complex K) (elements_ v))). lia.
Qed.

(** What the [int] accumulator of [Compound_Selector::specificity()] returns. *)
Lemma specificity_Compound_exact (c : Compound_Selector) :
  specificity_Compound K c
  = to_ulong (to_int (sum_list (map (specificity_Simple K)
                                    (elements_ (Compound_vec c))))).
Proof.
  destruct c as [m v srcs p]. cbn [specificity_Compound Compound_vec].
  change 0 with (to_int 0) at 1. by rewrite fold_int_add_ulong.
Qed.

(** What the [int] accumulator of [Complex_Selector::specificity()] returns. *)
Lemma specificity_Complex_exact (c : Complex_Selector) :
  specificity_Complex K c
  = to_ulong (to_int (opt_specificity (specificity_Compound K) (head c)
                      + opt_specificity (specificity_Complex K) (tail c))).
Proof.
  destruct c as [m k h t r]. cbn [specificity_Complex head tail].
  cbv zeta. f_equal.
  destruct h as [h|], t as [t|]; cbn [opt_specificity];
    rewrite ?int_add_ulong_to_int, ?to_int_add_to_int_l, ?Z.add_0_l, ?Z.add_0_r;
    reflexivity.
Qed.

Lemma specificity_Compound_range (c : Compound_Selector) :
  is_size_t (specificity_Compound K c).
Proof. rewrite specificity_Compound_exact. apply to_ulong_range. Qed.

Lemma specificity_Complex_range (c : Complex_Selector) :
  is_size_t (specificity_Complex K c).
Proof. rewrite specificity_Complex_exact. apply to_ulong_range. Qed.

Lemma specificity_List_range (l : Selector_List) :
  is_size_t (specificity_List K l).
Proof.
  rewrite specificity_List_max.
  induction (elements_ (Selector_List_vec l)) as [|c cs IH]; cbn.
  - unfold is_size_t, size_t_bits. lia.
  - pose proof (specificity_Complex_range c). unfold is_size_t in *.
    fold (max_list (map (specificity_Complex K) cs)). lia.
Qed.

Hypothesis K_ulong : ulong_Constants K.

(** Every simple selector, and every selector reached through a
    [Selector*], has an [unsigned long] specificity. *)
Lemma specificity_Simple_range (s : Simple_Selector) :
  is_size_t (specificity_Simple K s)
with specificity_Selector_range (sel : Selector) :
  is_size_t (specificity_Selector K sel).
Proof using K_ulong.
  - destruct K_ulong as (HU & HT & HC & HA & HP & HI).
    destruct s as [m|m|m|m|m ma va|m e|m [sel|]]; cbn [specificity_Simple].
    + unfold is_size_t, size_t_bits. lia.
    + exact HU.
    + destruct (String.eqb _ _); assumption.
    + repeat destruct (Ascii.eqb _ _); assumption.
    + exact HA.
    + destruct (is_pseudo_element _); assumption.
    + apply specificity_Selector_range.
    + unfold is_size_t, size_t_bits. lia.
  - destruct K_ulong as (HU & _).
    destruct sel as [m c a|s|c|c|l]; cbn [specificity_Selector].
    + exact HU.
    + apply specificity_Simple_range.
    + apply specificity_Compound_range.
    + exact HU.
    + apply specificity_List_range.
Qed.

Lemma sum_list_specificity_nonneg (l : list Simple_Selector) :
  0 <= sum_list (map (specificity_Simple K) l).
Proof using K_ulong.
  induction l as [|s l IH]; cbn; [lia|].
  pose proof (specificity_Simple_range s) as Hs. unfold is_size_t in Hs.
  fold (sum_list (map (specificity_Simple K) l)). lia.
Qed.

End SpecificityFacts.

Lemma starts_with_char_at (c : ascii) (s : string) :
  c <> "000"%char -> starts_with c s = Ascii.eqb (char_at s 0) c.
Proof.
  intros Hc. unfold starts_with, char_at.
  destruct s as [|a s]; cbn [String.prefix String.get].
  - symmetry. apply Ascii.eqb_neq. congruence.
  - destruct (ascii_dec c a) as [->|Hne].
    + rewrite Ascii.eqb_refl. by destruct s.
    + symmetry. apply Ascii.eqb_neq. congruence.
Qed.

(** C2 (as amended): the specificity of every simple selector is the one of
    the spec's table, except that a placeholder gets the weight
    [Specificity_Universal] of [Selector::specificity()], which it inherits,
    the same weight the universal type selector gets: Parent = 0;
    Placeholder = universal weight; Type = type weight, universal weight for
    the name [*]; Qualifier = id weight for a name starting with [#], class
    weight for one starting with [.], type weight otherwise; Attribute =
    attribute weight; Pseudo = type weight for a pseudo-element, pseudo-class
    weight otherwise; Wrapped = the maximum over its inner list. *)
Theorem specificity_Simple_table :
  forall (K : Constants) (s : Simple_Selector),
    specificity_Simple K s
    = table_specificity K (Specificity_Universal K) (Specificity_Universal K) s.
Proof.
  intros K s.
  destruct s as [m|m|m|m|m ma va|m e|m [sel|]];
    cbn [specificity_Simple table_specificity name Simple_members_of];
    try reflexivity.
  - rewrite !starts_with_char_at by discriminate. reflexivity.
  - destruct sel as [ms c a|s|c|c|l]; try reflexivity.
    cbn [specificity_Selector]. apply specificity_List_max.
Qed.

(** A placeholder has the universal weight, whatever its name and whatever
    the weights are. *)
Lemma specificity_Placeholder_universal (K : Constants) (pstate : ParserState)
    (n : string) :
  specificity_Simple K (Selector_Placeholder_ctor pstate n) = Specificity_Universal K.
Proof. reflexivity. Qed.

(** C2, counterexample: for the placeholder [%x] the code answers with the
    universal weight (0 here), where the spec's table has the class weight. *)
Lemma specificity_Placeholder_is_not_class :
  specificity_Simple byte_weights placeholder_x = 0 /\
  table_specificity byte_weights (Specificity_Class byte_weights) 0 placeholder_x
    = 65536.
Proof. split; reflexivity. Qed.

(** The rows of the table on selectors made by the constructors. *)
Example specificity_examples :
  specificity_Simple byte_weights (Parent_Selector_ctor no_pstate) = 0 /\
  specificity_Simple byte_weights (Type_Selector_ctor no_pstate "div") = 256 /\
  specificity_Simple byte_weights (Type_Selector_ctor no_pstate "svg|*") = 0 /\
  specificity_Simple byte_weights id_a = 16777216 /\
  specificity_Simple byte_weights class_a = 65536 /\
  specificity_Simple byte_weights (Selector_Qualifier_ctor no_pstate "") = 256 /\
  specificity_Simple byte_weights (Pseudo_Selector_ctor no_pstate "::before" None) = 256 /\
  specificity_Simple byte_weights (Pseudo_Selector_ctor no_pstate ":after" None) = 256 /\
  specificity_Simple byte_weights (Pseudo_Selector_ctor no_pstate ":hover" None) = 65536.
Proof. repeat split. Qed.

(** Through a [Selector*] a complex selector answers with the inherited
    [Selector::specificity()], whatever it is made of. *)
Lemma specificity_Selector_Complex (K : Constants) (c : Complex_Selector) :
  specificity_Selector K (Sel_Complex c) = Specificity_Universal K.
Proof. reflexivity. Qed.

(** C8 (as amended): the specificity of a selector list is the maximum over
    its alternatives (0 for the empty list); that of a complex selector is
    the sum of those of its head and tail, and that of a compound selector
    the sum of those of its simple selectors, as long as the sum is below
    [2^31], the bound of the [int] the code adds them up in. *)
Theorem specificity_homomorphism_within_int :
  forall K : Constants,
    ulong_Constants K ->
    (forall l : Selector_List,
        specificity_List K l
        = max_list (map (specificity_Complex K) (elements_ (Selector_List_vec l)))) /\
    (forall c : Complex_Selector,
        opt_specificity (specificity_Compound K) (head c)
        + opt_specificity (specificity_Complex K) (tail c) < 2 ^ 31 ->
        specificity_Complex K c
        = opt_specificity (specificity_Compound K) (head c)
          + opt_specificity (specificity_Complex K) (tail c)) /\
    (forall c : Compound_Selector,
        sum_list (map (specificity_Simple K) (elements_ (Compound_vec c))) < 2 ^ 31 ->
        specificity_Compound K c
        = sum_list (map (specificity_Simple K) (elements_ (Compound_vec c)))).
Proof.
  intros K HK. split; [|split].
  - apply specificity_List_max.
  - intros c Hlt. rewrite specificity_Complex_exact.
    assert (0 <= opt_specificity (specificity_Compound K) (head c)) as Hh.
    { destruct (head c) as [h|]; cbn; [|lia].
      pose proof (specificity_Compound_range K h) as Hr. unfold is_size_t in Hr. lia. }
    assert (0 <= opt_specificity (specificity_Complex K) (tail c)) as Ht.
    { destruct (tail c) as [t|]; cbn; [|lia].
      pose proof (specificity_Complex_range K t) as Hr. unfold is_size_t in Hr. lia. }
    rewrite to_int_small by lia.
    apply to_ulong_small. unfold is_size_t, size_t_bits. lia.
  - intros c Hlt. rewrite specificity_Compound_exact.
    pose proof (sum_list_specificity_nonneg K HK (elements_ (Compound_vec c))).
    rewrite to_int_small by lia.
    apply to_ulong_small. unfold is_size_t, size_t_bits. lia.
Qed.

Lemma byte_weights_ulong : ulong_Constants byte_weights.
Proof. unfold ulong_Constants, is_size_t, size_t_bits. cbn. lia. Qed.

Lemma specificity_homomorphism_within_int_witness :
  ulong_Constants byte_weights /\
  specificity_Compound byte_weights (Compound_of [class_a; id_a]) = 65536 + 16777216.
Proof.
  split; [exact byte_weights_ulong|].
  destruct (specificity_homomorphism_within_int byte_weights byte_weights_ulong)
    as (_ & _ & Hcompound).
  rewrite Hcompound; [reflexivity|]. vm_compute. reflexivity.
Defined.

Lemma Compound_of_elements (l : list Simple_Selector) :
  elements_ (Compound_vec (Compound_of l)) = l.
Proof.
  unfold Compound_of.
  assert (Hgen : forall c,
             elements_ (Compound_vec
                          (fold_left (fun c s => Vectorized_shl c (Some s)) l c))
             = elements_ (Compound_vec c) ++ l).
  { induction l as [|s l IH]; intros c; cbn [fold_left].
    - by rewrite app_nil_r.
    - rewrite IH. destruct (Compound_shl_simple c s) as (-> & _).
      by rewrite <- app_assoc. }
  by rewrite Hgen.
Qed.

Lemma sum_list_repeat {A : Type} (f : A -> Z) (x : A) (n : nat) :
  sum_list (map f (repeat x n)) = Z.of_nat n * f x.
Proof.
  unfold sum_list. induction n as [|n IH]; [done|].
  cbn [repeat map fold_right]. rewrite IH. lia.
Qed.

(** Whatever the weights are, a long enough compound selector takes the sum
    out of the range of [int]: with an id weight [w] between 1 and [2^31],
    [ceil (2^31 / w)] ids sum to some [S] from [2^31] up to [2^32], and the
    function returns [S + 2^64 - 2^32]. *)
Lemma specificity_Compound_overflow (K : Constants) :
  0 < Specificity_ID K <= 2 ^ 31 ->
  let n := Z.to_nat ((2 ^ 31 + Specificity_ID K - 1) / Specificity_ID K) in
  let S := sum_list (map (specificity_Simple K) (repeat id_a n)) in
  2 ^ 31 <= S < 2 ^ 32 /\
  specificity_Compound K (Compound_of (repeat id_a n)) = S + 2 ^ 64 - 2 ^ 32.
Proof.
  intros Hw n S.
  assert (HS : S = Z.of_nat n * Specificity_ID K).
  { unfold S. by rewrite sum_list_repeat. }
  set (w := Specificity_ID K) in *.
  assert (Hrange : 2 ^ 31 <= S < 2 ^ 32).
  { rewrite HS. unfold n.
    pose proof (Z.div_mod (2 ^ 31 + w - 1) w ltac:(lia)) as Hdm.
    pose proof (Z.mod_pos_bound (2 ^ 31 + w - 1) w ltac:(lia)) as Hr.
    assert (0 <= (2 ^ 31 + w - 1) / w) by (apply Z.div_pos; lia).
    rewrite Z2Nat.id by done.
    change (2 ^ 31) with 2147483648 in *. change (2 ^ 32) with 4294967296. nia. }
  split; [exact Hrange|].
  rewrite specificity_Compound_exact, Compound_of_elements. fold S.
  unfold to_ulong, to_int, wrap_unsigned, wrap_signed, size_t_bits, int_bits.
  change (2 ^ (32 - 1)) with 2147483648. change (2 ^ 31) with 2147483648 in Hrange.
  change (2 ^ 32) with 4294967296 in *. change (2 ^ 64) with 18446744073709551616.
  assert (Hint : (S + 2147483648) mod 4294967296 = S + 2147483648 - 4294967296).
  { symmetry. apply (Z.mod_unique _ _ 1); lia. }
  rewrite Hint. symmetry. apply (Z.mod_unique _ _ (-1)); lia.
Qed.

(** C8, counterexample: a compound selector of 128 ids of weight [2^24]
    each.  The [int] accumulator wraps to [-2^31], which the function returns
    as the [unsigned long] [2^64 - 2^31]; the sum of the simple selectors'
    specificities is [2^31]. *)
Lemma specificity_Compound_many_ids :
  specificity_Compound byte_weights many_ids = 18446744071562067968 /\
  sum_list (map (specificity_Simple byte_weights) (elements_ (Compound_vec many_ids)))
    = 2147483648.
Proof. split; vm_compute; reflexivity. Qed.

(** ** Invisible rulesets *)

Lemma Simple_built_has_placeholder (s : Simple_Selector) :
  Simple_built s -> Simple_has_placeholder s = is_Placeholder s.
Proof.
  intros Hs. destruct Hs; unfold Simple_has_placeholder;
    cbn [Simple_members_of Parent_Selector_ctor Selector_Placeholder_ctor
         Type_Selector_ctor Selector_Qualifier_ctor Attribute_Selector_ctor
         Pseudo_Selector_ctor Wrapped_Selector_ctor is_Placeholder];
    unfold Simple_Selector_ctor;
    try (destruct (find_char _ _); reflexivity).
Qed.

Lemma Compound_built_has_placeholder (c : Compound_Selector) :
  Compound_built c -> Compound_has_placeholder c = Compound_any_placeholder c.
Proof.
  induction 1 as [pstate h0|c s Hc IH Hs].
  - reflexivity.
  - destruct (Compound_shl_simple c s) as (Hel & Hph & _).
    unfold Compound_any_placeholder. rewrite Hph, Hel, existsb_app. cbn.
    rewrite IH, (Simple_built_has_placeholder s Hs), orb_false_r.
    apply orb_comm.
Qed.

(** On compound selectors built by the constructor and [operator<<] the flag
    agrees with the search that [contains_placeholder()] makes. *)
Lemma Compound_built_elements (c : Compound_Selector) :
  Compound_built c -> Forall Simple_built (elements_ (Compound_vec c)).
Proof.
  induction 1 as [pstate h0|c s Hc IH Hs]; [constructor|].
  destruct (Compound_shl_simple c s) as (-> & _).
  apply Forall_app. split; [done|]. by constructor.
Qed.

Lemma Compound_built_contains_placeholder (c : Compound_Selector) :
  Compound_built c ->
  Compound_contains_placeholder c = Compound_has_placeholder c.
Proof.
  intros Hc. rewrite (Compound_built_has_placeholder c Hc).
  unfold Compound_contains_placeholder, Compound_any_placeholder.
  induction (Compound_built_elements c Hc) as [|s l Hs Hl IH]; [done|].
  cbn [existsb]. by rewrite IH, (Simple_built_has_placeholder s Hs).
Qed.




(** A ruleset with no alternative at all is invisible. *)
Example Ruleset_is_invisible_empty_list :
  Ruleset_is_invisible
    (Ruleset_ctor no_pstate (Some (Sel_List (Selector_List_ctor no_pstate 0))) None)
  = Some true.
Proof. reflexivity. Qed.

(** ** Prepending to a source map *)

Lemma prepend_check_None (size : Offset) (ms : list Mapping) :
  existsb (exceeds size) ms = false -> prepend_check size ms = None.
Proof.
  induction ms as [|m ms IH]; cbn [existsb prepend_check]; [done|].
  unfold exceeds at 1. intros Hex.
  apply orb_false_iff in Hex as [Hm Hms].
  apply orb_false_iff in Hm as [Hline Hcol].
  rewrite Hline, Hcol. by apply IH.
Qed.

Lemma prepend_check_Some (size : Offset) (ms : list Mapping) :
  existsb (exceeds size) ms = true -> is_Some (prepend_check size ms).
Proof.
  induction ms as [|m ms IH]; cbn [existsb prepend_check]; [done|].
  unfold exceeds at 1. intros Hex.
  destruct (off_line size <? line (generated_position m)); [by eexists|].
  destruct ((line (generated_position m) =? off_line size)
            && (off_column size <? column (generated_position m)));
    [by eexists|].
  by apply IH.
Qed.

(** Shifting by the zero offset changes nothing. *)
Lemma prepend_shift_zero (offset : Offset) (m : Mapping) :
  off_line offset = 0 -> off_column offset = 0 -> size_t_Mapping m ->
  prepend_shift offset m = m.
Proof.
  intros Hl Hc [Hline Hcol]. unfold prepend_shift. rewrite Hl, Hc, !Z.add_0_r.
  rewrite !to_size_t_small by assumption.
  destruct m as [o [f l c]]. cbn. by destruct (l =? 0).
Qed.

Lemma prepend_Offset_mappings (offset : Offset) (self : SourceMap) :
  Forall size_t_Mapping (mappings self) ->
  mappings (prepend_Offset offset self) = map (prepend_shift offset) (mappings self).
Proof.
  intros Hwf. unfold prepend_Offset. cbn [mappings].
  destruct (Z.eqb_spec (off_line offset) 0) as [Hl|Hl]; [|done].
  destruct (Z.eqb_spec (off_column offset) 0) as [Hc|Hc]; [|done].
  cbn [negb orb]. induction Hwf as [|m ms Hm Hms IH]; [done|].
  cbn [map]. by rewrite <- IH, prepend_shift_zero.
Qed.

(** What the shift does to one mapping. *)
Lemma prepend_shift_fields (offset : Offset) (m : Mapping) :
  original_position (prepend_shift offset m) = original_position m /\
  file (generated_position (prepend_shift offset m)) = file (generated_position m) /\
  line (generated_position (prepend_shift offset m))
    = to_size_t (line (generated_position m) + off_line offset) /\
  column (generated_position (prepend_shift offset m))
    = (if line (generated_position m) =? 0
       then to_size_t (column (generated_position m) + off_column offset)
       else column (generated_position m)).
Proof. repeat split. Qed.

(** C5: [prepend(B)] throws, leaving the source map as it was, exactly when a
    mapping of [B] lies beyond [B]'s current position; otherwise it returns
    with [B]'s mappings in front of the shifted mappings of the source map,
    where the shift by the offset of [B]'s text adds the line delta to every
    generated line and the column delta to the columns of the mappings on
    generated line 0. *)
Theorem prepend_OutputBuffer_spec :
  forall (Offset_of : string -> Offset) (out : OutputBuffer) (self : SourceMap),
    Forall size_t_Mapping (mappings self) ->
    let size := Offset_of_Position (current_position (smap out)) in
    let offset := Offset_of (buffer out) in
    (existsb (exceeds size) (mappings (smap out)) = true ->
     exists what, prepend_OutputBuffer Offset_of out self = (Thrown what, self)) /\
    (existsb (exceeds size) (mappings (smap out)) = false ->
     fst (prepend_OutputBuffer Offset_of out self) = Returned /\
     mappings (snd (prepend_OutputBuffer Offset_of out self))
       = mappings (smap out) ++ map (prepend_shift offset) (mappings self) /\
     (forall m : Mapping,
         original_position (prepend_shift offset m) = original_position m /\
         line (generated_position (prepend_shift offset m))
           = to_size_t (line (generated_position m) + off_line offset) /\
         column (generated_position (prepend_shift offset m))
           = (if line (generated_position m) =? 0
              then to_size_t (column (generated_position m) + off_column offset)
              else column (generated_position m)))).
Proof.
  intros Offset_of out self Hwf size offset. split.
  - intros Hex. unfold prepend_OutputBuffer. fold size.
    destruct (prepend_check_Some size _ Hex) as [what ->]. by exists what.
  - intros Hex. unfold prepend_OutputBuffer. fold size.
    rewrite (prepend_check_None size _ Hex). cbn [fst snd mappings].
    split; [done|]. split.
    + unfold VECTOR_UNSHIFT. by rewrite prepend_Offset_mappings.
    + intros m. by repeat split.
Qed.

Lemma sample_map_size_t : Forall size_t_Mapping (mappings sample_map).
Proof.
  repeat constructor; unfold is_size_t, size_t_bits; cbn; lia.
Defined.

Lemma prepend_OutputBuffer_spec_witness :
  Forall size_t_Mapping (mappings sample_map) /\
  mappings (snd (prepend_OutputBuffer Offset_of_string sample_buffer sample_map))
  = [mkMapping (mkPosition 0 4 2) (mkPosition 0 0 1);
     mkMapping (mkPosition 0 0 0) (mkPosition 0 1 4);
     mkMapping (mkPosition 0 1 0) (mkPosition 0 2 2)].
Proof.
  split; [exact sample_map_size_t|].
  destruct (prepend_OutputBuffer_spec Offset_of_string sample_buffer sample_map
              sample_map_size_t) as [_ Hok].
  destruct (Hok eq_refl) as (_ & Hmappings & _).
  rewrite Hmappings. reflexivity.
Defined.

(** A buffer with a mapping beyond its end is refused, and nothing changes. *)
Example prepend_overlong_buffer :
  prepend_OutputBuffer Offset_of_string overlong_buffer sample_map
  = (Thrown "prepend sourcemap has illegal column", sample_map).
Proof. reflexivity. Qed.

(** The current position moves like a mapping does. *)
Lemma prepend_Offset_current_position (offset : Offset) (self : SourceMap) :
  let p := current_position self in
  current_position (prepend_Offset offset self)
  = mkPosition (file p) (to_size_t (line p + off_line offset))
      (if line p =? 0 then to_size_t (column p + off_column offset) else column p).
Proof. reflexivity. Qed.

(** ** Comparing selectors by their text *)

Lemma Ascii_compare_refl (x : ascii) : Ascii.compare x x = Eq.
Proof. unfold Ascii.compare. apply N.compare_refl. Qed.

Lemma Ascii_compare_lt_trans (x y z : ascii) :
  Ascii.compare x y = Lt -> Ascii.compare y z = Lt -> Ascii.compare x z = Lt.
Proof.
  unfold Ascii.compare. rewrite !N.compare_lt_iff. apply N.lt_trans.
Qed.

Lemma String_compare_refl (a : string) : String.compare a a = Eq.
Proof.
  induction a as [|x a IH]; cbn [String.compare]; [done|].
  by rewrite Ascii_compare_refl.
Qed.

Lemma String_compare_lt_trans (a b c : string) :
  String.compare a b = Lt -> String.compare b c = Lt -> String.compare a c = Lt.
Proof.
  revert b c. induction a as [|x a IH]; intros [|y b] [|z c];
    cbn [String.compare]; try done.
  destruct (Ascii.compare x y) eqn:Hxy, (Ascii.compare y z) eqn:Hyz;
    try done; intros H1 H2.
  - apply Ascii.compare_eq_iff in Hxy as ->. rewrite Hyz. by apply (IH b c).
  - apply Ascii.compare_eq_iff in Hxy as ->. by rewrite Hyz.
  - apply Ascii.compare_eq_iff in Hyz as <-. by rewrite Hxy.
  - by rewrite (Ascii_compare_lt_trans x y z).
Qed.

Lemma equivalent_text (a b : Complex_Selector) :
  equivalent Complex_lt_text a b = true <-> Complex_text a = Complex_text b.
Proof.
  unfold equivalent, Complex_lt_text, String.ltb.
  rewrite (String.compare_antisym (Complex_text b) (Complex_text a)).
  split.
  - destruct (String.compare (Complex_text a) (Complex_text b)) eqn:Hc;
      cbn; try done.
    intros _. by apply String.compare_eq_iff.
  - intros ->. by rewrite String_compare_refl.
Qed.

Lemma Complex_lt_text_StrictWeakOrder : StrictWeakOrder Complex_lt_text.
Proof.
  split.
  - intros a. unfold Complex_lt_text, String.ltb. by rewrite String_compare_refl.
  - intros a b c. unfold Complex_lt_text, String.ltb.
    destruct (String.compare (Complex_text a) (Complex_text b)) eqn:Hab; try done.
    destruct (String.compare (Complex_text b) (Complex_text c)) eqn:Hbc; try done.
    intros _ _. by rewrite (String_compare_lt_trans _ _ _ Hab Hbc).
  - intros a b c. rewrite !equivalent_text. congruence.
Qed.

(** ** Naive trim *)

Section NaiveTrimFacts.
Variable lt : Complex_Selector -> Complex_Selector -> bool.

Lemma equivalent_sym (a b : Complex_Selector) :
  equivalent lt a b = equivalent lt b a.
Proof. unfold equivalent. apply andb_comm. Qed.

Lemma has_equivalent_true (s : Complex_Selector) (l : list Node) :
  has_equivalent lt s l = true <->
  exists lf e, In (Node_Selector lf e) l /\ equivalent lt e s = true.
Proof.
  unfold has_equivalent. rewrite existsb_exists. split.
  - intros ([k|lf e|lf c|lf] & Hin & Heq); try done. eauto.
  - intros (lf & e & Hin & Heq). exists (Node_Selector lf e). eauto.
Qed.

Lemma SourcesSet_find_Some (x : Complex_Selector) (s : SourcesSet) :
  is_Some (SourcesSet_find lt x s) <->
  exists e, In e s /\ equivalent lt e x = true.
Proof.
  unfold SourcesSet_find. split.
  - intros [e He]. apply find_some in He. eauto.
  - intros (e & Hin & Heq).
    destruct (find (fun e0 => equivalent lt e0 x) s) eqn:Hf; [by eexists|].
    apply (find_none _ _ Hf) in Hin. congruence.
Qed.

Lemma insert_ordered_In (x e : Complex_Selector) (s : SourcesSet) :
  In e (insert_ordered lt x s) <-> e = x \/ In e s.
Proof.
  induction s as [|y s IH]; cbn.
  - intuition.
  - destruct (lt x y); cbn; rewrite ?IH; intuition.
Qed.

Lemma fold_left_rev_visit {A B : Type} (g : B -> A -> B) (l : list A) (i : B) :
  fold_left g (rev l) i = fold_right (fun x y => g y x) i l.
Proof.
  induction l as [|x l IH]; cbn; [done|].
  by rewrite fold_left_app, IH.
Qed.

Lemma fold_left_push_back (l acc : list Node) (lf : bool) :
  fold_left (fun result n =>
               match result with
               | Node_Collection lf' l' => Node_Collection lf' (l' ++ [n])
               | other => other
               end) l (Node_Collection lf acc)
  = Node_Collection lf (acc ++ l).
Proof.
  revert acc. induction l as [|n l IH]; intros acc; cbn.
  - by rewrite app_nil_r.
  - rewrite IH. by rewrite <- app_assoc.
Qed.

(** The state of the first loop after it has walked the list [l] from its
    back: [res], read backwards, is [keep_last_kept], and [sel_set] holds the
    selectors of the nodes in [res]. *)
Lemma naiveTrim_visit_invariant (l : list Node) :
  let st := fold_right (fun n st => naiveTrim_visit lt st n) ([], []) l in
  rev st.2 = keep_last_kept lt l /\
  (forall e, In e st.1 <-> exists lf, In (Node_Selector lf e) st.2).
Proof.
  induction l as [|n l IH]; cbn [fold_right].
  - split; [done|]. intros e. cbn. split; [done|]. by intros [? ?].
  - destruct (fold_right (fun n st => naiveTrim_visit lt st n) ([], []) l)
      as [sel_set res]. cbn [fst snd] in IH. destruct IH as [Hres Hset].
    assert (Hother : forall n', isSelector n' = false ->
              rev (res ++ [n']) = n' :: keep_last_kept lt l /\
              (forall e, In e sel_set <->
                         exists lf, In (Node_Selector lf e) (res ++ [n']))).
    { intros n' Hn'. split; [by rewrite rev_unit, Hres|].
      intros e. rewrite Hset. split; intros [lf Hin]; exists lf.
      - apply in_or_app. by left.
      - apply in_app_or in Hin as [Hin|[->|[]]]; done. }
    destruct n as [lf k|lf s|lf c|lf]; cbn [naiveTrim_visit keep_last_kept fst snd];
      try (by apply Hother).
    assert (Hfind : is_Some (SourcesSet_find lt s sel_set)
                    <-> has_equivalent lt s (keep_last_kept lt l) = true).
    { rewrite SourcesSet_find_Some, has_equivalent_true, <- Hres. split.
      - intros (e & Hin & Heq). apply Hset in Hin as [lf' Hin].
        exists lf', e. split; [|done]. by apply in_rev in Hin.
      - intros (lf' & e & Hin & Heq). exists e. split; [|done].
        apply Hset. exists lf'. by apply in_rev. }
    destruct (SourcesSet_find lt s sel_set) as [e|] eqn:Hf.
    + cbn [fst snd].
      replace (has_equivalent lt s (keep_last_kept lt l)) with true
        by (symmetry; apply Hfind; by eexists).
      by split.
    + cbn [fst snd].
      destruct (has_equivalent lt s (keep_last_kept lt l)) eqn:Hhe.
      { destruct Hfind as [_ Hback]. destruct (Hback eq_refl) as [? [=]]. }
      split; [by rewrite rev_unit, Hres|].
      intros e. unfold SourcesSet_insert. rewrite Hf, insert_ordered_In, Hset.
      split.
      * intros [->|[lf' Hin]].
        -- exists lf. apply in_or_app. right. by left.
        -- exists lf'. apply in_or_app. by left.
      * intros [lf' Hin]. apply in_app_or in Hin as [Hin|[[= _ ->]|[]]].
        -- right. by exists lf'.
        -- by left.
Qed.

(** The result of [naiveTrim] on a collection. *)
Lemma naiveTrim_keep_last_kept (lf : bool) (deque : list Node) :
  naiveTrim lt (Node_Collection lf deque)
  = Some (Node_Collection false (keep_last_kept lt deque)).
Proof.
  unfold naiveTrim. cbn [collection]. rewrite fold_left_rev_visit.
  pose proof (naiveTrim_visit_invariant deque) as [Hres _].
  destruct (fold_right (fun x y => naiveTrim_visit lt y x) ([], []) deque)
    as [sel_set res]. cbn [snd] in Hres.
  unfold createCollection. by rewrite fold_left_push_back, Hres.
Qed.

Hypothesis lt_swo : StrictWeakOrder lt.

(** Testing against the entries kept so far or against all later entries
    makes no difference. *)
Lemma has_equivalent_keep_last_kept (s : Complex_Selector) (l : list Node) :
  has_equivalent lt s (keep_last_kept lt l) = has_equivalent lt s l.
Proof using lt_swo.
  induction l as [|n l IH]; [done|].
  destruct n as [lf k|lf e|lf c|lf]; cbn [keep_last_kept];
    try (unfold has_equivalent in *; cbn [existsb]; by rewrite IH).
  destruct (has_equivalent lt e (keep_last_kept lt l)) eqn:He.
  - rewrite IH. unfold has_equivalent at 2. cbn [existsb].
    fold (has_equivalent lt s l).
    destruct (equivalent lt e s) eqn:Hes; [|done]. cbn [orb].
    rewrite <- IH. apply has_equivalent_true.
    apply has_equivalent_true in He as (lf' & e' & Hin & Heq).
    exists lf', e'. split; [done|].
    by apply (equivalent_trans lt lt_swo e' e s).
  - unfold has_equivalent in *. cbn [existsb]. by rewrite IH.
Qed.

Lemma keep_last_kept_keep_last (l : list Node) :
  keep_last_kept lt l = keep_last lt l.
Proof using lt_swo.
  induction l as [|n l IH]; [done|].
  destruct n as [lf k|lf e|lf c|lf]; cbn [keep_last_kept keep_last];
    rewrite ?has_equivalent_keep_last_kept, IH; reflexivity.
Qed.

Lemma keep_last_sublist (l : list Node) : sublist (keep_last lt l) l.
Proof.
  induction l as [|n l IH]; [constructor|].
  destruct n as [lf k|lf e|lf c|lf]; cbn [keep_last];
    try (by apply sublist_skip); try (by constructor).
  destruct (has_equivalent lt e l); [by apply sublist_cons | by apply sublist_skip].
Qed.

Lemma keep_last_non_selectors (l : list Node) :
  List.filter (fun n => negb (isSelector n)) (keep_last lt l)
  = List.filter (fun n => negb (isSelector n)) l.
Proof.
  induction l as [|n l IH]; [done|].
  destruct n as [lf k|lf e|lf c|lf]; cbn [keep_last];
    try (cbn; by rewrite IH).
  destruct (has_equivalent lt e l); cbn; by rewrite IH.
Qed.

Lemma keep_last_representative (l : list Node) (lf : bool) (s : Complex_Selector) :
  In (Node_Selector lf s) l -> has_equivalent lt s (keep_last lt l) = true.
Proof using lt_swo.
  intros Hin. rewrite <- keep_last_kept_keep_last, has_equivalent_keep_last_kept.
  apply has_equivalent_true. exists lf, s. split; [done|].
  unfold equivalent. by rewrite (lt_irrefl lt lt_swo s).
Qed.

(** No selector that is kept has an equivalent further back in the result. *)
Lemma keep_last_distinct (l : list Node) : distinct_selectors lt (keep_last lt l).
Proof using lt_swo.
  induction l as [|n l IH]; [done|].
  destruct n as [lf k|lf e|lf c|lf]; cbn [keep_last]; try (by split).
  destruct (has_equivalent lt e l) eqn:He; [done|].
  split; [|done].
  by rewrite <- keep_last_kept_keep_last, has_equivalent_keep_last_kept.
Qed.

End NaiveTrimFacts.

(** C4 (as amended): on a collection, [naiveTrim] walks the entries back to
    front and skips a selector exactly when a selector equivalent to it (under
    the ordering of [SourcesSet]) comes later in the list; it returns a new
    collection with the kept entries in their original relative order, keeps
    every entry that is not a selector, keeps for every selector of the input
    a selector equivalent to it, and keeps no two equivalent selectors. *)
Theorem naiveTrim_keeps_last_of_each_class :
  forall lt : Complex_Selector -> Complex_Selector -> bool,
    StrictWeakOrder lt ->
    forall (lf : bool) (deque : list Node),
      naiveTrim lt (Node_Collection lf deque)
        = Some (Node_Collection false (keep_last lt deque)) /\
      sublist (keep_last lt deque) deque /\
      List.filter (fun n => negb (isSelector n)) (keep_last lt deque)
        = List.filter (fun n => negb (isSelector n)) deque /\
      (forall (lf' : bool) (s : Complex_Selector),
          In (Node_Selector lf' s) deque ->
          has_equivalent lt s (keep_last lt deque) = true) /\
      distinct_selectors lt (keep_last lt deque).
Proof.
  intros lt Hswo lf deque. split; [|split; [|split; [|split]]].
  - rewrite naiveTrim_keep_last_kept. by rewrite keep_last_kept_keep_last.
  - apply keep_last_sublist.
  - apply keep_last_non_selectors.
  - intros lf' s. by apply keep_last_representative.
  - by apply keep_last_distinct.
Qed.

Lemma naiveTrim_keeps_last_of_each_class_witness :
  StrictWeakOrder Complex_lt_text /\
  naiveTrim Complex_lt_text
    (createCollection_of [node_a; node_child; node_b; node_a_lf; node_child])
  = Some (createCollection_of [node_child; node_b; node_a_lf; node_child]).
Proof.
  split; [exact Complex_lt_text_StrictWeakOrder|].
  exact (proj1 (naiveTrim_keeps_last_of_each_class Complex_lt_text
                  Complex_lt_text_StrictWeakOrder false
                  [node_a; node_child; node_b; node_a_lf; node_child])).
Defined.

(** C4, counterexample: [.a] and [.b] have no sources, so the source set of
    [.a] is subsumed by that of [.b], which is kept before it; [.a] is kept
    all the same, because it is not equivalent to [.b]. *)
Lemma naiveTrim_ignores_sources :
  sources_subsumed Complex_lt_text complex_a complex_b = true /\
  naiveTrim Complex_lt_text (createCollection_of [node_a; node_b])
  = Some (createCollection_of [node_a; node_b]).
Proof. split; reflexivity. Qed.

(** A node that is not a collection has no deque to walk. *)
Example naiveTrim_not_a_collection :
  naiveTrim Complex_lt_text node_a = None /\
  naiveTrim Complex_lt_text createNil = None.
Proof. split; reflexivity. Qed.

Example naiveTrim_empty :
  naiveTrim Complex_lt_text createCollection = Some createCollection.
Proof. reflexivity. Qed.

(** ** Base64 VLQ: what is written can be read back *)

Module Base64VLQFacts.
Import Base64VLQ.

(** Every digit below 64 has a character of its own, which is neither of the
    two separators. *)
Lemma base64_table_checked :
  forallb (fun d =>
             match base64_decode (base64_encode d) with
             | Some d' => d' =? d
             | None => false
             end
             && negb (Ascii.eqb (base64_encode d) ";")
             && negb (Ascii.eqb (base64_encode d) ","))
    (map Z.of_nat (seq 0 64)) = true.
Proof. vm_compute. reflexivity. Qed.

(** The five data bits and the continuation bit of a digit. *)
Lemma group_bits_checked :
  forallb (fun g =>
             (Z.lor g VLQ_CONTINUATION_BIT =? g + 32)
             && (Z.land (g + 32) VLQ_BASE_MASK =? g)
             && Z.testbit (g + 32) VLQ_BASE_SHIFT
             && (Z.land g VLQ_BASE_MASK =? g)
             && negb (Z.testbit g VLQ_BASE_SHIFT))
    (map Z.of_nat (seq 0 32)) = true.
Proof. vm_compute. reflexivity. Qed.

Lemma in_range_seq (d : Z) (n : nat) :
  0 <= d < Z.of_nat n -> In d (map Z.of_nat (seq 0 n)).
Proof.
  intros Hd. replace d with (Z.of_nat (Z.to_nat d)) by lia.
  apply in_map, in_seq. lia.
Qed.

Lemma base64_decode_encode (d : Z) :
  0 <= d < 64 ->
  base64_decode (base64_encode d) = Some d /\
  base64_encode d <> ";"%char /\ base64_encode d <> ","%char.
Proof.
  intros Hd. pose proof base64_table_checked as Hall.
  rewrite forallb_forall in Hall.
  specialize (Hall d (in_range_seq d 64 Hd)).
  apply andb_true_iff in Hall as [Hall Hcomma].
  apply andb_true_iff in Hall as [Hdec Hsemi].
  apply negb_true_iff, Ascii.eqb_neq in Hcomma, Hsemi.
  destruct (base64_decode (base64_encode d)) as [d'|]; [|done].
  apply Z.eqb_eq in Hdec as ->. done.
Qed.

Lemma group_bits (g : Z) :
  0 <= g < 32 ->
  Z.lor g VLQ_CONTINUATION_BIT = g + 32 /\
  Z.land (g + 32) VLQ_BASE_MASK = g /\
  Z.testbit (g + 32) VLQ_BASE_SHIFT = true /\
  Z.land g VLQ_BASE_MASK = g /\
  Z.testbit g VLQ_BASE_SHIFT = false.
Proof.
  intros Hg. pose proof group_bits_checked as Hall.
  rewrite forallb_forall in Hall.
  specialize (Hall g (in_range_seq g 32 Hg)).
  repeat (apply andb_true_iff in Hall as [Hall ?]).
  repeat split; try (by apply Z.eqb_eq); try done.
  by apply negb_true_iff.
Qed.

Lemma to_vlq_signed_nonneg (n : Z) : 0 <= to_vlq_signed n.
Proof.
  destruct n as [|p|p]; vm_compute; congruence.
Qed.

Lemma from_to_vlq_signed (n : Z) : from_vlq_signed (to_vlq_signed n) = n.
Proof.
  destruct n as [|p|p]; vm_compute; reflexivity.
Qed.

End Base64VLQFacts.

(** ** Reading back what [serialize_mappings] writes *)

Section DecodeFacts.
Import Base64VLQ Base64VLQFacts.

Lemma decode_chars_app (a b : string) (st : decode_state) :
  decode_chars (a +:+ b) st
  = match decode_chars a st with
    | Some st' => decode_chars b st'
    | None => None
    end.
Proof.
  revert st. induction a as [|c a IH]; intros st; simpl.
  - done.
  - destruct (decode_char c st); [apply IH | done].
Qed.

(** A field ends the same way whatever the bits read before it were. *)
Lemma decode_field_partial (v : Z) (st : decode_state) (mode : decode_mode)
    (value shift : Z) :
  decode_field v
    {| d_mode := mode; d_value := value; d_shift := shift;
       d_fields := d_fields st;
       d_generated_line := d_generated_line st;
       d_generated_column := d_generated_column st;
       d_source_index := d_source_index st;
       d_original_line := d_original_line st;
       d_original_column := d_original_column st;
       d_entries := d_entries st |}
  = decode_field v st.
Proof. reflexivity. Qed.

(** Reading a digit character where a field may continue. *)
Lemma decode_char_digit (d : Z) (st : decode_state) :
  0 <= d < 64 -> d_mode st <> EntryDone ->
  decode_char (base64_encode d) st = Some (decode_digit d st).
Proof.
  intros Hd Hmode. destruct (base64_decode_encode d Hd) as (Hdec & Hsemi & Hcomma).
  unfold decode_char.
  apply Ascii.eqb_neq in Hsemi, Hcomma. rewrite Hsemi, Hcomma, Hdec.
  by destruct (d_mode st).
Qed.

Lemma encode_groups_S (fuel : nat) (vlq : Z) :
  encode_groups (S fuel) vlq
  = if 0 <? Z.shiftr vlq VLQ_BASE_SHIFT
    then String (base64_encode (Z.lor (Z.land vlq VLQ_BASE_MASK) VLQ_CONTINUATION_BIT))
           (encode_groups fuel (Z.shiftr vlq VLQ_BASE_SHIFT))
    else String (base64_encode (Z.land vlq VLQ_BASE_MASK)) "".
Proof. reflexivity. Qed.

Lemma decode_encode_groups (fuel : nat) :
  forall (vlq : Z) (st : decode_state),
    0 <= vlq < 32 ^ Z.of_nat (S fuel) ->
    d_mode st <> EntryDone -> 0 <= d_shift st ->
    decode_chars (encode_groups (S fuel) vlq) st
    = Some (decode_field (from_vlq_signed (d_value st + vlq * 2 ^ d_shift st)) st).
Proof.
  induction fuel as [|fuel IH]; intros vlq st Hvlq Hmode Hshift.
  - (* one group *)
    change (32 ^ Z.of_nat 1) with 32 in Hvlq.
    cbn [encode_groups]. unfold VLQ_BASE_SHIFT.
    rewrite Z.shiftr_div_pow2 by lia. change (2 ^ 5) with 32.
    rewrite Z.div_small by lia. cbn [Z.ltb Z.compare].
    destruct (group_bits vlq Hvlq) as (_ & _ & _ & Hland & Hbit).
    rewrite Hland. cbn [decode_chars].
    rewrite decode_char_digit by (done || lia).
    unfold decode_digit. rewrite Hbit, Hland.
    by rewrite Z.shiftl_mul_pow2.
  - set (g := vlq mod 32). set (vlq' := vlq / 32).
    assert (Hg : 0 <= g < 32) by (apply Z.mod_pos_bound; lia).
    assert (Hsplit : vlq = 32 * vlq' + g) by (apply Z.div_mod; lia).
    assert (Hvlq' : 0 <= vlq' < 32 ^ Z.of_nat (S fuel)).
    { split; [apply Z.div_pos; lia|].
      apply Z.div_lt_upper_bound; [lia|].
      rewrite <- Z.pow_succ_r by lia. rewrite <- Nat2Z.inj_succ. lia. }
    destruct (group_bits g Hg) as (Hlor & Hland32 & Hbit32 & Hland & Hbit).
    assert (Hdigit : Z.land vlq VLQ_BASE_MASK = g).
    { change VLQ_BASE_MASK with (Z.ones 5). rewrite Z.land_ones by lia. done. }
    assert (Hrest : Z.shiftr vlq VLQ_BASE_SHIFT = vlq').
    { unfold VLQ_BASE_SHIFT. by rewrite Z.shiftr_div_pow2 by lia. }
    rewrite encode_groups_S, Hdigit, Hrest.
    destruct (Z.ltb_spec 0 vlq') as [Hpos|Hzero].
    + (* a continuation group, then the rest *)
      rewrite Hlor. cbn [decode_chars].
      rewrite decode_char_digit by (done || lia).
      unfold decode_digit at 1. rewrite Hbit32, Hland32.
      rewrite IH; [|done|done|cbn [d_shift]; unfold VLQ_BASE_SHIFT; lia].
      cbn [d_value d_shift]. rewrite decode_field_partial.
      do 2 f_equal. rewrite Z.shiftl_mul_pow2 by done.
      unfold VLQ_BASE_SHIFT. rewrite Z.pow_add_r by lia.
      change (2 ^ 5) with 32. f_equal. clearbody g vlq'. rewrite Hsplit. ring.
    + (* the last group *)
      assert (vlq' = 0) as Hz by lia. rewrite Hz in Hsplit.
      cbn [decode_chars].
      rewrite decode_char_digit by (done || lia).
      unfold decode_digit. rewrite Hbit, Hland.
      rewrite Z.shiftl_mul_pow2 by done.
      do 3 f_equal. clearbody g vlq'. lia.
Qed.

Lemma decode_encode (n : Z) (st : decode_state) :
  d_mode st <> EntryDone -> d_value st = 0 -> d_shift st = 0 ->
  decode_chars (encode n) st = Some (decode_field n st).
Proof.
  intros Hmode Hvalue Hshift. unfold encode.
  pose proof (to_vlq_signed_nonneg n) as Hnonneg.
  rewrite decode_encode_groups; [| |done|lia].
  - rewrite Hvalue, Hshift, Z.pow_0_r, Z.mul_1_r, Z.add_0_l.
    by rewrite from_to_vlq_signed.
  - split; [done|].
    set (vlq := to_vlq_signed n) in *.
    assert (Hlog : vlq < 2 ^ Z.succ (Z.log2 vlq)).
    { destruct (Z.eq_dec vlq 0) as [->|Hne]; [done|].
      apply Z.log2_spec. lia. }
    pose proof (Z.log2_nonneg vlq) as Hl.
    rewrite Nat2Z.inj_succ, Z2Nat.id by done.
    change 32 with (2 ^ 5). rewrite <- Z.pow_mul_r by lia.
    eapply Z.lt_le_trans; [exact Hlog|].
    apply Z.pow_le_mono_r; lia.
Qed.

End DecodeFacts.

Section SerializeFacts.
Import Base64VLQ Base64VLQFacts.

(** Projections of the reader's and of the writer's state applied to a state
    that is written out. *)
Ltac reader_fields :=
  cbn [d_mode d_value d_shift d_fields d_generated_line d_generated_column
       d_source_index d_original_line d_original_column d_entries app].

Ltac writer_fields :=
  cbn [result previous_generated_line previous_generated_column
       previous_original_line previous_original_column previous_original_file].

Lemma int_difference_small (a b : Z) :
  is_nonneg_int a -> is_nonneg_int b -> int_difference a b = a - b.
Proof.
  unfold is_nonneg_int, int_bits, int_difference.
  change (2 ^ (32 - 1)) with 2147483648. intros Ha Hb.
  rewrite (to_int_small a), (to_int_small b), to_int_small;
    change (2 ^ 31) with 2147483648; lia.
Qed.

(** The four fields of an entry, read one after the other. *)
Lemma decode_entry (st : decode_state) (a b c d : Z) :
  d_mode st <> EntryDone -> d_value st = 0 -> d_shift st = 0 -> d_fields st = [] ->
  decode_chars (encode a +:+ encode b +:+ encode c +:+ encode d) st
  = Some {| d_mode := EntryDone; d_value := 0; d_shift := 0; d_fields := [];
            d_generated_line := d_generated_line st;
            d_generated_column := d_generated_column st + a;
            d_source_index := d_source_index st + b;
            d_original_line := d_original_line st + c;
            d_original_column := d_original_column st + d;
            d_entries := d_entries st ++
              [((d_generated_line st, d_generated_column st + a),
                d_source_index st + b,
                (d_original_line st + c, d_original_column st + d))] |}.
Proof.
  intros Hmode Hvalue Hshift Hfields.
  rewrite decode_chars_app, decode_encode by done.
  unfold decode_field at 1. rewrite Hfields. cbn [app].
  rewrite decode_chars_app, decode_encode by done.
  unfold decode_field at 1. reader_fields.
  rewrite decode_chars_app, decode_encode by done.
  unfold decode_field at 1. reader_fields.
  rewrite decode_encode by done.
  unfold decode_field. reader_fields.
  reflexivity.
Qed.

(** A run of semicolons moves to a later line and restarts the column. *)
Lemma decode_semicolons (n : nat) :
  forall st : decode_state,
    d_mode st <> InEntry ->
    decode_chars (string_of_char (S n) ";") st
    = Some {| d_mode := LineStart; d_value := 0; d_shift := 0; d_fields := [];
              d_generated_line := d_generated_line st + Z.of_nat (S n);
              d_generated_column := 0;
              d_source_index := d_source_index st;
              d_original_line := d_original_line st;
              d_original_column := d_original_column st;
              d_entries := d_entries st |}.
Proof.
  induction n as [|n IH]; intros st Hmode.
  - cbn [string_of_char decode_chars]. unfold decode_char.
    change (Ascii.eqb ";" ";") with true. cbv iota.
    destruct (d_mode st); done.
  - change (string_of_char (S (S n)) ";")
      with (String ";" (string_of_char (S n) ";")).
    cbn [decode_chars]. unfold decode_char at 1.
    change (Ascii.eqb ";" ";") with true. cbv iota.
    destruct (d_mode st) eqn:Hm; [|done|]; rewrite IH by done;
      cbn [d_generated_line d_source_index d_original_line d_original_column
           d_entries]; do 2 f_equal; lia.
Qed.

Lemma decode_comma (st : decode_state) :
  d_mode st = EntryDone ->
  decode_chars "," st
  = Some {| d_mode := InEntry; d_value := 0; d_shift := 0; d_fields := [];
            d_generated_line := d_generated_line st;
            d_generated_column := d_generated_column st;
            d_source_index := d_source_index st;
            d_original_line := d_original_line st;
            d_original_column := d_original_column st;
            d_entries := d_entries st |}.
Proof.
  intros Hmode. cbn [decode_chars]. unfold decode_char.
  change (Ascii.eqb "," ";") with false. change (Ascii.eqb "," ",") with true.
  cbv iota. by rewrite Hmode.
Qed.

(** One turn of the loop of [serialize_mappings], seen by the reader. *)
Lemma serialize_mapping_decodes (i : nat) (m : Mapping) (st : serialize_state)
    (entries : list decoded_mapping) :
  decode_chars (result st) decode_init
  = Some (decode_state_after (if (0 <? i)%nat then EntryDone else LineStart)
            st entries) ->
  int_serialize_state st -> int_Mapping m ->
  previous_generated_line st <= line (generated_position m) ->
  decode_chars (result (serialize_mapping i m st)) decode_init
  = Some (decode_state_after EntryDone (serialize_mapping i m st)
            (entries ++ [decoded_of_Mapping m])) /\
  int_serialize_state (serialize_mapping i m st) /\
  previous_generated_line (serialize_mapping i m st) = line (generated_position m).
Proof.
  intros Hdec (Hpgc & Hpof & Hpol & Hpoc) (Hgc & Hof & Hol & Hoc) Hle.
  assert (Hzero : is_nonneg_int 0) by (unfold is_nonneg_int, int_bits; lia).
  unfold serialize_mapping.
  destruct (Z.eqb_spec (line (generated_position m)) (previous_generated_line st))
    as [Heq|Hne]; cbn [negb].
  - (* the line of the previous mapping *)
    destruct (0 <? i)%nat eqn:Hi.
    + writer_fields.
      split; [|by split].
      rewrite decode_chars_app, decode_chars_app, Hdec, decode_comma by done.
      rewrite decode_entry by done.
      rewrite !int_difference_small by done.
      unfold decode_state_after, decoded_of_Mapping. reader_fields. writer_fields.
      by rewrite Heq, !Zplus_minus.
    + writer_fields.
      split; [|by split].
      rewrite decode_chars_app, Hdec.
      rewrite decode_entry by done.
      rewrite !int_difference_small by done.
      unfold decode_state_after, decoded_of_Mapping. reader_fields. writer_fields.
      by rewrite Heq, !Zplus_minus.
  - (* a later line *)
    destruct (Z.ltb_spec (previous_generated_line st) (line (generated_position m)))
      as [Hlt|Hge]; [|lia].
    writer_fields.
    split; [|by split].
    destruct (Z.to_nat (line (generated_position m) - previous_generated_line st))
      as [|n] eqn:Hn; [lia|].
    rewrite decode_chars_app, decode_chars_app, Hdec.
    rewrite decode_semicolons
      by (unfold decode_state_after; cbn [d_mode]; by destruct (0 <? i)%nat).
    rewrite decode_entry by done.
    rewrite !int_difference_small by done.
    unfold decode_state_after, decoded_of_Mapping. reader_fields. writer_fields.
    rewrite <- Hn, Z2Nat.id by lia. by rewrite !Zplus_minus.
Qed.

Lemma serialize_loop_decodes (ms : list Mapping) :
  forall (i : nat) (st : serialize_state) (entries : list decoded_mapping),
    decode_chars (result st) decode_init
    = Some (decode_state_after (if (0 <? i)%nat then EntryDone else LineStart)
              st entries) ->
    int_serialize_state st -> Forall int_Mapping ms ->
    generated_lines_ascend (previous_generated_line st) ms ->
    decode_chars (result (serialize_loop i ms st)) decode_init
    = Some (decode_state_after
              (if (0 <? i + length ms)%nat then EntryDone else LineStart)
              (serialize_loop i ms st)
              (entries ++ map decoded_of_Mapping ms)).
Proof.
  induction ms as [|m ms IH]; intros i st entries Hdec Hst Hms Hasc.
  - cbn [serialize_loop map length]. by rewrite Nat.add_0_r, app_nil_r.
  - cbn [serialize_loop map length].
    apply Forall_cons in Hms as [Hm Hms]. destruct Hasc as [Hle Hasc].
    destruct (serialize_mapping_decodes i m st entries Hdec Hst Hm Hle)
      as (Hdec' & Hst' & Hline).
    specialize (IH (S i) (serialize_mapping i m st)
                  (entries ++ [decoded_of_Mapping m])).
    rewrite IH; [| exact Hdec' | exact Hst' | exact Hms | by rewrite Hline].
    replace (0 <? S i + length ms)%nat with true
      by (symmetry; apply Nat.ltb_lt; lia).
    replace (0 <? i + S (length ms))%nat with true
      by (symmetry; apply Nat.ltb_lt; lia).
    by rewrite <- app_assoc.
Qed.

End SerializeFacts.

(** C1 (as amended): when the generated lines of the mappings never go back
    and the generated column, the file index and the original line and column
    of every mapping fit a non-negative [int], whatever the generated lines
    are, the string [serialize_mappings] writes, read as lines separated by [;],
    entries separated by [,] and four Base64-VLQ deltas per entry (generated
    column, source index, original line, original column; the generated
    column restarting at 0 on every line), gives back the mappings in order:
    generated position, source index, original position. *)
Theorem serialize_mappings_roundtrip :
  forall self : SourceMap,
    Forall int_Mapping (mappings self) ->
    generated_lines_ascend 0 (mappings self) ->
    decode_mappings (serialize_mappings self)
    = Some (map decoded_of_Mapping (mappings self)).
Proof.
  intros self Hint Hasc.
  unfold decode_mappings, serialize_mappings.
  rewrite (serialize_loop_decodes (mappings self) 0 serialize_init []).
  - cbn [decode_state_after d_mode d_entries app].
    by destruct (0 <? 0 + length (mappings self))%nat.
  - reflexivity.
  - unfold int_serialize_state, is_nonneg_int, int_bits. cbn. lia.
  - exact Hint.
  - exact Hasc.
Qed.

Lemma three_mappings_int : Forall int_Mapping three_mappings.
Proof.
  repeat constructor; unfold is_nonneg_int, int_bits; cbn; lia.
Defined.

Lemma three_mappings_ascend : generated_lines_ascend 0 three_mappings.
Proof. cbn. lia. Defined.

Lemma mapping_on_a_far_line_int : Forall int_Mapping mapping_on_a_far_line.
Proof.
  repeat constructor; unfold is_nonneg_int, int_bits; cbn; lia.
Defined.

Lemma mapping_on_a_far_line_ascend : generated_lines_ascend 0 mapping_on_a_far_line.
Proof. cbn. lia. Defined.

Lemma serialize_mappings_roundtrip_witness :
  (Forall int_Mapping three_mappings /\
   generated_lines_ascend 0 three_mappings /\
   decode_mappings (serialize_mappings (SourceMap_of three_mappings))
   = Some [((0, 0), 0, (0, 0)); ((0, 8), 0, (0, 11)); ((2, 4), 1, (3, 2))]) /\
  (Forall int_Mapping mapping_on_a_far_line /\
   generated_lines_ascend 0 mapping_on_a_far_line /\
   decode_mappings (serialize_mappings (SourceMap_of mapping_on_a_far_line))
   = Some [((2 ^ 31, 0), 0, (0, 0))]).
Proof.
  split.
  - split; [exact three_mappings_int|]. split; [exact three_mappings_ascend|].
    exact (serialize_mappings_roundtrip (SourceMap_of three_mappings)
             three_mappings_int three_mappings_ascend).
  - split; [exact mapping_on_a_far_line_int|].
    split; [exact mapping_on_a_far_line_ascend|].
    exact (serialize_mappings_roundtrip (SourceMap_of mapping_on_a_far_line)
             mapping_on_a_far_line_int mapping_on_a_far_line_ascend).
Defined.

(** The text written for the three mappings: two entries on the first line,
    an empty line, one entry on the third. *)
Example serialize_three_mappings :
  serialize_mappings (SourceMap_of three_mappings) = "AAAA,QAAW;;ICGT".
Proof. vm_compute. reflexivity. Qed.

(** C1, counterexample.  When the generated line goes back, the second entry
    follows the first without a separator and the string cannot be read; a
    generated column of [2^32] is written as the delta 0, so the mapping read
    back is not the one that was appended; and each of the four values that
    are converted to [int] is read back as [-2^31] when it is [2^31]. *)
Lemma serialize_mappings_roundtrip_fails :
  (serialize_mappings (SourceMap_of mappings_out_of_order) = ";AAAAAAAA" /\
   decode_mappings (serialize_mappings (SourceMap_of mappings_out_of_order)) = None) /\
  (serialize_mappings (SourceMap_of mapping_beyond_int) = "AAAA" /\
   decode_mappings (serialize_mappings (SourceMap_of mapping_beyond_int))
     = Some [((0, 0), 0, (0, 0))] /\
   map decoded_of_Mapping mapping_beyond_int = [((0, 4294967296), 0, (0, 0))]) /\
  (map (fun m => decode_mappings (serialize_mappings (SourceMap_of [m])))
     mappings_at_int_limit
   = [Some [((0, - 2 ^ 31), 0, (0, 0))]; Some [((0, 0), - 2 ^ 31, (0, 0))];
      Some [((0, 0), 0, (- 2 ^ 31, 0))]; Some [((0, 0), 0, (0, - 2 ^ 31))]] /\
   map decoded_of_Mapping mappings_at_int_limit
   = [((0, 2 ^ 31), 0, (0, 0)); ((0, 0), 2 ^ 31, (0, 0));
      ((0, 0), 0, (2 ^ 31, 0)); ((0, 0), 0, (0, 2 ^ 31))]).
Proof. repeat split; vm_compute; reflexivity. Qed.

(** Negative deltas and deltas of more than one group. *)
Example Base64VLQ_encode_examples :
  Base64VLQ.encode 0 = "A" /\ Base64VLQ.encode 1 = "C" /\
  Base64VLQ.encode (-1) = "D" /\ Base64VLQ.encode 15 = "e" /\
  Base64VLQ.encode 16 = "gB" /\ Base64VLQ.encode (-16) = "hB" /\
  Base64VLQ.encode 1000 = "w+B".
Proof. repeat split. Qed.

(** The null append on the containers the sources derive from [Vectorized]:
    compound selectors, selector lists (whatever their hook does) and value
    lists. *)
Corollary containers_shl_null
    (c : Compound_Selector) (l : Selector_List) (v : List_)
    (hook : Complex_Selector -> Selector_List -> Selector_List) :
  Vectorized_shl c None = c /\
  @Vectorized_shl _ _ (Selector_List_Vectorized hook) l None = l /\
  Vectorized_shl v None = v.
Proof. repeat split. Qed.

(** Conversely, a selector is skipped for having the same text as a kept one
    even when its sources are not among the kept one's. *)
Example naiveTrim_skips_equal_text :
  sources_subsumed Complex_lt_text complex_a_from_b complex_a = false /\
  naiveTrim Complex_lt_text
    (createCollection_of [Node_Selector false complex_a_from_b; node_a])
  = Some (createCollection_of [node_a]).
Proof. split; reflexivity. Qed.

(** ** The order in which a source map receives its mappings *)

Lemma generated_lines_ascend_app (ms : list Mapping) (m : Mapping) :
  forall previous : Z,
    generated_lines_ascend previous ms ->
    Forall (fun m' => line (generated_position m') <= line (generated_position m)) ms ->
    previous <= line (generated_position m) ->
    generated_lines_ascend previous (ms ++ [m]).
Proof.
  induction ms as [|m' ms IH]; intros previous Hasc Hall Hle; cbn.
  - done.
  - destruct Hasc as [Hp Hasc]. apply Forall_cons in Hall as [Hm' Hall].
    split; [done|]. by apply IH.
Qed.

(** [add_open_mapping] appends at the current position: as long as no mapping
    lies on a line after the current one, the generated lines keep
    ascending. *)
Lemma add_open_mapping_ascend (pstate : ParserState) (self : SourceMap) :
  generated_lines_ascend 0 (mappings self) ->
  Forall (fun m => line (generated_position m) <= line (current_position self))
    (mappings self) ->
  0 <= line (current_position self) ->
  generated_lines_ascend 0 (mappings (add_open_mapping pstate self)).
Proof.
  intros Hasc Hall Hline. unfold add_open_mapping. cbn [mappings].
  by apply generated_lines_ascend_app.
Qed.

(** * Further properties of the code *)

(** ** Source maps: [remap], [prepend] and [serialize_mappings] *)

Lemma remap_loop_app (ms1 ms2 : list Mapping) (pstate : ParserState) :
  remap_loop (ms1 ++ ms2) pstate
  = if existsb (remap_matches pstate) ms1 then remap_loop ms1 pstate
    else remap_loop ms2 pstate.
Proof.
  induction ms1 as [|m ms1 IH]; cbn [app remap_loop existsb]; [done|].
  by destruct (remap_matches pstate m).
Qed.

(** X1: [remap] answers with the original position of the first mapping whose
    generated position is the position asked for, keeping the path, the source
    and the offset of the state asked about; when no mapping has that
    generated position it answers with position [(2^64-1, 2^64-1, 2^64-1)] and
    offset [(0, 0)]. *)
Theorem remap_first_match_or_minus_one :
  forall (self : SourceMap) (pstate : ParserState),
    (exists (i : nat) (m : Mapping),
        mappings self !! i = Some m /\
        remap_matches pstate m = true /\
        (forall (j : nat) (m' : Mapping),
            (j < i)%nat -> mappings self !! j = Some m' ->
            remap_matches pstate m' = false) /\
        remap self pstate
        = mkParserState (path pstate) (src pstate) (original_position m)
            (offset pstate))
    \/ (Forall (fun m => remap_matches pstate m = false) (mappings self) /\
        remap self pstate
        = mkParserState (path pstate) (src pstate)
            (mkPosition (2 ^ 64 - 1) (2 ^ 64 - 1) (2 ^ 64 - 1)) (mkOffset 0 0)).
Proof.
  intros self pstate. unfold remap.
  induction (mappings self) as [|m ms IH]; cbn [remap_loop].
  - right. split; [constructor|reflexivity].
  - destruct (remap_matches pstate m) eqn:Hm.
    + left. exists 0%nat, m. repeat split; [done|].
      intros j m' Hj. lia.
    + destruct IH as [(i & m0 & Hi & Hm0 & Hfirst & Hres)|[Hnone Hres]].
      * left. exists (S i), m0. repeat split; try done.
        intros [|j] m' Hj Hlook; [by injection Hlook as <-|].
        apply (Hfirst j); [lia|done].
      * right. split; [by constructor|done].
Qed.

(** X2: After [add_open_mapping(node)], a position that was mapped before is
    answered as before, and the current position, if it was not mapped, is
    answered with the position of [node]. *)
Theorem remap_add_open_mapping :
  forall (node_pstate : ParserState) (self : SourceMap) (pstate : ParserState),
    remap (add_open_mapping node_pstate self) pstate
    = if existsb (remap_matches pstate) (mappings self) then remap self pstate
      else if remap_matches pstate
                (mkMapping (position node_pstate) (current_position self))
           then mkParserState (path pstate) (src pstate) (position node_pstate)
                  (offset pstate)
           else remap self pstate.
Proof.
  intros node_pstate self pstate. unfold remap, add_open_mapping.
  cbn [mappings]. rewrite remap_loop_app.
  destruct (existsb (remap_matches pstate) (mappings self)) eqn:Hex; [done|].
  cbn [remap_loop].
  destruct (remap_matches pstate _); [done|].
  clear -Hex. induction (mappings self) as [|m ms IH]; [done|].
  cbn [existsb] in Hex. apply orb_false_iff in Hex as [Hm Hms].
  cbn [remap_loop]. rewrite Hm. by apply IH.
Qed.

(** Adding the same amount to two [size_t] values keeps them apart. *)
Lemma to_size_t_add_inj (a b c : Z) :
  is_size_t a -> is_size_t b ->
  (to_size_t (a + c) =? to_size_t (b + c)) = (a =? b).
Proof.
  unfold is_size_t, to_size_t, wrap_unsigned. set (M := 2 ^ size_t_bits).
  intros Ha Hb.
  destruct (Z.eqb_spec a b) as [->|Hne]; [apply Z.eqb_refl|].
  apply Z.eqb_neq. intros Heq. apply Hne.
  assert (HM : 0 < M) by (subst M; unfold size_t_bits; lia).
  assert (Hmod : (a - b) mod M = 0).
  { replace (a - b) with ((a + c) - (b + c)) by ring.
    by rewrite Zminus_mod, Heq, Z.sub_diag. }
  apply Z.mod_divide in Hmod as [k Hk]; [|lia].
  assert (k = 0) as ->; [|lia].
  destruct (Z_lt_le_dec k 1) as [Hk1|Hk1], (Z_lt_le_dec (-1) k) as [Hk2|Hk2];
    [lia | nia | nia | lia].
Qed.

Lemma remap_matches_shifted (offset0 : Offset) (pstate : ParserState) (m : Mapping) :
  size_t_Mapping m ->
  is_size_t (line (position pstate)) -> is_size_t (column (position pstate)) ->
  remap_matches (ParserState_shifted offset0 pstate) (prepend_shift offset0 m)
  = remap_matches pstate m.
Proof.
  intros [Hml Hmc] Hpl Hpc. unfold remap_matches, ParserState_shifted, prepend_shift.
  cbn [position generated_position file line column].
  destruct (file (generated_position m) =? file (position pstate)); [|done].
  cbn [andb]. rewrite to_size_t_add_inj by done.
  destruct (Z.eqb_spec (line (generated_position m)) (line (position pstate)))
    as [Hl|Hl]; [|done].
  cbn [andb]. rewrite Hl.
  destruct (line (position pstate) =? 0); [|done].
  by apply to_size_t_add_inj.
Qed.

(** X3: [prepend(offset)] moves the generated positions and leaves the answers
    of [remap] as they were: asking the moved source map about the moved
    position gives what the source map gave before. *)
Theorem remap_prepend_Offset :
  forall (offset0 : Offset) (self : SourceMap) (pstate : ParserState),
    Forall size_t_Mapping (mappings self) ->
    is_size_t (line (position pstate)) ->
    is_size_t (column (position pstate)) ->
    remap (prepend_Offset offset0 self) (ParserState_shifted offset0 pstate)
    = remap self pstate.
Proof.
  intros offset0 self pstate Hwf Hl Hc. unfold remap.
  rewrite prepend_Offset_mappings by done.
  induction Hwf as [|m ms Hm Hms IH]; [done|].
  cbn [map remap_loop]. rewrite remap_matches_shifted by done.
  destruct (remap_matches pstate m); [done|]. exact IH.
Qed.

Lemma remap_prepend_Offset_witness :
  Forall size_t_Mapping (mappings sample_map) /\
  ParserState_shifted (mkOffset 2 7)
    (mkParserState "a.css" "" (mkPosition 0 0 3) (mkOffset 0 1))
  = mkParserState "a.css" "" (mkPosition 0 2 10) (mkOffset 0 1) /\
  remap (prepend_Offset (mkOffset 2 7) sample_map)
    (ParserState_shifted (mkOffset 2 7)
       (mkParserState "a.css" "" (mkPosition 0 0 3) (mkOffset 0 1)))
  = mkParserState "a.css" "" (mkPosition 0 0 0) (mkOffset 0 1).
Proof.
  split; [exact sample_map_size_t|]. split; [reflexivity|].
  rewrite (remap_prepend_Offset (mkOffset 2 7) sample_map
             (mkParserState "a.css" "" (mkPosition 0 0 3) (mkOffset 0 1))
             sample_map_size_t).
  - reflexivity.
  - unfold is_size_t, size_t_bits; cbn; lia.
  - unfold is_size_t, size_t_bits; cbn; lia.
Defined.

(** X4: [prepend(B)] puts the mappings of [B] first: when it returns, [remap]
    answers a position that [B] maps as [B]'s own source map answers it, and
    any other position as the source map answers it after
    [prepend(Offset(B.buffer))]. *)
Theorem remap_prepend_OutputBuffer :
  forall (Offset_of : string -> Offset) (out : OutputBuffer) (self : SourceMap)
         (pstate : ParserState),
    fst (prepend_OutputBuffer Offset_of out self) = Returned ->
    remap (snd (prepend_OutputBuffer Offset_of out self)) pstate
    = if existsb (remap_matches pstate) (mappings (smap out))
      then remap (smap out) pstate
      else remap (prepend_Offset (Offset_of (buffer out)) self) pstate.
Proof.
  intros Offset_of out self pstate. unfold prepend_OutputBuffer.
  destruct (prepend_check _ _) as [what|]; [discriminate|]. intros _.
  unfold remap, VECTOR_UNSHIFT. cbn [snd mappings]. apply remap_loop_app.
Qed.

Lemma remap_prepend_OutputBuffer_witness :
  fst (prepend_OutputBuffer Offset_of_string sample_buffer sample_map) = Returned /\
  remap (snd (prepend_OutputBuffer Offset_of_string sample_buffer sample_map))
    (mkParserState "a.css" "" (mkPosition 0 0 1) (mkOffset 0 1))
  = mkParserState "a.css" "" (mkPosition 0 4 2) (mkOffset 0 1).
Proof.
  split; [reflexivity|].
  rewrite (remap_prepend_OutputBuffer Offset_of_string sample_buffer sample_map
             (mkParserState "a.css" "" (mkPosition 0 0 1) (mkOffset 0 1)) eq_refl).
  reflexivity.
Defined.

Lemma to_size_t_add_idemp_l (a b : Z) : to_size_t (to_size_t a + b) = to_size_t (a + b).
Proof. unfold to_size_t, wrap_unsigned. apply Zplus_mod_idemp_l. Qed.

Lemma to_size_t_add_idemp_r (a b : Z) : to_size_t (a + to_size_t b) = to_size_t (a + b).
Proof. unfold to_size_t, wrap_unsigned. apply Zplus_mod_idemp_r. Qed.

Lemma to_size_t_is_size_t (z : Z) : is_size_t (to_size_t z).
Proof.
  unfold is_size_t, to_size_t, wrap_unsigned. apply Z.mod_pos_bound.
  unfold size_t_bits. lia.
Qed.

Lemma prepend_shift_size_t (offset0 : Offset) (m : Mapping) :
  size_t_Mapping m -> size_t_Mapping (prepend_shift offset0 m).
Proof.
  intros [Hl Hc]. unfold size_t_Mapping, prepend_shift.
  cbn [generated_position line column]. split; [apply to_size_t_is_size_t|].
  destruct (line (generated_position m) =? 0); [apply to_size_t_is_size_t|done].
Qed.

Lemma Position_shift_twice (second first : Offset) (f l c : Z) :
  is_size_t l -> is_size_t (off_line first) ->
  l + off_line first < 2 ^ 64 ->
  let l1 := to_size_t (l + off_line first) in
  let c1 := if l =? 0 then to_size_t (c + off_column first) else c in
  let both := Offset_followed_by second first in
  mkPosition f (to_size_t (l1 + off_line second))
    (if l1 =? 0 then to_size_t (c1 + off_column second) else c1)
  = mkPosition f (to_size_t (l + off_line both))
      (if l =? 0 then to_size_t (c + off_column both) else c).
Proof.
  intros Hl Hf Hwrap l1 c1 both. subst l1 c1 both. unfold Offset_followed_by.
  cbn [off_line off_column].
  rewrite to_size_t_add_idemp_l, to_size_t_add_idemp_r.
  replace (l + off_line first + off_line second)
    with (l + (off_line second + off_line first)) by ring.
  f_equal.
  unfold is_size_t, size_t_bits in Hl, Hf.
  rewrite (to_size_t_small (l + off_line first))
    by (unfold is_size_t, size_t_bits; lia).
  destruct (Z.eqb_spec l 0) as [->|Hl0].
  - rewrite Z.add_0_l.
    destruct (Z.eqb_spec (off_line first) 0) as [H0|H0]; [|done].
    rewrite to_size_t_add_idemp_l, to_size_t_add_idemp_r. f_equal. ring.
  - destruct (Z.eqb_spec (l + off_line first) 0) as [H0|H0]; [lia|done].
Qed.

Lemma SourceMap_eq (a b : SourceMap) :
  source_index a = source_index b -> mappings a = mappings b ->
  current_position a = current_position b -> smap_file a = smap_file b ->
  a = b.
Proof. destruct a, b. cbn. congruence. Qed.

(** X5: Two [prepend]s in a row are one [prepend] of the joint offset, as long
    as no generated line runs past the largest [size_t]. *)
Theorem prepend_Offset_twice :
  forall (second first : Offset) (self : SourceMap),
    Forall size_t_Mapping (mappings self) ->
    is_size_t (line (current_position self)) ->
    is_size_t (off_line first) ->
    Forall (fun m => line (generated_position m) + off_line first < 2 ^ 64)
      (mappings self) ->
    line (current_position self) + off_line first < 2 ^ 64 ->
    prepend_Offset second (prepend_Offset first self)
    = prepend_Offset (Offset_followed_by second first) self.
Proof.
  intros second first self Hwf Hcp Hfirst Hwrap Hcpwrap.
  apply SourceMap_eq; [reflexivity| | |reflexivity].
  - assert (Hboth : Forall (fun m => size_t_Mapping m /\
                       line (generated_position m) + off_line first < 2 ^ 64)
                      (mappings self)) by (by apply Forall_and).
    rewrite (prepend_Offset_mappings second).
    + rewrite !prepend_Offset_mappings by done.
      rewrite List.map_map. apply List.map_ext_Forall.
      eapply Forall_impl; [exact Hboth|].
      intros [o [f l c]] [[Hl Hc] Hw]. unfold prepend_shift.
      cbn [generated_position original_position file line column] in *.
      f_equal. by apply Position_shift_twice.
    + rewrite prepend_Offset_mappings by done.
      apply Forall_map. eapply Forall_impl; [exact Hwf|].
      intros m. apply prepend_shift_size_t.
  - rewrite !prepend_Offset_current_position. cbn zeta.
    cbn [file line column]. by apply Position_shift_twice.
Qed.

Lemma prepend_Offset_twice_witness :
  Forall size_t_Mapping (mappings sample_map) /\
  prepend_Offset (mkOffset 1 4) (prepend_Offset (mkOffset 0 3) sample_map)
  = prepend_Offset (mkOffset 1 7) sample_map.
Proof.
  split; [exact sample_map_size_t|].
  refine (prepend_Offset_twice (mkOffset 1 4) (mkOffset 0 3) sample_map
            sample_map_size_t _ _ _ _).
  - unfold is_size_t, size_t_bits; cbn; lia.
  - unfold is_size_t, size_t_bits; cbn; lia.
  - repeat constructor.
  - reflexivity.
Defined.

Lemma string_app_assoc (a b c : string) : (a +:+ b) +:+ c = a +:+ (b +:+ c).
Proof.
  induction a as [|x a IH]; [reflexivity|].
  change (String x ((a +:+ b) +:+ c) = String x (a +:+ (b +:+ c))).
  by rewrite IH.
Qed.

Lemma string_app_nil_r (a : string) : a +:+ "" = a.
Proof.
  induction a as [|x a IH]; [reflexivity|].
  change (String x (a +:+ "") = String x a). by rewrite IH.
Qed.

Lemma serialize_mapping_extends (i : nat) (m : Mapping) (st : serialize_state) :
  exists piece, result (serialize_mapping i m st) = result st +:+ piece.
Proof.
  unfold serialize_mapping.
  destruct (negb (line (generated_position m) =? previous_generated_line st)).
  - destruct (previous_generated_line st <? line (generated_position m));
      cbn [result previous_generated_column previous_original_file
           previous_original_line previous_original_column];
      rewrite ?string_app_assoc; by eexists.
  - destruct (0 <? i)%nat;
      cbn [result previous_generated_column previous_original_file
           previous_original_line previous_original_column];
      rewrite ?string_app_assoc; by eexists.
Qed.

Lemma serialize_loop_snoc (ms : list Mapping) (m : Mapping) :
  forall (i : nat) (st : serialize_state),
    serialize_loop i (ms ++ [m]) st
    = serialize_mapping (i + length ms) m (serialize_loop i ms st).
Proof.
  induction ms as [|m' ms IH]; intros i st; cbn [app serialize_loop length].
  - by rewrite Nat.add_0_r.
  - rewrite IH. f_equal. lia.
Qed.

(** X6: What [serialize_mappings] has written for the mappings recorded so far
    stays as it is when further mappings are recorded with [add_open_mapping]:
    the new string is the old one followed by more. *)
Theorem serialize_mappings_add_open_mapping :
  forall (nodes : list ParserState) (self : SourceMap),
    exists suffix : string,
      serialize_mappings (fold_left (fun s node => add_open_mapping node s) nodes self)
      = serialize_mappings self +:+ suffix.
Proof.
  induction nodes as [|node nodes IH]; intros self; cbn [fold_left].
  - exists "". by rewrite string_app_nil_r.
  - destruct (IH (add_open_mapping node self)) as [suffix ->].
    unfold serialize_mappings, add_open_mapping. cbn [mappings].
    rewrite serialize_loop_snoc.
    destruct (serialize_mapping_extends (0 + length (mappings self))
                (mkMapping (position node) (current_position self))
                (serialize_loop 0 (mappings self) serialize_init)) as [piece ->].
    exists (piece +:+ suffix). by rewrite string_app_assoc.
Qed.

(** ** Nodes: trimming, comparing and joining *)

Lemma keep_last_distinct_id (lt : Complex_Selector -> Complex_Selector -> bool)
    (l : list Node) :
  distinct_selectors lt l -> keep_last lt l = l.
Proof.
  induction l as [|n l IH]; [done|]. intros [Hn Hl].
  destruct n as [lf k|lf e|lf c|lf]; cbn [keep_last]; rewrite ?Hn, (IH Hl); done.
Qed.

(** X7: Trimming a second time changes nothing: the result of [naiveTrim] is a
    collection that [naiveTrim] returns as it is. *)
Theorem naiveTrim_idempotent :
  forall lt : Complex_Selector -> Complex_Selector -> bool,
    StrictWeakOrder lt ->
    forall seqses trimmed : Node,
      naiveTrim lt seqses = Some trimmed ->
      naiveTrim lt trimmed = Some trimmed.
Proof.
  intros lt Hswo seqses trimmed Htrim.
  destruct seqses as [lf k|lf e|lf deque|lf]; try discriminate Htrim.
  rewrite naiveTrim_keep_last_kept in Htrim. injection Htrim as <-.
  rewrite naiveTrim_keep_last_kept. do 2 f_equal.
  rewrite !keep_last_kept_keep_last by done.
  apply keep_last_distinct_id. by apply keep_last_distinct.
Qed.

Lemma naiveTrim_idempotent_witness :
  StrictWeakOrder Complex_lt_text /\
  naiveTrim Complex_lt_text
    (createCollection_of [node_a; node_child; node_b; node_a_lf; node_child])
  = Some (createCollection_of [node_child; node_b; node_a_lf; node_child]) /\
  naiveTrim Complex_lt_text
    (createCollection_of [node_child; node_b; node_a_lf; node_child])
  = Some (createCollection_of [node_child; node_b; node_a_lf; node_child]).
Proof.
  split; [exact Complex_lt_text_StrictWeakOrder|]. split; [reflexivity|].
  exact (naiveTrim_idempotent Complex_lt_text Complex_lt_text_StrictWeakOrder
           (createCollection_of [node_a; node_child; node_b; node_a_lf; node_child])
           (createCollection_of [node_child; node_b; node_a_lf; node_child])
           eq_refl).
Defined.

Lemma distinct_selectors_keep_last (lt : Complex_Selector -> Complex_Selector -> bool)
    (l : list Node) :
  keep_last lt l = l -> distinct_selectors lt l.
Proof.
  induction l as [|n l IH]; [done|].
  destruct n as [lf k|lf e|lf c|lf]; cbn [keep_last distinct_selectors];
    try (intros [= Heq]; split; [done | by apply IH]).
  destruct (has_equivalent lt e l) eqn:He.
  - intros Heq. exfalso.
    pose proof (keep_last_sublist lt l) as Hsub. rewrite Heq in Hsub.
    apply sublist_length in Hsub. cbn in Hsub. lia.
  - intros [= Heq]. split; [done | by apply IH].
Qed.

(** X8: [naiveTrim] returns the children it was given, all of them, exactly
    when no two selectors among them are equivalent. *)
Theorem naiveTrim_unchanged_iff_distinct :
  forall lt : Complex_Selector -> Complex_Selector -> bool,
    StrictWeakOrder lt ->
    forall (lf : bool) (deque : list Node),
      naiveTrim lt (Node_Collection lf deque) = Some (Node_Collection false deque)
      <-> distinct_selectors lt deque.
Proof.
  intros lt Hswo lf deque.
  rewrite naiveTrim_keep_last_kept, keep_last_kept_keep_last by done. split.
  - intros [= Heq]. by apply distinct_selectors_keep_last.
  - intros Hd. by rewrite keep_last_distinct_id.
Qed.

Lemma naiveTrim_unchanged_iff_distinct_witness :
  StrictWeakOrder Complex_lt_text /\
  distinct_selectors Complex_lt_text [node_child; node_b; node_a_lf; node_child] /\
  naiveTrim Complex_lt_text
    (createCollection_of [node_child; node_b; node_a_lf; node_child])
  = Some (createCollection_of [node_child; node_b; node_a_lf; node_child]).
Proof.
  split; [exact Complex_lt_text_StrictWeakOrder|].
  assert (Hd : distinct_selectors Complex_lt_text
                 [node_child; node_b; node_a_lf; node_child])
    by (cbn; repeat split; reflexivity).
  split; [exact Hd|].
  exact (proj2 (naiveTrim_unchanged_iff_distinct Complex_lt_text
                  Complex_lt_text_StrictWeakOrder false
                  [node_child; node_b; node_a_lf; node_child]) Hd).
Defined.


Section NodesEqualFacts.
Variables lt eq : Complex_Selector -> Complex_Selector -> bool.



Lemma contains_loop_exists (deque : list Node) (x : Node) (dep : bool) :
  contains_loop lt eq deque x dep = true
  <-> exists n, In n deque /\ nodesEqual lt eq n x dep = true.
Proof.
  induction deque as [|n deque IH]; cbn [contains_loop].
  - split; [done|]. by intros (? & [] & _).
  - destruct (nodesEqual lt eq n x dep) eqn:Hn.
    + split; [|done]. intros _. exists n. split; [by left|done].
    + rewrite IH. split.
      * intros (n' & Hin & Heq). exists n'. split; [by right|done].
      * intros (n' & [->|Hin] & Heq); [congruence|]. by exists n'.
Qed.

Hypothesis lt_swo : StrictWeakOrder lt.




End NodesEqualFacts.



(** X10: [naiveTrim] loses nothing that [contains] can see: a node is
    contained in the trimmed collection exactly when it was contained in the
    collection given, under the comparison that respects the order of the
    simple selectors, the set of [naiveTrim] being ordered by the same
    [operator<]. *)
Theorem naiveTrim_preserves_contains :
  forall lt eq : Complex_Selector -> Complex_Selector -> bool,
    StrictWeakOrder lt ->
    forall seqses trimmed potentialChild : Node,
      naiveTrim lt seqses = Some trimmed ->
      contains lt eq trimmed potentialChild true
      = contains lt eq seqses potentialChild true.
Proof.
  intros lt eq Hswo seqses trimmed x Htrim.
  destruct seqses as [lf k|lf e|lf deque|lf]; try discriminate Htrim.
  rewrite naiveTrim_keep_last_kept in Htrim. injection Htrim as <-.
  rewrite keep_last_kept_keep_last by done.
  unfold contains. cbn [collection]. f_equal.
  apply eq_true_iff_eq. rewrite !contains_loop_exists. split.
  - intros (n & Hin & Heq). exists n. split; [|done].
    apply list_elem_of_In. apply list_elem_of_In in Hin.
    exact (elem_of_sublist _ _ _ Hin (keep_last_sublist lt deque)).
  - intros (n & Hin & Heq).
    destruct (isSelector n) eqn:Hsel.
    + destruct n as [lf' k|lf' s|lf' c|lf']; try discriminate Hsel.
      pose proof (keep_last_representative lt Hswo deque lf' s Hin) as Hrep.
      apply has_equivalent_true in Hrep as (lf'' & e & Hin' & Hes).
      exists (Node_Selector lf'' e). split; [done|].
      destruct x as [lfx k|lfx sx|lfx c|lfx]; try discriminate Heq.
      cbn in Heq |- *. by apply (equivalent_trans lt Hswo e s sx).
    + exists n. split; [|done].
      assert (Hf : In n (List.filter (fun n => negb (isSelector n)) deque)).
      { apply filter_In. split; [done|]. by rewrite Hsel. }
      rewrite <- (keep_last_non_selectors lt deque) in Hf.
      by apply filter_In in Hf as [Hf _].
Qed.

Lemma naiveTrim_preserves_contains_witness :
  StrictWeakOrder Complex_lt_text /\
  contains Complex_lt_text Complex_lt_text
    (createCollection_of [node_child; node_b; node_a_lf; node_child]) node_a true
  = Some true.
Proof.
  split; [exact Complex_lt_text_StrictWeakOrder|].
  rewrite (naiveTrim_preserves_contains Complex_lt_text Complex_lt_text
             Complex_lt_text_StrictWeakOrder
             (createCollection_of [node_a; node_child; node_b; node_a_lf; node_child])
             (createCollection_of [node_child; node_b; node_a_lf; node_child])
             node_a eq_refl).
  reflexivity.
Defined.

Lemma contains_loop_app (lt eq : Complex_Selector -> Complex_Selector -> bool)
    (l r : list Node) (x : Node) (dep : bool) :
  contains_loop lt eq (l ++ r) x dep
  = contains_loop lt eq l x dep || contains_loop lt eq r x dep.
Proof.
  induction l as [|n l IH]; cbn [app contains_loop orb]; [done|].
  by destruct (nodesEqual lt eq n x dep).
Qed.

(** X11: [plus] throws, leaving the node as it is, exactly when the node or
    [rhs] is not a collection; otherwise the children of [rhs] follow the
    node's own, and the node contains afterwards what it or [rhs] contained. *)
Theorem plus_collections :
  forall (lt eq : Complex_Selector -> Complex_Selector -> bool)
         (self rhs potentialChild : Node) (dep : bool),
    match collection self, collection rhs with
    | Some l, Some r =>
        fst (plus self rhs) = Returned /\
        collection (snd (plus self rhs)) = Some (l ++ r) /\
        contains lt eq (snd (plus self rhs)) potentialChild dep
        = (b1 ← contains lt eq self potentialChild dep;
           b2 ← contains lt eq rhs potentialChild dep;
           Some (b1 || b2))
    | _, _ =>
        plus self rhs
        = (Thrown "Both the current node and rhs must be collections.", self)
    end.
Proof.
  intros lt eq self rhs x dep.
  destruct self as [lf k|lf e|lf l|lf]; try reflexivity;
    destruct rhs as [lf' k|lf' e|lf' r|lf']; try reflexivity.
  cbn. split; [done|]. split; [done|]. by rewrite contains_loop_app.
Qed.

(** ** Simple selectors: names and pseudo selectors *)






Lemma is_pseudo_class_element_colon (name : string) :
  is_pseudo_class_element name = true ->
  Ascii.eqb (char_at name 0) ":" = true /\ Ascii.eqb (char_at name 1) ":" = false.
Proof.
  unfold is_pseudo_class_element. rewrite !orb_true_iff, !String.eqb_eq.
  intros [[[->| ->]| ->]| ->]; by split.
Qed.

(** X13: A pseudo selector is never both a pseudo-class and a pseudo-element,
    and it is one of the two exactly when its name begins with a colon. *)
Theorem is_pseudo_class_or_element :
  forall name_ : string,
    is_pseudo_class name_ && is_pseudo_element name_ = false /\
    is_pseudo_class name_ || is_pseudo_element name_
    = Ascii.eqb (char_at name_ 0) ":".
Proof.
  intros name_. unfold is_pseudo_class, is_pseudo_element.
  destruct (is_pseudo_class_element name_) eqn:He.
  - destruct (is_pseudo_class_element_colon name_ He) as [-> ->]. by split.
  - destruct (Ascii.eqb (char_at name_ 0) ":"), (Ascii.eqb (char_at name_ 1) ":");
      by split.
Qed.

Lemma Compound_store_step_grows (st st' : list Compound_Selector) :
  Compound_store_step st st' -> Compound_store_grows st st'.
Proof.
  intros Hstep p c Hp. destruct Hstep as [pstate h0 st|q s st st' Hs Hshl].
  - exists c. split; [|done]. cbn. by apply lookup_app_l_Some.
  - unfold Compound_store_shl in Hshl.
    destruct (st !! q) as [cq|] eqn:Hq; [|discriminate].
    injection Hshl as <-.
    destruct (decide (q = p)) as [->|Hne].
    + exists (Vectorized_shl cq s). split.
      * apply list_lookup_insert_eq. by eapply lookup_lt_Some.
      * rewrite Hp in Hq. injection Hq as <-.
        destruct s as [s'|]; [|done].
        unfold Compound_contains_placeholder.
        destruct (Compound_shl_simple c s') as (-> & _).
        rewrite existsb_app. by intros ->.
    + exists c. split; [|done]. by rewrite list_lookup_insert_ne by done.
Qed.

Lemma Compound_store_made_built (st : list Compound_Selector) :
  Compound_store_made st -> Forall Compound_built st.
Proof.
  induction 1 as [|st st' Hst IH Hstep]; [constructor|].
  destruct Hstep as [pstate h0 st|q s st st' Hs Hshl].
  - cbn. apply Forall_app. split; [done|]. repeat constructor.
  - unfold Compound_store_shl in Hshl.
    destruct (st !! q) as [cq|] eqn:Hq; [|discriminate].
    injection Hshl as <-.
    apply Forall_insert; [done|].
    destruct s as [s'|].
    + constructor; [|by apply Hs].
      by eapply (proj1 (Forall_lookup _ _) IH).
    + by eapply (proj1 (Forall_lookup _ _) IH).
Qed.

(** Induction along the tails of a complex selector object. *)
Lemma Complex_Selector_object_chain_ind (P : Complex_Selector_object -> Prop) :
  (forall m k h r, P (mkComplex_Selector_object m k h None r)) ->
  (forall m k h t r, P t -> P (mkComplex_Selector_object m k h (Some t) r)) ->
  forall o, P o.
Proof.
  intros Hnone Hsome.
  fix IH 1. intros [m k h [t|] r].
  - apply Hsome, IH.
  - apply Hnone.
Qed.

Lemma Complex_Selector_in_members (st : list Compound_Selector)
    (o : Complex_Selector_object) (c : Complex_Selector) :
  Complex_Selector_in st o = Some c -> Complex_members c = object_members o.
Proof.
  destruct o as [m k h t r]. cbn.
  destruct (Compound_at st h) as [hc|]; [|discriminate].
  destruct t as [t'|].
  - destruct (Complex_Selector_in st t'); [|discriminate]. by intros [= <-].
  - by intros [= <-].
Qed.

(** Reading a complex selector in a store that has grown: the members of the
    object are the same, and a placeholder that was found is found again. *)
Lemma Complex_Selector_in_grows (st st' : list Compound_Selector) :
  Compound_store_grows st st' ->
  forall (o : Complex_Selector_object) (c : Complex_Selector),
    Complex_Selector_in st o = Some c ->
    exists c', Complex_Selector_in st' o = Some c' /\
      (Complex_contains_placeholder c = true ->
       Complex_contains_placeholder c' = true).
Proof.
  intros Hgrow.
  assert (Hat : forall h hc,
             Compound_at st h = Some hc ->
             exists hc', Compound_at st' h = Some hc' /\
               (opt_flag Compound_contains_placeholder hc = true ->
                opt_flag Compound_contains_placeholder hc' = true)).
  { intros [p|] hc; cbn.
    - destruct (st !! p) as [c|] eqn:Hp; [|discriminate]. intros [= <-].
      destruct (Hgrow p c Hp) as (c' & -> & Hc'). by exists (Some c').
    - intros [= <-]. by exists None. }
  induction o as [m k h r|m k h t r IH] using Complex_Selector_object_chain_ind;
    intros c; cbn [Complex_Selector_in].
  - destruct (Compound_at st h) as [hc|] eqn:Hh; [|discriminate].
    intros [= <-]. destruct (Hat h hc Hh) as (hc' & -> & Hhc').
    eexists. split; [reflexivity|]. cbn [Complex_contains_placeholder].
    destruct (opt_flag Compound_contains_placeholder hc); [|discriminate].
    by rewrite Hhc'.
  - destruct (Compound_at st h) as [hc|] eqn:Hh; [|discriminate].
    destruct (Complex_Selector_in st t) as [tc|] eqn:Ht; [|discriminate].
    intros [= <-]. destruct (Hat h hc Hh) as (hc' & -> & Hhc').
    destruct (IH tc eq_refl) as (tc' & -> & Htc').
    eexists. split; [reflexivity|]. cbn [Complex_contains_placeholder].
    destruct (opt_flag Compound_contains_placeholder hc).
    + by rewrite Hhc'.
    + intros Htc. rewrite (Htc' Htc).
      by destruct (opt_flag Compound_contains_placeholder hc').
Qed.

Lemma Complex_Selector_made_store (st : list Compound_Selector) (o : Complex_Selector_object) :
  Complex_Selector_made st o -> Compound_store_made st.
Proof.
  induction 1 as [st pstate k h t o Hst _ _ _|st st' o _ IH Hstep]; [done|].
  by eapply made_step.
Qed.

(** What [new Complex_Selector] returns, read in the store it was made in, is
    what the constructor makes of the head and the tail as they are read
    there. *)
Lemma Complex_Selector_new_in (st : list Compound_Selector) (pstate : ParserState)
    (k : Combinator) (h : option nat) (t : option Complex_Selector_object)
    (o : Complex_Selector_object) (hc : option Compound_Selector)
    (tc : option Complex_Selector) :
  Complex_Selector_new pstate k h t st = Some o ->
  Compound_at st h = Some hc ->
  match t, tc with
  | Some t', Some tc' => Complex_Selector_in st t' = Some tc'
  | None, None => True
  | _, _ => False
  end ->
  Complex_Selector_in st o = Some (Complex_Selector_ctor pstate k hc tc).
Proof.
  unfold Complex_Selector_new. intros Hnew Hh Ht. rewrite Hh in Hnew.
  injection Hnew as <-. cbn [Complex_Selector_in]. rewrite Hh.
  assert (Hflags : opt_flag object_has_placeholder t
                   = opt_flag Complex_has_placeholder tc /\
                   opt_flag object_has_reference t
                   = opt_flag Complex_has_reference tc).
  { destruct t as [t'|], tc as [tc'|]; try done. cbn.
    unfold object_has_placeholder, object_has_reference,
      Complex_has_placeholder, Complex_has_reference.
    by rewrite (Complex_Selector_in_members st t' tc' Ht). }
  destruct Hflags as [-> ->]. unfold Complex_Selector_ctor.
  destruct t as [t'|], tc as [tc'|]; try done.
  by rewrite Ht.
Qed.

(** X14: However the calls of the constructors and of [operator<<] follow one
    another, a complex selector whose flag [has_placeholder()] is set holds a
    placeholder that [contains_placeholder()] finds, and the flag of its head
    says exactly what [contains_placeholder()] finds in the head.  The flag
    of the complex selector can stay unset when there is a placeholder: one
    pushed onto the head after the complex selector was constructed. *)
Theorem has_placeholder_implies_contains_placeholder :
  (forall (st : list Compound_Selector) (o : Complex_Selector_object),
      Complex_Selector_made st o ->
      exists c : Complex_Selector,
        Complex_Selector_in st o = Some c /\
        (Complex_has_placeholder c = true ->
         Complex_contains_placeholder c = true) /\
        (forall h : Compound_Selector,
            head c = Some h ->
            Compound_has_placeholder h = Compound_contains_placeholder h)) /\
  (exists (st : list Compound_Selector) (o : Complex_Selector_object) (c : Complex_Selector),
      Complex_Selector_made st o /\
      Complex_Selector_in st o = Some c /\
      Complex_has_placeholder c = false /\
      Complex_contains_placeholder c = true).
Proof.
  split.
  - intros st o Hmade.
    assert (Hmain : exists c : Complex_Selector,
               Complex_Selector_in st o = Some c /\
               (Complex_has_placeholder c = true ->
                Complex_contains_placeholder c = true)).
    { induction Hmade as [st pstate k h t o Hst Ht IHt Hnew|st st' o Hmade IH Hstep].
      - assert (Hh : exists hc, Compound_at st h = Some hc).
        { unfold Complex_Selector_new in Hnew.
          destruct (Compound_at st h) as [hc|]; [by exists hc | discriminate]. }
        destruct Hh as (hc & Hh).
        assert (Htc : exists tc,
                   match t, tc with
                   | Some t', Some tc' => Complex_Selector_in st t' = Some tc'
                   | None, None => True
                   | _, _ => False
                   end /\
                   (opt_flag Complex_has_placeholder tc = true ->
                    opt_flag Complex_contains_placeholder tc = true)).
        { destruct t as [t'|].
          - destruct (IHt t' eq_refl) as (tc' & Hin & Himp). by exists (Some tc').
          - by exists None. }
        destruct Htc as (tc & Htin & Htimp).
        exists (Complex_Selector_ctor pstate k hc tc).
        split; [by eapply Complex_Selector_new_in|].
        assert (Hhc : opt_flag Compound_has_placeholder hc
                      = opt_flag Compound_contains_placeholder hc).
        { destruct h as [p|]; cbn in Hh.
          - destruct (st !! p) as [c|] eqn:Hp; [|discriminate].
            injection Hh as <-. cbn. symmetry.
            apply Compound_built_contains_placeholder.
            by eapply (proj1 (Forall_lookup _ _) (Compound_store_made_built st Hst)).
          - by injection Hh as <-. }
        unfold Complex_has_placeholder, Complex_Selector_ctor.
        cbn [Complex_members Complex_contains_placeholder].
        rewrite Hhc.
        destruct (opt_flag Compound_contains_placeholder hc); [done|].
        cbn [orb].
        destruct (opt_flag Complex_has_placeholder tc) eqn:Hflag.
        + intros _. specialize (Htimp eq_refl). by destruct tc.
        + destruct (opt_flag Compound_has_reference hc
                    || opt_flag Complex_has_reference tc); discriminate.
      - destruct IH as (c & Hin & Himp).
        destruct (Complex_Selector_in_grows st st'
                    (Compound_store_step_grows st st' Hstep) o c Hin)
          as (c' & Hin' & Hgrow).
        exists c'. split; [done|]. intros Hflag. apply Hgrow, Himp.
        unfold Complex_has_placeholder in *.
        by rewrite (Complex_Selector_in_members st o c Hin),
          <- (Complex_Selector_in_members st' o c' Hin'). }
    destruct Hmain as (c & Hin & Himp). exists c. split; [done|]. split; [done|].
    intros hc Hhead. symmetry. apply Compound_built_contains_placeholder.
    pose proof (Compound_store_made_built st (Complex_Selector_made_store st o Hmade))
      as Hbuilt.
    destruct o as [m k [p|] t r]; cbn in Hin.
    + destruct (st !! p) as [cp|] eqn:Hp; [|discriminate].
      assert (Hc : head c = Some cp).
      { destruct t as [t'|].
        - destruct (Complex_Selector_in st t'); [|discriminate].
          by injection Hin as <-.
        - by injection Hin as <-. }
      rewrite Hc in Hhead. injection Hhead as <-.
      by eapply (proj1 (Forall_lookup _ _) Hbuilt).
    + assert (Hc : head c = None).
      { destruct t as [t'|].
        - destruct (Complex_Selector_in st t'); [|discriminate].
          by injection Hin as <-.
        - by injection Hin as <-. }
      rewrite Hc in Hhead. discriminate.
  - exists [Vectorized_shl (Compound_Selector_ctor no_pstate 0) (Some late_placeholder)],
      (mkComplex_Selector_object (Selector_ctor no_pstate false false)
         ANCESTOR_OF (Some 0%nat) None None).
    eexists. split; [|split; [reflexivity|split; reflexivity]].
    eapply made_Complex_Selector_later.
    + eapply (made_Complex_Selector_new _ no_pstate ANCESTOR_OF (Some 0%nat) None).
      * eapply made_step; [apply made_empty|].
        apply (step_Compound_Selector_new no_pstate 0 []).
      * discriminate.
      * reflexivity.
    + eapply (step_Compound_store_shl 0 (Some late_placeholder)).
      * intros s' [= <-]. constructor.
      * reflexivity.
Qed.

Lemma has_placeholder_implies_contains_placeholder_witness :
  exists (st : list Compound_Selector) (o : Complex_Selector_object),
    placeholder_pushed_early = Some (st, o) /\
    Complex_Selector_made st o /\
    exists c : Complex_Selector,
      Complex_Selector_in st o = Some c /\
      (Complex_has_placeholder c = true ->
       Complex_contains_placeholder c = true) /\
      (forall h : Compound_Selector,
          head c = Some h ->
          Compound_has_placeholder h = Compound_contains_placeholder h).
Proof.
  eexists _, _. split; [reflexivity|].
  assert (Hmade : Complex_Selector_made
            [Vectorized_shl (Compound_Selector_ctor no_pstate 0) (Some late_placeholder)]
            (mkComplex_Selector_object
               (set_has_placeholder true (Selector_ctor no_pstate false false))
               ANCESTOR_OF (Some 0%nat) None None)).
  { eapply (made_Complex_Selector_new _ no_pstate ANCESTOR_OF (Some 0%nat) None).
    - eapply made_step.
      + eapply made_step; [apply made_empty|].
        apply (step_Compound_Selector_new no_pstate 0 []).
      + eapply (step_Compound_store_shl 0 (Some late_placeholder)).
        * intros s' [= <-]. constructor.
        * reflexivity.
    - discriminate.
    - reflexivity. }
  split; [exact Hmade|].
  exact (proj1 has_placeholder_implies_contains_placeholder _ _ Hmade).
Defined.

(** ** Blocks and their flags *)

Lemma Block_add_assign_statements (v : list Statement) :
  forall b : Block,
    let b' := fold_left (fun self element => Vectorized_shl self (Some element)) v b in
    elements_ (Block_vec b') = elements_ (Block_vec b) ++ v /\
    has_hoistable b' = (existsb is_hoistable v || has_hoistable b) /\
    has_non_hoistable b'
    = (existsb (fun s => negb (is_hoistable s)) v || has_non_hoistable b).
Proof.
  induction v as [|s v IH]; intros b; cbn [fold_left existsb orb].
  - by rewrite app_nil_r.
  - destruct (IH (Vectorized_shl b (Some s))) as (Hel & Hh & Hn).
    destruct (Block_shl_statement b s) as (Hel1 & _ & Hh1 & Hn1).
    cbn zeta in *. change (@vec _ _ Block_Vectorized) with Block_vec in *.
    rewrite Hel, Hh, Hn, Hel1, Hh1, Hn1, <- app_assoc.
    repeat split.
    + by destruct (is_hoistable s), (existsb is_hoistable v).
    + by destruct (negb (is_hoistable s)),
           (existsb (fun s0 => negb (is_hoistable s0)) v).
Qed.

Lemma Block_built_flags (b : Block) :
  Block_built b ->
  has_hoistable b = existsb is_hoistable (elements_ (Block_vec b)) /\
  has_non_hoistable b
  = existsb (fun s => negb (is_hoistable s)) (elements_ (Block_vec b)).
Proof.
  induction 1 as [pstate h0 r|b [s|] Hb [IHh IHn]|b v Hb [IHh IHn]].
  - by split.
  - destruct (Block_shl_statement b s) as (Hel & _ & Hh & Hn).
    cbn zeta in *. change (@vec _ _ Block_Vectorized) with Block_vec in *.
    rewrite Hel, Hh, Hn, !existsb_app, IHh, IHn. cbn [existsb].
    rewrite !orb_false_r. split; apply orb_comm.
  - by split.
  - destruct (Block_add_assign_statements (elements_ v) b) as (Hel & Hh & Hn).
    unfold Vectorized_add_assign. cbn zeta in *.
    rewrite Hel, Hh, Hn, !existsb_app, IHh, IHn. split; apply orb_comm.
Qed.

(** X15: The two flags of a block say what it holds: [has_hoistable()] is true
    exactly when one of its statements is hoistable, [has_non_hoistable()]
    exactly when one is not, for every block that the constructor,
    [operator<<] and [operator+=] have built. *)
Theorem Block_flags_reflect_statements :
  forall b : Block,
    Block_built b ->
    has_hoistable b = existsb is_hoistable (elements_ (Block_vec b)) /\
    has_non_hoistable b
    = existsb (fun s => negb (is_hoistable s)) (elements_ (Block_vec b)).
Proof.
  intros b Hb. destruct (Block_built_flags b Hb) as [Hh Hn].
  split; [exact Hh | exact Hn].
Qed.

Lemma sample_block_built : Block_built sample_block.
Proof. unfold sample_block. repeat constructor. Defined.

Lemma Block_flags_reflect_statements_witness :
  Block_built sample_block /\
  has_hoistable sample_block = true /\ has_non_hoistable sample_block = true.
Proof.
  split; [exact sample_block_built|].
  destruct (Block_flags_reflect_statements sample_block sample_block_built)
    as [-> ->].
  split; reflexivity.
Defined.

(** ** Parameter lists *)

Lemma Parameters_shl_Some (self : Parameters) (p : Parameter_) :
  let r := Parameters_shl self (Some p) in
  elements_ (Parameters_vec r.2) = elements_ (Parameters_vec self) ++ [p] /\
  match kind_of p with
  | Optional =>
      if has_rest_parameter_ self then r.1 <> Returned
      else r.1 = Returned /\ has_optional_parameters_ r.2 = true /\
           has_rest_parameter_ r.2 = false
  | Rest =>
      if has_rest_parameter_ self then r.1 <> Returned
      else r.1 = Returned /\
           has_optional_parameters_ r.2 = has_optional_parameters_ self /\
           has_rest_parameter_ r.2 = true
  | Required =>
      if has_rest_parameter_ self || has_optional_parameters_ self
      then r.1 <> Returned
      else r.1 = Returned /\ has_optional_parameters_ r.2 = false /\
           has_rest_parameter_ r.2 = false
  end.
Proof.
  unfold Parameters_shl, Parameters_adjust_after_pushing, kind_of, error.
  cbn [has_rest_parameter_ has_optional_parameters_].
  destruct (default_value_ p), (is_rest_parameter_ p),
    (has_rest_parameter_ self) eqn:Hr, (has_optional_parameters_ self) eqn:Ho;
    cbn; repeat split; congruence.
Qed.

Section ParametersFacts.
Implicit Types (self : Parameters) (ps : list Parameter_).

Lemma Parameters_after_rest ps :
  forall self,
    has_rest_parameter_ self = true ->
    (Parameters_shl_all self (Some <$> ps)).1 = Returned <-> ps = [].
Proof.
  intros self Hr. destruct ps as [|p ps]; [done|].
  split; [|done]. cbn [fmap list_fmap Parameters_shl_all].
  destruct (Parameters_shl_Some self p) as [_ Hk]. cbn zeta in Hk.
  rewrite Hr in Hk. cbn [orb] in Hk.
  destruct (Parameters_shl self (Some p)) as [[|what] self']; cbn [fst] in Hk.
  - destruct (kind_of p); congruence.
  - intros Hthrown. discriminate Hthrown.
Qed.

Lemma Parameters_after_optional ps :
  forall self,
    has_rest_parameter_ self = false ->
    has_optional_parameters_ self = true ->
    (Parameters_shl_all self (Some <$> ps)).1 = Returned
    <-> exists o v : nat,
          (v <= 1)%nat /\
          kind_of <$> ps = repeat Optional o ++ repeat Rest v.
Proof.
  induction ps as [|p ps IH]; intros self Hr Ho.
  - split; [|done]. intros _. exists 0%nat, 0%nat. split; [lia|done].
  - rewrite !fmap_cons. cbn [Parameters_shl_all].
    destruct (Parameters_shl_Some self p) as [_ Hk]. cbn zeta in Hk.
    rewrite Hr, Ho in Hk. cbn [orb] in Hk.
    destruct (Parameters_shl self (Some p)) as [[|what] self'] eqn:Hshl;
      cbn [fst snd] in Hk.
    + destruct (kind_of p) eqn:Hkind; [congruence| |].
      * destruct Hk as (_ & Ho' & Hr'). rewrite (IH self' Hr' Ho'). split.
        -- intros (o & v & Hv & Hks). exists (S o), v. split; [done|].
           cbn [repeat app]. by rewrite Hks.
        -- intros (o & v & Hv & Hks). destruct o as [|o].
           ++ destruct v as [|v]; cbn [repeat app] in Hks; congruence.
           ++ exists o, v. split; [done|]. cbn [repeat app] in Hks. congruence.
      * destruct Hk as (_ & _ & Hr'). rewrite (Parameters_after_rest ps self' Hr').
        split.
        -- intros ->. exists 0%nat, 1%nat. split; [lia|done].
        -- intros (o & v & Hv & Hks).
           destruct o as [|o]; [|cbn [repeat app] in Hks; congruence].
           destruct v as [|[|v]]; [cbn [repeat app] in Hks; congruence| |lia].
           cbn [repeat app] in Hks. destruct ps; [done|].
           rewrite fmap_cons in Hks. congruence.
    + split; [intros Hthrown; discriminate Hthrown|].
      intros (o & v & Hv & Hks). exfalso.
      destruct (kind_of p) eqn:Hkind;
        [|destruct Hk as [Hk _]; discriminate Hk..].
      destruct o as [|o]; [|cbn [repeat app] in Hks; congruence].
      destruct v as [|v]; cbn [repeat app] in Hks; congruence.
Qed.

Lemma Parameters_from_start ps :
  forall self,
    has_rest_parameter_ self = false ->
    has_optional_parameters_ self = false ->
    (Parameters_shl_all self (Some <$> ps)).1 = Returned
    <-> exists r o v : nat,
          (v <= 1)%nat /\
          kind_of <$> ps
          = repeat Required r ++ repeat Optional o ++ repeat Rest v.
Proof.
  induction ps as [|p ps IH]; intros self Hr Ho.
  - split; [|done]. intros _. exists 0%nat, 0%nat, 0%nat. split; [lia|done].
  - rewrite !fmap_cons. cbn [Parameters_shl_all].
    destruct (Parameters_shl_Some self p) as [_ Hk]. cbn zeta in Hk.
    rewrite Hr, Ho in Hk. cbn [orb] in Hk.
    destruct (Parameters_shl self (Some p)) as [[|what] self'] eqn:Hshl;
      cbn [fst snd] in Hk.
    + destruct (kind_of p) eqn:Hkind.
      * destruct Hk as (_ & Ho' & Hr'). rewrite (IH self' Hr' Ho'). split.
        -- intros (r & o & v & Hv & Hks). exists (S r), o, v. split; [done|].
           cbn [repeat app]. by rewrite Hks.
        -- intros (r & o & v & Hv & Hks). destruct r as [|r].
           ++ destruct o as [|o]; [|cbn [repeat app] in Hks; congruence].
              destruct v as [|v]; cbn [repeat app] in Hks; congruence.
           ++ exists r, o, v. split; [done|]. cbn [repeat app] in Hks. congruence.
      * destruct Hk as (_ & Ho' & Hr').
        rewrite (Parameters_after_optional ps self' Hr' Ho'). split.
        -- intros (o & v & Hv & Hks). exists 0%nat, (S o), v. split; [done|].
           cbn [repeat app]. by rewrite Hks.
        -- intros (r & o & v & Hv & Hks).
           destruct r as [|r]; [|cbn [repeat app] in Hks; congruence].
           destruct o as [|o].
           ++ destruct v as [|v]; cbn [repeat app] in Hks; congruence.
           ++ exists o, v. split; [done|]. cbn [repeat app] in Hks. congruence.
      * destruct Hk as (_ & _ & Hr'). rewrite (Parameters_after_rest ps self' Hr').
        split.
        -- intros ->. exists 0%nat, 0%nat, 1%nat. split; [lia|done].
        -- intros (r & o & v & Hv & Hks).
           destruct r as [|r]; [|cbn [repeat app] in Hks; congruence].
           destruct o as [|o]; [|cbn [repeat app] in Hks; congruence].
           destruct v as [|[|v]]; [cbn [repeat app] in Hks; congruence| |lia].
           cbn [repeat app] in Hks. destruct ps; [done|].
           rewrite fmap_cons in Hks. congruence.
    + split; [intros Hthrown; discriminate Hthrown|].
      intros (r & o & v & Hv & Hks). exfalso.
      destruct (kind_of p) eqn:Hkind; destruct Hk as [Hk _]; discriminate Hk.
Qed.

End ParametersFacts.

(** X16: A chain of [operator<<] on a fresh parameter list goes through
    exactly for the lists made of required parameters, then optional ones,
    then at most one variable-length parameter; and when the hook throws, the
    parameter it refuses has already been stored. *)
Theorem Parameters_accepted_orders :
  forall (pstate : ParserState) (h0 : Z) (ps : list Parameter_),
    ((Parameters_shl_all (Parameters_ctor pstate h0) (Some <$> ps)).1 = Returned
     <-> exists r o v : nat,
           (v <= 1)%nat /\
           kind_of <$> ps
           = repeat Required r ++ repeat Optional o ++ repeat Rest v) /\
    (forall (self : Parameters) (p : Parameter_),
        elements_ (Parameters_vec (Parameters_shl self (Some p)).2)
        = elements_ (Parameters_vec self) ++ [p]).
Proof.
  intros pstate h0 ps. split.
  - by apply Parameters_from_start.
  - intros self p. by destruct (Parameters_shl_Some self p) as [Hel _].
Qed.

(** ** Invisible media blocks *)

Lemma Media_Block_is_invisible_loop (m : Statement_members) (b : Block) :
  Statement_is_invisible (Media_Block m (Some b)) = Some true
  <-> Forall (fun e => Statement_is_invisible e = Some true)
        (elements_ (Block_vec b)).
Proof.
  destruct b as [bm v r a h n]. cbn [Statement_is_invisible Block_vec].
  induction (elements_ v) as [|e els IH].
  - split; [constructor|done].
  - destruct (Statement_is_invisible e) as [[|]|] eqn:He.
    + cbn [andb]. rewrite IH. split; [by constructor|].
      intros H. by inversion H.
    + cbn [andb]. split.
      * destruct els; discriminate.
      * intros H. inversion H. congruence.
    + split; [discriminate|]. intros H. inversion H. congruence.
Qed.

(** X17: A media block that holds a statement which is not hoistable (a
    declaration, a comment, ...) is never invisible, for every block that the
    constructor, [operator<<] and [operator+=] have built. *)
Theorem Media_Block_with_non_hoistable_is_visible :
  forall (m : Statement_members) (b : Block),
    Block_built b ->
    has_non_hoistable b = true ->
    Statement_is_invisible (Media_Block m (Some b)) <> Some true.
Proof.
  intros m b Hb Hn Hinv.
  destruct (Block_built_flags b Hb) as [_ Hflag]. rewrite Hflag in Hn.
  apply existsb_exists in Hn as (s & Hin & Hs).
  apply Media_Block_is_invisible_loop in Hinv.
  rewrite List.Forall_forall in Hinv. specialize (Hinv s Hin).
  destruct s; cbn in Hs, Hinv; congruence.
Qed.

Lemma Media_Block_with_non_hoistable_is_visible_witness :
  Block_built sample_block /\ has_non_hoistable sample_block = true /\
  Statement_is_invisible
    (Media_Block (Statement_ctor no_pstate MEDIA 0) (Some sample_block))
  = Some false.
Proof.
  split; [exact sample_block_built|]. split; [reflexivity|].
  pose proof (Media_Block_with_non_hoistable_is_visible
                (Statement_ctor no_pstate MEDIA 0) sample_block
                sample_block_built eq_refl) as Hvisible.
  reflexivity.
Defined.

(** ** The sources of a complex selector *)

(** Induction along the chain of tails. *)
Lemma Complex_chain_ind (P : Complex_Selector -> Prop) :
  (forall m k h r, P (mkComplex_Selector m k h None r)) ->
  (forall m k h t r, P t -> P (mkComplex_Selector m k h (Some t) r)) ->
  forall c, P c.
Proof.
  intros Hend Hstep. fix IH 1. intros [m k h [t|] r]; [|apply Hend].
  apply Hstep, IH.
Qed.

(** X18: After [clearSources()], [sources()] is empty. *)
Theorem Complex_clearSources_sources :
  forall (lt : Complex_Selector -> Complex_Selector -> bool) (c : Complex_Selector),
    Complex_sources lt (Complex_clearSources c) = [].
Proof.
  intros lt c. induction c as [m k h r|m k h t r IH] using Complex_chain_ind.
  - destruct h as [[hm hv hs hp]|]; reflexivity.
  - cbn [Complex_clearSources Complex_sources]. rewrite IH.
    destruct h as [[hm hv hs hp]|]; reflexivity.
Qed.

Section SourcesFacts.
Variable lt : Complex_Selector -> Complex_Selector -> bool.
Hypothesis lt_swo : StrictWeakOrder lt.

Lemma existsb_equivalent_insert_ordered (x y : Complex_Selector) (s : SourcesSet) :
  existsb (equivalent lt y) (insert_ordered lt x s)
  = equivalent lt y x || existsb (equivalent lt y) s.
Proof.
  induction s as [|e s IH]; cbn [insert_ordered existsb]; [done|].
  destruct (lt x e); cbn [existsb]; [done|]. rewrite IH.
  by destruct (equivalent lt y x), (equivalent lt y e).
Qed.

Lemma existsb_equivalent_insert (x y : Complex_Selector) (s : SourcesSet) :
  existsb (equivalent lt y) (SourcesSet_insert lt x s)
  = equivalent lt y x || existsb (equivalent lt y) s.
Proof using lt_swo.
  unfold SourcesSet_insert.
  destruct (SourcesSet_find lt x s) as [e|] eqn:Hf.
  - destruct (equivalent lt y x) eqn:Hyx; [|done]. cbn [orb].
    apply existsb_exists. unfold SourcesSet_find in Hf.
    apply find_some in Hf as [Hin Hex]. exists e. split; [done|].
    rewrite equivalent_sym in Hex.
    by apply (equivalent_trans lt lt_swo y x e).
  - apply existsb_equivalent_insert_ordered.
Qed.

Lemma existsb_equivalent_insert_range (xs : list Complex_Selector) (y : Complex_Selector) :
  forall s : SourcesSet,
    existsb (equivalent lt y) (SourcesSet_insert_range lt xs s)
    = existsb (equivalent lt y) xs || existsb (equivalent lt y) s.
Proof using lt_swo.
  unfold SourcesSet_insert_range.
  induction xs as [|x xs IH]; intros s; cbn [fold_left existsb]; [done|].
  rewrite IH, existsb_equivalent_insert.
  by destruct (equivalent lt y x), (existsb (equivalent lt y) xs).
Qed.

Lemma SourcesSet_distinct_insert (x : Complex_Selector) (s : SourcesSet) :
  SourcesSet_distinct lt s -> SourcesSet_distinct lt (SourcesSet_insert lt x s).
Proof.
  unfold SourcesSet_insert, SourcesSet_find.
  destruct (find (fun e => equivalent lt e x) s) as [e|] eqn:Hf; [done|].
  assert (Hnone : existsb (equivalent lt x) s = false).
  { apply not_true_is_false. intros Hex.
    apply existsb_exists in Hex as (e & Hin & Heq).
    pose proof (find_none _ _ Hf e Hin) as Hne. cbn in Hne.
    rewrite equivalent_sym in Hne. congruence. }
  clear Hf. induction s as [|e s IH]; intros Hd; cbn [insert_ordered].
  - done.
  - cbn [existsb] in Hnone. apply orb_false_iff in Hnone as [Hxe Hxs].
    destruct Hd as [He Hd]. destruct (lt x e).
    + cbn [SourcesSet_distinct existsb]. by rewrite Hxe, Hxs.
    + cbn [SourcesSet_distinct]. split; [|by apply IH].
      rewrite existsb_equivalent_insert_ordered, He, equivalent_sym, Hxe. done.
Qed.

Lemma SourcesSet_distinct_insert_range (xs : list Complex_Selector) :
  forall s : SourcesSet,
    SourcesSet_distinct lt s ->
    SourcesSet_distinct lt (SourcesSet_insert_range lt xs s).
Proof.
  unfold SourcesSet_insert_range.
  induction xs as [|x xs IH]; intros s Hd; cbn [fold_left]; [done|].
  by apply IH, SourcesSet_distinct_insert.
Qed.

End SourcesFacts.

(** X19: [sources()] of a complex selector holds the sources of its head and
    the sources of its tail, and nothing else, each once: a selector is (up to
    the equivalence of the set) among them exactly when it is among the head's
    or among those of the tail. *)
Theorem Complex_sources_union :
  forall lt : Complex_Selector -> Complex_Selector -> bool,
    StrictWeakOrder lt ->
    forall c x : Complex_Selector,
      existsb (equivalent lt x) (Complex_sources lt c)
      = orb
          (existsb (equivalent lt x)
             (match head c with Some h => Compound_sources h | None => [] end))
          (existsb (equivalent lt x)
             (match tail c with Some t => Complex_sources lt t | None => [] end)) /\
      SourcesSet_distinct lt (Complex_sources lt c).
Proof.
  intros lt Hswo [m k h t r] x. cbn [head tail]. split.
  - destruct t as [t|]; cbn [Complex_sources].
    + rewrite existsb_equivalent_insert_range by done.
      destruct h as [h|]; [|by rewrite orb_comm].
      rewrite existsb_equivalent_insert_range by done.
      cbn [existsb]. rewrite orb_false_r. apply orb_comm.
    + destruct h as [h|]; [|done].
      rewrite existsb_equivalent_insert_range by done.
      cbn [existsb]. by rewrite !orb_false_r.
  - destruct t as [t|]; cbn [Complex_sources].
    + apply SourcesSet_distinct_insert_range.
      destruct h as [h|]; [|done]. by apply SourcesSet_distinct_insert_range.
    + destruct h as [h|]; [|done]. by apply SourcesSet_distinct_insert_range.
Qed.

Lemma Complex_sources_union_witness :
  StrictWeakOrder Complex_lt_text /\
  existsb (equivalent Complex_lt_text complex_b)
    (Complex_sources Complex_lt_text complex_a_from_b) = true.
Proof.
  split; [exact Complex_lt_text_StrictWeakOrder|].
  rewrite (proj1 (Complex_sources_union Complex_lt_text
                    Complex_lt_text_StrictWeakOrder complex_a_from_b complex_b)).
  reflexivity.
Defined.

(** ** Chains of insertions into a [Hashed] *)

Section HashedSequenceFacts.
Context {E : Type} {HM : HashMethod E}.
Implicit Types (h : Hashed.Hashed E) (k v : E) (p : E * E) (ps : list (E * E)).

Lemma with_hash_snoc (z : Z) ps p :
  with_hash z (ps ++ [p])
  = with_hash z ps ++ (if decide (hash p.1 = z) then [p] else []).
Proof.
  unfold with_hash. by rewrite filter_app.
Qed.

Lemma subscript_assign_lookup_ne (m : gmap Z (E * E)) k v (z : Z) :
  hash k <> z -> Hashed.subscript_assign m k v !! z = m !! z.
Proof.
  intros Hne. unfold Hashed.subscript_assign.
  destruct (m !! hash k) as [[k0 v0]|]; by rewrite lookup_insert_ne.
Qed.

Lemma subscript_assign_lookup_eq (m : gmap Z (E * E)) k v :
  Hashed.subscript_assign m k v !! hash k
  = Some (match m !! hash k with Some (k0, _) => k0 | None => k end, v).
Proof.
  unfold Hashed.subscript_assign.
  destruct (m !! hash k) as [[k0 v0]|]; by rewrite lookup_insert_eq.
Qed.

(** The table after a chain of insertions into a fresh map. *)
Lemma fold_shl_lookup (h0 : Z) ps (z : Z) :
  Hashed.elements_ (fold_left Hashed.shl ps (Hashed.Hashed_ctor h0)) !! z
  = (first ← hd_error (with_hash z ps); last ← last (with_hash z ps);
     Some (first.1, last.2)).
Proof.
  induction ps as [|p ps IH] using rev_ind; [done|].
  rewrite fold_left_app. cbn [fold_left]. rewrite shl_elements, with_hash_snoc.
  destruct (decide (hash p.1 = z)) as [Hz|Hz].
  - subst z. rewrite subscript_assign_lookup_eq, IH, last_snoc.
    destruct (with_hash (hash p.1) ps) as [|q qs]; [done|]. cbn.
    destruct (last (q :: qs)) as [l|] eqn:Hl; [done|].
    by apply last_None in Hl.
  - rewrite app_nil_r. by rewrite subscript_assign_lookup_ne.
Qed.

Lemma with_hash_nil (z : Z) ps : with_hash z ps = [] <-> z ∉ hash <$> ps.*1.
Proof.
  unfold with_hash.
  induction ps as [|p ps IH].
  { split; [intros _; apply not_elem_of_nil | done]. }
  rewrite !fmap_cons, not_elem_of_cons.
  destruct (decide (hash p.1 = z)) as [Hz|Hz].
  - rewrite filter_cons_True by done. split; [done|]. intros [Hne _]. congruence.
  - rewrite filter_cons_False by done. rewrite IH. split; [by split|by intros []].
Qed.

Lemma fold_shl_has (h0 : Z) ps k :
  Hashed.has (fold_left Hashed.shl ps (Hashed.Hashed_ctor h0)) k = true
  <-> hash k ∈ hash <$> ps.*1.
Proof.
  rewrite has_true_lookup, fold_shl_lookup.
  destruct (with_hash (hash k) ps) as [|q qs] eqn:Hf.
  - apply with_hash_nil in Hf. split; [by intros [? ?]|done].
  - split; [|intros _].
    + intros _. destruct (decide (hash k ∈ hash <$> ps.*1)) as [|Hn]; [done|].
      apply with_hash_nil in Hn. congruence.
    + cbn. destruct (last (q :: qs)) as [l|] eqn:Hl; [by eexists|].
      by apply last_None in Hl.
Qed.

Lemma shl_list h p :
  Hashed.list_ (Hashed.shl h p)
  = if Hashed.has h p.1 then Hashed.list_ h else Hashed.list_ h ++ [p.1].
Proof.
  unfold Hashed.shl.
  replace (Hashed.has (Hashed.reset_hash h) p.1) with (Hashed.has h p.1) by done.
  destruct (Hashed.has h p.1); cbn [negb]; [|done].
  by destruct (negb (Hashed.has_duplicate_key (Hashed.reset_hash h))).
Qed.

Lemma shl_duplicate_key h p :
  Hashed.duplicate_key_ (Hashed.shl h p)
  = if Hashed.has h p.1
    then Some (default p.1 (Hashed.duplicate_key_ h))
    else Hashed.duplicate_key_ h.
Proof.
  unfold Hashed.shl, Hashed.has_duplicate_key.
  replace (Hashed.has (Hashed.reset_hash h) p.1) with (Hashed.has h p.1) by done.
  destruct (Hashed.has h p.1); cbn [negb]; [|done].
  cbn [Hashed.reset_hash Hashed.duplicate_key_].
  destruct (Hashed.duplicate_key_ h) eqn:Hd; cbn; [by rewrite Hd | done].
Qed.

Lemma shl_size h p :
  size (Hashed.elements_ (Hashed.shl h p))
  = if Hashed.has h p.1 then size (Hashed.elements_ h)
    else S (size (Hashed.elements_ h)).
Proof.
  rewrite shl_elements. unfold Hashed.subscript_assign.
  destruct (Hashed.has h p.1) eqn:Hhas.
  - apply has_true_lookup in Hhas as [[k0 v0] Hl]. rewrite Hl.
    apply map_size_insert_Some. by eexists.
  - destruct (Hashed.elements_ h !! hash p.1) as [[k0 v0]|] eqn:Hl.
    + assert (Hashed.has h p.1 = true) by (apply has_true_lookup; by eexists).
      congruence.
    + by apply map_size_insert_None.
Qed.

(** The list of keys after a chain of insertions into a fresh map. *)
Lemma fold_shl_keys (h0 : Z) ps :
  let h := fold_left Hashed.shl ps (Hashed.Hashed_ctor h0) in
  NoDup (hash <$> Hashed.list_ h) /\
  Hashed.list_ h `sublist_of` ps.*1 /\
  (forall z : Z, z ∈ hash <$> Hashed.list_ h <-> z ∈ hash <$> ps.*1) /\
  length (Hashed.list_ h) = size (Hashed.elements_ h).
Proof.
  induction ps as [|p ps IH] using rev_ind.
  - cbn. repeat split; try done. constructor.
  - cbn zeta in *. rewrite fold_left_app. cbn [fold_left].
    set (h := fold_left Hashed.shl ps (Hashed.Hashed_ctor h0)) in *.
    destruct IH as (Hnd & Hsub & Hin & Hlen).
    rewrite shl_list, shl_size, !fmap_app.
    destruct (Hashed.has h p.1) eqn:Hhas.
    + assert (Hp : hash p.1 ∈ hash <$> ps.*1) by (by apply fold_shl_has in Hhas).
      split; [done|]. split; [by apply sublist_inserts_r|]. split; [|done].
      intros z. rewrite elem_of_app, Hin. cbn. rewrite list_elem_of_singleton.
      split; [by left|]. intros [?| ->]; done.
    + assert (Hp : hash p.1 ∉ hash <$> ps.*1).
      { intros Hp. apply (fold_shl_has h0) in Hp. fold h in Hp. congruence. }
      split; [|split; [|split]].
      * rewrite fmap_app. apply NoDup_app. split; [done|]. split.
        -- intros z Hz. cbn. rewrite list_elem_of_singleton. intros ->.
           by apply Hp, Hin.
        -- cbn. apply NoDup_singleton.
      * cbn. by apply sublist_app.
      * intros z. rewrite fmap_app, !elem_of_app, Hin. done.
      * rewrite length_app. cbn. lia.
Qed.

(** The duplicate marker after a chain of insertions into a fresh map. *)
Lemma fold_shl_duplicate_key (h0 : Z) ps :
  let h := fold_left Hashed.shl ps (Hashed.Hashed_ctor h0) in
  (Hashed.duplicate_key_ h = None <-> NoDup (hash <$> ps.*1)) /\
  (forall d,
      Hashed.duplicate_key_ h = Some d ->
      exists pre v post,
        ps = pre ++ (d, v) :: post /\
        NoDup (hash <$> pre.*1) /\ hash d ∈ hash <$> pre.*1).
Proof.
  induction ps as [|p ps IH] using rev_ind.
  - cbn. split; [split; [constructor|done]|done].
  - cbn zeta in *. rewrite fold_left_app. cbn [fold_left].
    set (h := fold_left Hashed.shl ps (Hashed.Hashed_ctor h0)) in *.
    destruct IH as [Hnone Hsome].
    rewrite shl_duplicate_key, !fmap_app, NoDup_app. cbn [fmap list_fmap].
    destruct (Hashed.has h p.1) eqn:Hhas.
    + assert (Hp : hash p.1 ∈ hash <$> ps.*1) by (by apply fold_shl_has in Hhas).
      split.
      * split; [done|]. intros (_ & Hfresh & _). exfalso.
        apply (Hfresh _ Hp). by apply list_elem_of_singleton.
      * intros d [= <-]. destruct (Hashed.duplicate_key_ h) as [d0|] eqn:Hd.
        -- destruct (Hsome d0 eq_refl) as (pre & v & post & -> & Hnd & Hin).
           exists pre, v, (post ++ [p]). by rewrite <- app_assoc.
        -- exists ps, p.2, []. cbn. destruct p as [k v]. split; [done|].
           split; [by apply Hnone | done].
    + assert (Hp : hash p.1 ∉ hash <$> ps.*1).
      { intros Hp. apply (fold_shl_has h0) in Hp. fold h in Hp. congruence. }
      split.
      * rewrite Hnone. split.
        -- intros Hnd. split; [done|]. split; [|apply NoDup_singleton].
           intros z Hz. rewrite list_elem_of_singleton. by intros ->.
        -- by intros (Hnd & _).
      * intros d Hd. destruct (Hsome d Hd) as (pre & v & post & -> & Hnd & Hin).
        exists pre, v, (post ++ [p]). by rewrite <- app_assoc.
Qed.

End HashedSequenceFacts.

(** X20: After any chain of insertions into a fresh map, [keys()] lists every
    inserted key once (keys being the same when their hashes are), in the
    order of insertion; [has(k)] holds exactly for the keys listed, which are
    the keys inserted; and [length()] is the number of entries of the table. *)
Theorem Hashed_keys_listed_once :
  forall (E : Type) (HM : HashMethod E) (h0 : Z) (ps : list (E * E)),
    let h := fold_left Hashed.shl ps (Hashed.Hashed_ctor h0) in
    NoDup (hash <$> Hashed.keys h) /\
    Hashed.keys h `sublist_of` ps.*1 /\
    (forall k : E, Hashed.has h k = true <-> hash k ∈ hash <$> Hashed.keys h) /\
    (forall k : E, Hashed.has h k = true <-> hash k ∈ hash <$> ps.*1) /\
    Hashed.length h = Z.of_nat (size (Hashed.pairs h)).
Proof.
  intros E HM h0 ps h.
  destruct (fold_shl_keys h0 ps) as (Hnd & Hsub & Hin & Hlen). fold h in Hnd, Hsub, Hin, Hlen.
  unfold Hashed.keys, Hashed.length, Hashed.pairs.
  split; [done|]. split; [done|]. split; [|split].
  - intros k. rewrite Hin. apply fold_shl_has.
  - intros k. apply fold_shl_has.
  - by rewrite Hlen.
Qed.

(** X21: After any chain of insertions into a fresh map, [has_duplicate_key()]
    is false exactly when no two of the inserted keys are the same (have the
    same hash); otherwise [get_duplicate_key()] is the first inserted key that
    repeats an earlier one. *)
Theorem Hashed_duplicate_key_first_repeat :
  forall (E : Type) (HM : HashMethod E) (h0 : Z) (ps : list (E * E)),
    let h := fold_left Hashed.shl ps (Hashed.Hashed_ctor h0) in
    (Hashed.has_duplicate_key h = false <-> NoDup (hash <$> ps.*1)) /\
    (forall d : E,
        Hashed.get_duplicate_key h = Some d ->
        exists pre v post,
          ps = pre ++ (d, v) :: post /\
          NoDup (hash <$> pre.*1) /\ hash d ∈ hash <$> pre.*1).
Proof.
  intros E HM h0 ps h.
  destruct (fold_shl_duplicate_key h0 ps) as [Hnone Hsome]. fold h in Hnone, Hsome.
  split; [|exact Hsome].
  rewrite <- Hnone. unfold Hashed.has_duplicate_key.
  by destruct (Hashed.duplicate_key_ h).
Qed.

(** X22: After any chain of insertions into a fresh map, the entry of the
    table for a key holds the first key inserted with that hash and the value
    inserted last with it; there is no entry when no such key was inserted. *)
Theorem Hashed_pairs_first_key_last_value :
  forall (E : Type) (HM : HashMethod E) (h0 : Z) (ps : list (E * E)) (k : E),
    Hashed.pairs (fold_left Hashed.shl ps (Hashed.Hashed_ctor h0)) !! hash k
    = (first ← hd_error (with_hash (hash k) ps);
       last ← last (with_hash (hash k) ps);
       Some (first.1, last.2)).
Proof.
  intros E HM h0 ps k. unfold Hashed.pairs. apply fold_shl_lookup.
Qed.

(** ** Hashing *)

Lemma Z_lxor_cancel_l (a b c : Z) : Z.lxor a b = Z.lxor a c -> b = c.
Proof.
  intros Heq.
  rewrite <- (Z.lxor_0_l b), <- (Z.lxor_nilpotent a), Z.lxor_assoc, Heq.
  by rewrite <- Z.lxor_assoc, Z.lxor_nilpotent, Z.lxor_0_l.
Qed.

Lemma hash_combine_cancel (seed hashed1 hashed2 : Z) :
  is_size_t hashed1 -> is_size_t hashed2 ->
  hash_combine seed hashed1 = hash_combine seed hashed2 ->
  hashed1 = hashed2.
Proof.
  intros Ha Hb Heq. unfold hash_combine in Heq.
  apply Z_lxor_cancel_l in Heq.
  unfold to_size_t at 1 3, wrap_unsigned in Heq.
  unfold is_size_t in Ha, Hb.
  set (M := 2 ^ size_t_bits) in *.
  set (c := 2654435769 + to_size_t (Z.shiftl seed 6) + Z.shiftr seed 2) in *.
  replace (hashed1 + 2654435769 + to_size_t (Z.shiftl seed 6) + Z.shiftr seed 2)
    with (hashed1 + c) in Heq by (subst c; ring).
  replace (hashed2 + 2654435769 + to_size_t (Z.shiftl seed 6) + Z.shiftr seed 2)
    with (hashed2 + c) in Heq by (subst c; ring).
  assert (HM : 0 < M) by (subst M; unfold size_t_bits; lia).
  assert (Hmod : (hashed1 - hashed2) mod M = 0).
  { replace (hashed1 - hashed2) with ((hashed1 + c) - (hashed2 + c)) by ring.
    by rewrite Zminus_mod, Heq, Z.sub_diag. }
  apply Z.mod_divide in Hmod as [k Hk]; [|lia].
  assert (k = 0) as ->; [|lia].
  destruct (Z_lt_le_dec k 1) as [Hk1|Hk1], (Z_lt_le_dec (-1) k) as [Hk2|Hk2];
    [lia | nia | nia | lia].
Qed.

(** X23: For a given seed, [hash_combine] sends different hash values to
    different results. *)
Theorem hash_combine_injective :
  forall seed hashed1 hashed2 : Z,
    is_size_t hashed1 -> is_size_t hashed2 ->
    hashed1 <> hashed2 ->
    hash_combine seed hashed1 <> hash_combine seed hashed2.
Proof.
  intros seed hashed1 hashed2 H1 H2 Hne Heq. apply Hne.
  by apply (hash_combine_cancel seed).
Qed.

Lemma String_Schema_shl_hash_ {E : Type} (self : String_Schema E) (element : option E) :
  Schema_hash_ (Vectorized_shl self element) = Schema_hash_ self.
Proof. by destruct element. Qed.

(** X24: Once [hash()] has returned a value other than 0, it returns that
    value for good, whatever [operator<<] appends afterwards: [operator<<]
    resets the [hash_] of [Vectorized], and [hash()] reads the [hash_] that
    [String_Schema] declares. *)
Theorem String_Schema_hash_kept_after_shl :
  forall (E : Type) (HM : HashMethod E) (std_hash : Z -> Z)
         (self : String_Schema E) (elements : list (option E)),
    (String_Schema_hash std_hash self).1 <> 0 ->
    (String_Schema_hash std_hash
       (fold_left Vectorized_shl elements (String_Schema_hash std_hash self).2)).1
    = (String_Schema_hash std_hash self).1.
Proof.
  intros E HM std_hash self elements Hnz.
  set (self1 := (String_Schema_hash std_hash self).2).
  assert (Hcached : Schema_hash_ self1 = (String_Schema_hash std_hash self).1).
  { subst self1. unfold String_Schema_hash.
    by destruct (Schema_hash_ self =? 0). }
  assert (Hkept : Schema_hash_ (fold_left Vectorized_shl elements self1)
                  = Schema_hash_ self1).
  { generalize self1. induction elements as [|e es IH]; intros s; [done|].
    cbn [fold_left]. by rewrite IH, String_Schema_shl_hash_. }
  unfold String_Schema_hash at 1. rewrite Hkept, Hcached.
  by destruct (Z.eqb_spec (String_Schema_hash std_hash self).1 0).
Qed.

Lemma hash_combine_injective_witness :
  hash_combine 7 1 = 2654436220 /\ hash_combine 7 2 = 2654436219 /\
  hash_combine 7 1 <> hash_combine 7 2.
Proof.
  split; [reflexivity|]. split; [reflexivity|].
  apply (hash_combine_injective 7 1 2).
  - unfold is_size_t, size_t_bits. lia.
  - unfold is_size_t, size_t_bits. lia.
  - discriminate.
Defined.

Lemma String_Schema_hash_kept_after_shl_witness :
  (@String_Schema_hash Z number_hash (fun z => z) schema_of_one).1 = 2654435770 /\
  (@String_Schema_hash Z number_hash (fun z => z)
     (Vectorized_shl (@String_Schema_hash Z number_hash (fun z => z) schema_of_one).2
        (Some 2))).1
  = 2654435770 /\
  (@String_Schema_hash Z number_hash (fun z => z)
     (Vectorized_shl schema_of_one (Some 2))).1
  = 175247769363.
Proof.
  split; [reflexivity|]. split; [|reflexivity].
  refine (eq_trans
            (String_Schema_hash_kept_after_shl Z number_hash (fun z => z)
               schema_of_one [Some 2] _) _).
  - discriminate.
  - reflexivity.
Defined.
